(** * Atomica: the physics and chemistry core, embedded in Rocq

    The C++ sources compute in [float] (IEEE-754 binary32) and [int]
    (32 bits).  Every function of the core is translated once, over an
    arithmetic interface [Scalar]; the interface is then instantiated

    - at [binary32], the machine arithmetic of the program (round to
      nearest even, one rounding per operation), which evaluates, and
    - at [R], exact real arithmetic, in which the algebraic laws of the
      physics hold without rounding.

    Objects held through [std::shared_ptr] live in a store indexed by
    addresses, so that aliasing between an atom's electron list, the
    particle list of the solver and the caller is the aliasing of the
    program. *)

From Stdlib Require Import ZArith Zquot QArith Qabs Reals Lra Lia Ascii String.
From Stdlib Require Import Floats.SpecFloat.
From stdpp Require Import base option list gmap strings.

Set Default Proof Using "Type".

(** ** Arithmetic interface *)

(** [flit m e] is the decimal literal [m]e[e] with the [f] suffix, that is
    the [float] nearest to m * 10^e; [of_int] is the conversion
    [static_cast<float>] of an [int]. *)
Class Scalar (F : Type) := {
  flit : Z -> Z -> F;
  of_int : Z -> F;
  fadd : F -> F -> F;
  fsub : F -> F -> F;
  fmul : F -> F -> F;
  fdiv : F -> F -> F;
  fneg : F -> F;
  fsqrt : F -> F;
  fltb : F -> F -> bool;
  fleb : F -> F -> bool
}.

Declare Scope float_scope.
Delimit Scope float_scope with fl.
Infix "+" := fadd : float_scope.
Infix "-" := fsub : float_scope.
Infix "*" := fmul : float_scope.
Infix "/" := fdiv : float_scope.
Notation "- x" := (fneg x) : float_scope.
Infix "<?" := fltb : float_scope.
Infix "<=?" := fleb : float_scope.

(** *** IEEE-754 binary32 *)

Module Binary32.
Definition prec : Z := 24.
Definition emax : Z := 128.

Definition of_Z (n : Z) : spec_float := binary_normalize prec emax n 0 false.

(** The correctly rounded quotient of two integers, by the division of
    the format on their exact representations. *)
Definition of_ratio (s : bool) (n d : positive) : spec_float :=
  SFdiv prec emax (S754_finite s n 0) (S754_finite false d 0).

(** The literal m * 10^e. *)
Definition decimal (m e : Z) : spec_float :=
  if (0 <=? e)%Z then of_Z (m * 10 ^ e)
  else
    match m with
    | Z0 => S754_zero false
    | Zpos p => of_ratio false p (Z.to_pos (10 ^ (- e)))
    | Zneg p => of_ratio true p (Z.to_pos (10 ^ (- e)))
    end.

Definition is_finite (x : spec_float) : bool :=
  match x with
  | S754_zero _ | S754_finite _ _ _ => true
  | _ => false
  end.

(** The rational number a finite float stands for. *)
Definition to_Q (x : spec_float) : option Q :=
  match x with
  | S754_zero _ => Some 0%Q
  | S754_finite s m e =>
      let v := if (0 <=? e)%Z then inject_Z (Zpos m * 2 ^ e)
               else (Zpos m # Z.to_pos (2 ^ (- e)))%Q in
      Some (if s then Qopp v else v)
  | _ => None
  end.

(** [near x m e]: the finite float [x] = mx * 2^ex lies within half a
    unit in its last place of m * 10^e. *)
Definition near (x : spec_float) (m e : Z) : bool :=
  match x, to_Q x with
  | S754_finite _ _ ex, Some q =>
      let lit := if (0 <=? e)%Z then inject_Z (m * 10 ^ e)
                 else (m # Z.to_pos (10 ^ (- e)))%Q in
      let ulp := if (0 <=? ex)%Z then inject_Z (2 ^ ex)
                 else (1 # Z.to_pos (2 ^ (- ex)))%Q in
      Qle_bool (Qabs (q - lit) * 2) ulp
  | _, _ => false
  end.
End Binary32.

#[export] Instance binary32 : Scalar spec_float := {|
  flit := Binary32.decimal;
  of_int := Binary32.of_Z;
  fadd := SFadd Binary32.prec Binary32.emax;
  fsub := SFsub Binary32.prec Binary32.emax;
  fmul := SFmul Binary32.prec Binary32.emax;
  fdiv := SFdiv Binary32.prec Binary32.emax;
  fneg := SFopp;
  fsqrt := SFsqrt Binary32.prec Binary32.emax;
  fltb := SFltb;
  fleb := SFleb
|}.

(** *** Exact real arithmetic *)

Module Exact.
Definition decimal (m e : Z) : R :=
  if (0 <=? e)%Z then IZR (m * 10 ^ e) else (IZR m / IZR (10 ^ (- e)))%R.
Definition ltb (a b : R) : bool := if Rlt_dec a b then true else false.
Definition leb (a b : R) : bool := if Rle_dec a b then true else false.
End Exact.

#[export] Instance exact : Scalar R := {|
  flit := Exact.decimal;
  of_int := IZR;
  fadd := Rplus;
  fsub := Rminus;
  fmul := Rmult;
  fdiv := Rdiv;
  fneg := Ropp;
  fsqrt := sqrt;
  fltb := Exact.ltb;
  fleb := Exact.leb
|}.

(** ** The C++ type [int] *)

(** 32-bit two's complement.  Signed overflow is undefined in C++; the
    model takes the wrap-around that the compiled program performs. *)
Definition int := Z.
Bind Scope Z_scope with int.
Definition INT_MAX : Z := 2147483647.
Definition INT_MIN : Z := -2147483648.
Definition wrap_int (z : Z) : int := ((z + 2 ^ 31) mod 2 ^ 32 - 2 ^ 31)%Z.
Definition int_mul (a b : int) : int := wrap_int (a * b).
Definition int_sub (a b : int) : int := wrap_int (a - b).
(** [a % b] truncates towards zero. *)
Definition int_rem (a b : int) : int := Z.rem a b.
Definition in_int (z : Z) : Prop := (INT_MIN <= z <= INT_MAX)%Z.

(** ** [glm::vec3] *)

Record vec3 (F : Type) := mk_vec3 { vx : F; vy : F; vz : F }.
Arguments mk_vec3 {F} _ _ _.
Arguments vx {F} _.
Arguments vy {F} _.
Arguments vz {F} _.

(** The operations of GLM that the core calls, as GLM's generic
    implementation defines them: [dot] of two [vec3] multiplies
    componentwise and adds x, y, z from the left; [length] is
    [sqrt(dot(v, v))]; [inversesqrt(x)] is [1 / sqrt(x)]; [normalize(v)]
    is [v * inversesqrt(dot(v, v))]. *)
Module glm.
Section Ops.
Context {F : Type} {SF : Scalar F}.

(** [glm::vec3(s)] *)
Definition splat (s : F) : vec3 F := mk_vec3 s s s.
Definition add (a b : vec3 F) : vec3 F :=
  mk_vec3 (vx a + vx b)%fl (vy a + vy b)%fl (vz a + vz b)%fl.
Definition sub (a b : vec3 F) : vec3 F :=
  mk_vec3 (vx a - vx b)%fl (vy a - vy b)%fl (vz a - vz b)%fl.
(** [s * v] *)
Definition scale (s : F) (v : vec3 F) : vec3 F :=
  mk_vec3 (s * vx v)%fl (s * vy v)%fl (s * vz v)%fl.
(** [v * s] *)
Definition times (v : vec3 F) (s : F) : vec3 F :=
  mk_vec3 (vx v * s)%fl (vy v * s)%fl (vz v * s)%fl.
Definition dot (a b : vec3 F) : F :=
  (vx a * vx b + vy a * vy b + vz a * vz b)%fl.
Definition length (v : vec3 F) : F := fsqrt (dot v v).
Definition inversesqrt (x : F) : F := (of_int 1 / fsqrt x)%fl.
Definition normalize (v : vec3 F) : vec3 F := times v (inversesqrt (dot v v)).
(** [v / s], componentwise *)
Definition over (v : vec3 F) (s : F) : vec3 F :=
  mk_vec3 (vx v / s)%fl (vy v / s)%fl (vz v / s)%fl.
End Ops.
End glm.

(** ** Objects and the store *)

Inductive ParticleType := PROTON | NEUTRON | ELECTRON | NUCLEUS.

(** The members of [class Particle]. *)
Record Particle (F : Type) := mk_Particle {
  m_type : ParticleType;
  m_position : vec3 F;
  m_velocity : vec3 F;
  m_mass : F;
  m_charge : F
}.
Arguments mk_Particle {F} _ _ _ _ _.
Arguments m_type {F} _.
Arguments m_position {F} _.
Arguments m_velocity {F} _.
Arguments m_mass {F} _.
Arguments m_charge {F} _.

(** The members a derived class adds: [Nucleus] carries [m_atomicNumber]
    and [m_massNumber], [Electron] carries [m_orbitalLevel]. *)
Inductive Derived :=
  | IsParticle
  | IsNucleus (atomicNumber massNumber : int)
  | IsElectron (orbitalLevel : int).

Record Object (F : Type) := mk_Object { base : Particle F; derived : Derived }.
Arguments mk_Object {F} _ _.
Arguments base {F} _.
Arguments derived {F} _.

Definition ptr := positive.
(** A [std::shared_ptr]: empty, or the address of a live object. *)
Definition shared_ptr := option ptr.

(** The members of [class Atom]. *)
Record Atom := mk_Atom {
  m_atomicNumber : int;
  m_massNumber : int;
  m_nucleus : shared_ptr;
  m_electrons : list shared_ptr
}.

(** What is written to a stream with [<<]. *)
Inductive Out (F : Type) :=
  | Text (s : string)
  | Float (x : F)
  | Int (n : int)
  | Endl.
Arguments Text {F} _.
Arguments Float {F} _.
Arguments Int {F} _.
Arguments Endl {F}.

Record World (F : Type) := mk_World {
  particles : gmap ptr (Object F);
  atoms : gmap ptr Atom;
  next : ptr;
  cout : list (Out F);
  cerr : list (Out F)
}.
Arguments mk_World {F} _ _ _ _ _.
Arguments particles {F} _.
Arguments atoms {F} _.
Arguments next {F} _.
Arguments cout {F} _.
Arguments cerr {F} _.

(** ** The monad of the methods

    A method takes the world to a result and a new world; [None] is
    undefined behaviour (dereferencing an empty pointer, or a pointer to
    an object of another class). *)
Definition M (F A : Type) : Type := World F -> option (A * World F).

#[export] Instance M_ret {F} : MRet (M F) := fun A a w => Some (a, w).
#[export] Instance M_bind {F} : MBind (M F) := fun A B f m w =>
  match m w with
  | Some (a, w') => f a w'
  | None => None
  end.

Section Store.
Context {F : Type}.

Definition undefined {A} : M F A := fun _ => None.

Definition load (p : shared_ptr) : M F (Object F) := fun w =>
  match p with
  | Some a => match particles w !! a with
              | Some o => Some (o, w)
              | None => None
              end
  | None => None
  end.

Definition store (p : shared_ptr) (o : Object F) : M F unit := fun w =>
  match p with
  | Some a => Some (tt, mk_World (<[a := o]> (particles w)) (atoms w) (next w) (cout w) (cerr w))
  | None => None
  end.

Definition load_atom (p : shared_ptr) : M F Atom := fun w =>
  match p with
  | Some a => match atoms w !! a with
              | Some x => Some (x, w)
              | None => None
              end
  | None => None
  end.

Definition store_atom (p : shared_ptr) (x : Atom) : M F unit := fun w =>
  match p with
  | Some a => Some (tt, mk_World (particles w) (<[a := x]> (atoms w)) (next w) (cout w) (cerr w))
  | None => None
  end.

(** [std::make_shared] *)
Definition make_shared (o : Object F) : M F shared_ptr := fun w =>
  Some (Some (next w),
        mk_World (<[next w := o]> (particles w)) (atoms w) (Pos.succ (next w)) (cout w) (cerr w)).

Definition make_shared_atom (x : Atom) : M F shared_ptr := fun w =>
  Some (Some (next w),
        mk_World (particles w) (<[next w := x]> (atoms w)) (Pos.succ (next w)) (cout w) (cerr w)).

(** [std::cout << ...] and [std::cerr << ...] *)
Definition with_cout (w : World F) (items : list (Out F)) : World F :=
  mk_World (particles w) (atoms w) (next w) (cout w ++ items) (cerr w).
Definition with_cerr (w : World F) (items : list (Out F)) : World F :=
  mk_World (particles w) (atoms w) (next w) (cout w) (cerr w ++ items).
Definition to_cout (items : list (Out F)) : M F unit := fun w => Some (tt, with_cout w items).
Definition to_cerr (items : list (Out F)) : M F unit := fun w => Some (tt, with_cerr w items).

(** The class of the object at an address. *)
Definition kind_at (w : World F) (a : ptr) : option Derived := derived <$> particles w !! a.

(** A range-based [for] over a vector. *)
Fixpoint for_each {A} (l : list A) (body : A -> M F unit) : M F unit :=
  match l with
  | [] => mret tt
  | x :: l' => body x ≫= fun _ => for_each l' body
  end.
End Store.

(** ** [Particle], [Nucleus], [Electron] *)

Module Particle.
Section Methods.
Context {F : Type}.

Definition getPosition (this : shared_ptr) : M F (vec3 F) :=
  o ← load this; mret (m_position (base o)).

(** The object with [m_position] assigned. *)
Definition with_position (o : Object F) (position : vec3 F) : Object F :=
  let b := base o in
  mk_Object (mk_Particle (m_type b) position (m_velocity b) (m_mass b) (m_charge b)) (derived o).

Definition setPosition (this : shared_ptr) (position : vec3 F) : M F unit :=
  o ← load this; store this (with_position o position).

Definition getCharge (this : shared_ptr) : M F F :=
  o ← load this; mret (m_charge (base o)).
End Methods.

Section Dynamics.
Context {F : Type} {SF : Scalar F}.

(** The object after [update(force, deltaTime)]: the velocity is advanced
    by the acceleration, then the position by the new velocity. *)
Definition updated (o : Object F) (force : vec3 F) (deltaTime : F) : Object F :=
  let b := base o in
  let acceleration := glm.over force (m_mass b) in
  let velocity := glm.add (m_velocity b) (glm.times acceleration deltaTime) in
  let position := glm.add (m_position b) (glm.times velocity deltaTime) in
  mk_Object (mk_Particle (m_type b) position velocity (m_mass b) (m_charge b)) (derived o).

Definition update (this : shared_ptr) (force : vec3 F) (deltaTime : F) : M F unit :=
  o ← load this; store this (updated o force deltaTime).
End Dynamics.
End Particle.

Module Nucleus.
Section Methods.
Context {F : Type}.

Definition ctor (atomicNumber massNumber : int) (position velocity : vec3 F)
    (mass charge : F) : Object F :=
  mk_Object (mk_Particle NUCLEUS position velocity mass charge)
            (IsNucleus atomicNumber massNumber).

Definition getAtomicNumber (this : shared_ptr) : M F int :=
  o ← load this;
  match derived o with
  | IsNucleus z _ => mret z
  | _ => undefined
  end.

Definition getMassNumber (this : shared_ptr) : M F int :=
  o ← load this;
  match derived o with
  | IsNucleus _ a => mret a
  | _ => undefined
  end.
End Methods.
End Nucleus.

Module Electron.
Section Methods.
Context {F : Type} {SF : Scalar F}.

(** Mass 9.109e-31f and charge -1.602e-19f. *)
Definition ctor (position velocity : vec3 F) (orbitalLevel : int) : Object F :=
  mk_Object (mk_Particle ELECTRON position velocity (flit 9109 (-34)) (- flit 1602 (-22))%fl)
            (IsElectron orbitalLevel).

Definition getOrbitalLevel (this : shared_ptr) : M F int :=
  o ← load this;
  match derived o with
  | IsElectron n => mret n
  | _ => undefined
  end.

Definition setOrbitalLevel (this : shared_ptr) (orbitalLevel : int) : M F unit :=
  o ← load this;
  match derived o with
  | IsElectron _ => store this (mk_Object (base o) (IsElectron orbitalLevel))
  | _ => undefined
  end.
End Methods.
End Electron.

(** ** [Atom] *)

Module Atom.
Section Methods.
Context {F : Type} {SF : Scalar F}.

(** The loop of the constructor: [n] electrons at [position], at rest,
    on level 1, pushed back in turn. *)
Fixpoint initial_electrons (n : nat) (position : vec3 F) : M F (list shared_ptr) :=
  match n with
  | O => mret []
  | S n' =>
      e ← make_shared (Electron.ctor position (glm.splat (flit 0 0)) 1);
      es ← initial_electrons n' position;
      mret (e :: es)
  end.

Definition ctor (atomicNumber massNumber : int) (position : vec3 F) : M F shared_ptr :=
  let nucleusMass :=
    (of_int atomicNumber * flit 1672 (-30)
     + of_int (int_sub massNumber atomicNumber) * flit 1674 (-30))%fl in
  let nucleusCharge := (of_int atomicNumber * flit 1602 (-22))%fl in
  nucleus ← make_shared (Nucleus.ctor atomicNumber massNumber position
                                      (glm.splat (flit 0 0)) nucleusMass nucleusCharge);
  electrons ← initial_electrons (Z.to_nat atomicNumber) position;
  make_shared_atom (mk_Atom atomicNumber massNumber nucleus electrons).

Definition getAtomicNumber (this : shared_ptr) : M F int :=
  a ← load_atom this; mret (m_atomicNumber a).

Definition getNucleus (this : shared_ptr) : M F shared_ptr :=
  a ← load_atom this; mret (m_nucleus a).

Definition getElectrons (this : shared_ptr) : M F (list shared_ptr) :=
  a ← load_atom this; mret (m_electrons a).

Definition getPosition (this : shared_ptr) : M F (vec3 F) :=
  a ← load_atom this; Particle.getPosition (m_nucleus a).

Definition setPosition (this : shared_ptr) (position : vec3 F) : M F unit :=
  a ← load_atom this;
  old ← Particle.getPosition (m_nucleus a);
  let delta := glm.sub position old in
  Particle.setPosition (m_nucleus a) position;;
  for_each (m_electrons a) (fun electron =>
    p ← Particle.getPosition electron;
    Particle.setPosition electron (glm.add p delta)).

Definition addElectron (this : shared_ptr) (electron : shared_ptr) : M F unit :=
  a ← load_atom this;
  store_atom this (mk_Atom (m_atomicNumber a) (m_massNumber a) (m_nucleus a)
                           (m_electrons a ++ [electron])).

(** [std::remove] keeps, in their order, the elements that differ from
    the value; the vector is erased, and [true] returned, when one was
    dropped. *)
Definition removeElectron (this : shared_ptr) (electron : shared_ptr) : M F bool :=
  a ← load_atom this;
  let kept := filter (fun e => e <> electron) (m_electrons a) in
  if decide (List.length kept = List.length (m_electrons a)) then mret false
  else
    store_atom this (mk_Atom (m_atomicNumber a) (m_massNumber a) (m_nucleus a) kept);;
    mret true.
End Methods.
End Atom.

(** ** [NuclearReactor] *)

Module NuclearReactor.
Section Methods.
Context {F : Type} {SF : Scalar F}.
(** [std::pow] on [float], of the C++ library. *)
Variable std_pow : F -> F -> F.

Definition AMU_TO_KG : F := flit 1660539 (-33).
Definition C_SQUARED : F := flit 898755179 8.
Definition J_TO_EV : F := flit 6242 15.

Definition calculateBindingEnergyPerNucleon (atomicNumber massNumber : int) : F :=
  if (massNumber =? 0)%Z then flit 0 0
  else
    let A := of_int massNumber in
    let Z := of_int atomicNumber in
    let volumeTerm := (flit 157 (-1) * A)%fl in
    let surfaceTerm := (flit 178 (-1) * std_pow A (flit 2 0 / flit 3 0))%fl in
    let coulombTerm :=
      (flit 71 (-2) * Z * (Z - of_int 1) / std_pow A (flit 1 0 / flit 3 0))%fl in
    let asymmetryTerm :=
      (flit 237 (-1) * std_pow (A - of_int 2 * Z) (flit 2 0) / A)%fl in
    let pairingTerm :=
      if (int_rem massNumber 2 =? 0)%Z && (int_rem atomicNumber 2 =? 0)%Z
      then (flit 112 (-1) / fsqrt A)%fl
      else if negb (int_rem massNumber 2 =? 0)%Z && negb (int_rem atomicNumber 2 =? 0)%Z
      then (- flit 112 (-1) / fsqrt A)%fl
      else flit 0 0 in
    let bindingEnergyMeV :=
      (volumeTerm - surfaceTerm - coulombTerm - asymmetryTerm + pairingTerm)%fl in
    let bindingEnergyMeV :=
      if (bindingEnergyMeV <? of_int 0)%fl then of_int 0 else bindingEnergyMeV in
    (bindingEnergyMeV / A * flit 1 6)%fl.

(** The getters only read; the operands of [||] and [&&] in the guards
    below are therefore fetched first, which dereferences the pointers
    the guards of the source dereference. *)
Definition simulateFission (nucleus : shared_ptr) : M F F :=
  z ← Nucleus.getAtomicNumber nucleus;
  a ← Nucleus.getMassNumber nucleus;
  if negb (z =? 92)%Z || negb (a =? 235)%Z then
    to_cerr [Text "Fission currently only supported for U-235 (simplified model)."; Endl];;
    mret (flit 0 0)
  else
    let mass_U235 := flit 2350439299 (-7) in
    let mass_Ba141 := flit 140914411 (-6) in
    let mass_Kr92 := flit 91926156 (-6) in
    let mass_neutron := flit 1008665 (-6) in
    let initialMass := mass_U235 in
    let finalMass := (mass_Ba141 + mass_Kr92 + of_int 3 * mass_neutron)%fl in
    let massDefectAMU := (initialMass - finalMass)%fl in
    if (massDefectAMU <=? of_int 0)%fl then
      to_cerr [Text "Warning: Fission resulted in non-positive mass defect. No energy released.";
               Endl];;
      mret (flit 0 0)
    else
      let energyJoules := (massDefectAMU * AMU_TO_KG * C_SQUARED)%fl in
      let energyEV := (energyJoules * J_TO_EV)%fl in
      to_cout [Text "Fission of U-235: Mass Defect = "; Float massDefectAMU;
               Text " AMU, Energy Released = "; Float energyEV; Text " eV"; Endl];;
      mret energyEV.

Definition simulateFusion (nucleus1 nucleus2 : shared_ptr) : M F F :=
  z1 ← Nucleus.getAtomicNumber nucleus1;
  a1 ← Nucleus.getMassNumber nucleus1;
  z2 ← Nucleus.getAtomicNumber nucleus2;
  a2 ← Nucleus.getMassNumber nucleus2;
  let isDeuterium := ((z1 =? 1) && (a1 =? 2) || (z2 =? 1) && (a2 =? 2))%Z in
  let isTritium := ((z1 =? 1) && (a1 =? 3) || (z2 =? 1) && (a2 =? 3))%Z in
  if negb (isDeuterium && isTritium) then
    to_cerr [Text "Fusion currently only supported for Deuterium-Tritium (simplified model).";
             Endl];;
    mret (flit 0 0)
  else
    let mass_D := flit 201410178 (-8) in
    let mass_T := flit 301604927 (-8) in
    let mass_He4 := flit 400260325 (-8) in
    let mass_neutron := flit 1008665 (-6) in
    let initialMass := (mass_D + mass_T)%fl in
    let finalMass := (mass_He4 + mass_neutron)%fl in
    let massDefectAMU := (initialMass - finalMass)%fl in
    if (massDefectAMU <=? of_int 0)%fl then
      to_cerr [Text "Warning: Fusion resulted in non-positive mass defect. No energy released.";
               Endl];;
      mret (flit 0 0)
    else
      let energyJoules := (massDefectAMU * AMU_TO_KG * C_SQUARED)%fl in
      let energyEV := (energyJoules * J_TO_EV)%fl in
      to_cout [Text "Fusion of D-T: Mass Defect = "; Float massDefectAMU;
               Text " AMU, Energy Released = "; Float energyEV; Text " eV"; Endl];;
      mret energyEV.
End Methods.
End NuclearReactor.

(** ** [OrbitalModel] *)

Module OrbitalModel.
Section Methods.
Context {F : Type} {SF : Scalar F}.

Definition RYDBERG_CONSTANT_EV : F := flit 13605693 (-6).

Definition calculateOrbitalEnergy (atomicNumber orbitalLevel : int) : M F F :=
  if (orbitalLevel <=? 0)%Z then
    to_cerr [Text "Error: Orbital level must be a positive integer."; Endl];;
    mret (flit 0 0)
  else
    mret (- RYDBERG_CONSTANT_EV
          * (of_int (int_mul atomicNumber atomicNumber)
             / of_int (int_mul orbitalLevel orbitalLevel)))%fl.

Definition simulateElectronJump (electron atom : shared_ptr) (newOrbitalLevel : int)
    : M F F :=
  match electron, atom with
  | Some _, Some _ =>
      currentOrbitalLevel ← Electron.getOrbitalLevel electron;
      if (newOrbitalLevel <=? 0)%Z then
        to_cerr [Text "Error: New orbital level must be a positive integer."; Endl];;
        mret (flit 0 0)
      else
        z_i ← Atom.getAtomicNumber atom;
        initialEnergy ← calculateOrbitalEnergy z_i currentOrbitalLevel;
        z_f ← Atom.getAtomicNumber atom;
        finalEnergy ← calculateOrbitalEnergy z_f newOrbitalLevel;
        let deltaE := (finalEnergy - initialEnergy)%fl in
        Electron.setOrbitalLevel electron newOrbitalLevel;;
        z ← Atom.getAtomicNumber atom;
        to_cout [Text "Electron jumped from orbital "; Int currentOrbitalLevel;
                 Text " to "; Int newOrbitalLevel;
                 Text " in atom with Z="; Int z;
                 Text ". ΔE = "; Float deltaE; Text " eV"; Endl];;
        mret deltaE
  | _, _ =>
      to_cerr [Text "Error: Invalid electron or atom provided for electron jump simulation.";
               Endl];;
      mret (flit 0 0)
  end.
End Methods.
End OrbitalModel.

(** ** [CoulombSolver] *)

Module CoulombSolver.
Section Methods.
Context {F : Type} {SF : Scalar F}.

Definition COULOMB_CONSTANT : F := flit 89875 5.

(** A counted [for] loop that threads the local [forces]. *)
Fixpoint for_range {S} (range : list nat) (body : nat -> S -> M F S) (s : S) : M F S :=
  match range with
  | [] => mret s
  | k :: range' => s' ← body k s; for_range range' body s'
  end.

(** [particles[i]] *)
Definition at_index (particles : list shared_ptr) (i : nat) : M F shared_ptr :=
  match particles !! i with
  | Some p => mret p
  | None => undefined
  end.

(** The body of the inner loop, for the pair (i, j). *)
Definition pair_body (particles : list shared_ptr) (i j : nat) (forces : list (vec3 F))
    : M F (list (vec3 F)) :=
  p_i ← at_index particles i;
  p_j ← at_index particles j;
  pos_i ← Particle.getPosition p_i;
  pos_j ← Particle.getPosition p_j;
  let r_vec := glm.sub pos_i pos_j in
  let distance := glm.length r_vec in
  if (distance <? flit 1 (-9))%fl then mret forces
  else
    q_i ← Particle.getCharge p_i;
    q_j ← Particle.getCharge p_j;
    let forceMagnitude := (COULOMB_CONSTANT * (q_i * q_j) / (distance * distance))%fl in
    let forceDirection := glm.normalize r_vec in
    let force := glm.scale forceMagnitude forceDirection in
    let forces := alter (fun f => glm.add f force) i forces in
    let forces := alter (fun f => glm.sub f force) j forces in
    mret forces.

Definition calculateForces (particles : list shared_ptr) : M F (list (vec3 F)) :=
  let size := List.length particles in
  for_range (seq 0 size) (fun i forces =>
    for_range (seq (S i) (size - S i)) (fun j forces =>
      pair_body particles i j forces) forces)
    (replicate size (glm.splat (flit 0 0))).
End Methods.
End CoulombSolver.

(** ** [Molecule] *)

Module Molecule.
Record t := mk { m_atoms : list shared_ptr; m_bonds : list shared_ptr }.

(** [Molecule() = default] *)
Definition ctor : t := mk [] [].

(** The molecules live in a store of their own, by address. *)
Definition addAtom (this atom : shared_ptr) (molecules : gmap ptr t) : option (gmap ptr t) :=
  match this with
  | Some a => match molecules !! a with
              | Some m => Some (<[a := mk (m_atoms m ++ [atom]) (m_bonds m)]> molecules)
              | None => None
              end
  | None => None
  end.

Definition addBond (this bond : shared_ptr) (molecules : gmap ptr t) : option (gmap ptr t) :=
  match this with
  | Some a => match molecules !! a with
              | Some m => Some (<[a := mk (m_atoms m) (m_bonds m ++ [bond])]> molecules)
              | None => None
              end
  | None => None
  end.

Definition getAtoms (this : shared_ptr) (molecules : gmap ptr t) : option (list shared_ptr) :=
  match this with
  | Some a => m_atoms <$> molecules !! a
  | None => None
  end.
End Molecule.

(** ** [PhysicsEngine] *)

Module PhysicsEngine.
(** The engine is held by its one owner; its members are passed along. *)
Record t := mk { m_atoms : list shared_ptr; m_molecules : list shared_ptr }.

Definition ctor : t := mk [] [].

Definition addAtom (this : t) (atom : shared_ptr) : t :=
  mk (m_atoms this ++ [atom]) (m_molecules this).

Definition addMolecule (molecules : gmap ptr Molecule.t) (this : t) (molecule : shared_ptr)
    : option t :=
  let this := mk (m_atoms this) (m_molecules this ++ [molecule]) in
  match Molecule.getAtoms molecule molecules with
  | Some atoms => Some (foldl addAtom this atoms)
  | None => None
  end.

Section Update.
Context {F : Type} {SF : Scalar F}.

(** Step 1 of [update]: of every atom the nucleus, then its electrons. *)
Fixpoint gather (atoms : list shared_ptr) (allParticles : list shared_ptr)
    : M F (list shared_ptr) :=
  match atoms with
  | [] => mret allParticles
  | atom :: atoms' =>
      nucleus ← Atom.getNucleus atom;
      electrons ← Atom.getElectrons atom;
      gather atoms' (allParticles ++ [nucleus] ++ electrons)
  end.

Definition update (this : t) (deltaTime : F) : M F unit :=
  allParticles ← gather (m_atoms this) [];
  forces ← CoulombSolver.calculateForces allParticles;
  CoulombSolver.for_range (seq 0 (List.length allParticles)) (fun i _ =>
    particle ← CoulombSolver.at_index allParticles i;
    match forces !! i with
    | Some force => Particle.update particle force deltaTime
    | None => undefined
    end) tt.
End Update.
End PhysicsEngine.

(** ** [Bond::Type] and [BondCalculator] *)

Module Bond.
(** A value of the scoped enumeration [Bond::Type] is an [int]; the six
    enumerators are 0 to 5, and a cast can make any other. *)
Definition Type_ : Type := int.
Definition SINGLE : Type_ := 0%Z.
Definition DOUBLE : Type_ := 1%Z.
Definition TRIPLE : Type_ := 2%Z.
Definition IONIC : Type_ := 3%Z.
Definition METALLIC : Type_ := 4%Z.
Definition HYDROGEN : Type_ := 5%Z.
End Bond.

Module BondCalculator.
Section Methods.
Context {F : Type} {SF : Scalar F}.

Record t := mk { m_bondEnergies : gmap Z F }.

(** [m_bondEnergies[type] = energy] *)
Definition assign (type : Bond.Type_) (energy : F) (this : t) : t :=
  mk (<[type := energy]> (m_bondEnergies this)).

Definition ctor : t :=
  assign Bond.HYDROGEN (flit 2 (-1))
    (assign Bond.METALLIC (flit 20 (-1))
       (assign Bond.IONIC (flit 50 (-1))
          (assign Bond.TRIPLE (flit 100 (-1))
             (assign Bond.DOUBLE (flit 80 (-1))
                (assign Bond.SINGLE (flit 45 (-1)) (mk ∅)))))).

(** [atom->getAtomicNumber() == z] *)
Definition has_number (atom : shared_ptr) (z : int) : M F bool :=
  n ← Atom.getAtomicNumber atom; mret (n =? z)%Z.

(** [a && b] and [a || b]: the right operand is evaluated only when the
    left one does not decide. *)
Definition and_then (a b : M F bool) : M F bool :=
  a ≫= fun x : bool => if x then b else mret false.
Definition or_else (a b : M F bool) : M F bool :=
  a ≫= fun x : bool => if x then mret true else b.

(** [if (c) return a; else b] *)
Definition branch {A} (c : M F bool) (a b : M F A) : M F A :=
  c ≫= fun x : bool => if x then a else b.

Definition determineBondType (atom1 atom2 : shared_ptr) : M F Bond.Type_ :=
  branch (and_then (has_number atom1 1) (has_number atom2 1))
    (mret Bond.SINGLE)
    (branch (or_else (and_then (has_number atom1 1) (has_number atom2 8))
                     (and_then (has_number atom1 8) (has_number atom2 1)))
       (mret Bond.SINGLE)
       (branch (and_then (has_number atom1 8) (has_number atom2 8))
          (mret Bond.DOUBLE)
          (branch (and_then (has_number atom1 7) (has_number atom2 7))
             (mret Bond.TRIPLE)
             (mret Bond.SINGLE)))).

Definition getBondEnergy (this : t) (type : Bond.Type_) : M F F :=
  match m_bondEnergies this !! type with
  | Some energy => mret energy
  | None =>
      to_cerr [Text "Warning: Bond energy not found for type: "; Int type; Endl];;
      mret (flit 0 0)
  end.

Definition bondTypeToString (type : Bond.Type_) : string :=
  if (type =? Bond.SINGLE)%Z then "SINGLE"
  else if (type =? Bond.DOUBLE)%Z then "DOUBLE"
  else if (type =? Bond.TRIPLE)%Z then "TRIPLE"
  else if (type =? Bond.IONIC)%Z then "IONIC"
  else if (type =? Bond.METALLIC)%Z then "METALLIC"
  else if (type =? Bond.HYDROGEN)%Z then "HYDROGEN"
  else "UNKNOWN".
End Methods.
End BondCalculator.

(** ** The photon of a jump ([OrbitalModel.h], [OrbitalModel.cpp]) *)

Module Photon.
Inductive Band := ULTRAVIOLET | VISIBLE | INFRARED.

(** [x != y] on [float]: true also when an operand is NaN. *)
Definition fneb (x y : spec_float) : bool := negb (SFeqb x y).

Definition INFINITY : spec_float := S754_infinity false.

(** The inline function of the header. *)
Definition energyToWavelengthNm (deltaE_eV : spec_float) : spec_float :=
  if fneb deltaE_eV (flit 0 0) then (flit 1240 0 / SFabs deltaE_eV)%fl
  else INFINITY.

(** The static function of the source file. *)
Definition energyToWavelengthNm_cpp (deltaE_eV : spec_float) : spec_float :=
  if SFeqb deltaE_eV (flit 0 0) then INFINITY
  else (flit 1240 0 / SFabs deltaE_eV)%fl.

Definition classifyBand (wavelengthNm : spec_float) : Band :=
  if (wavelengthNm <? flit 380 0)%fl then ULTRAVIOLET
  else if (wavelengthNm <=? flit 750 0)%fl then VISIBLE
  else INFRARED.
End Photon.

(** ** [MathUtils] *)

Module MathUtils.
Section Functions.
Context {F : Type} {SF : Scalar F}.

(** [std::max(a, b)] is [(a < b) ? b : a], [std::min(a, b)] is
    [(b < a) ? b : a]. *)
Definition std_max (a b : F) : F := if (a <? b)%fl then b else a.
Definition std_min (a b : F) : F := if (b <? a)%fl then b else a.

Definition distance (p1 p2 : vec3 F) : F := glm.length (glm.sub p2 p1).

Definition magnitude (v : vec3 F) : F := glm.length v.

Definition normalize (v : vec3 F) : vec3 F :=
  let mag := magnitude v in
  if (flit 1 (-9) <? mag)%fl then glm.over v mag
  else glm.splat (flit 0 0).

Definition clamp (value min max : F) : F := std_max min (std_min max value).

Definition lerp (a b t : F) : F := (a + t * (b - a))%fl.

Definition EV_TO_JOULES : F := flit 1602176634 (-28).
Definition JOULES_TO_EV : F := flit 6241509074 9.
Definition AMU_TO_KG : F := flit 166053906660 (-38).
Definition KG_TO_AMU : F := flit 602214076 18.

Definition joulesToEV (joules : F) : F := (joules * JOULES_TO_EV)%fl.
Definition evToJoules (eV : F) : F := (eV * EV_TO_JOULES)%fl.
Definition amuToKg (amu : F) : F := (amu * AMU_TO_KG)%fl.
Definition kgToAmu (kg : F) : F := (kg * KG_TO_AMU)%fl.
End Functions.

(** *** [calculateBindingEnergy], which mixes [int], [float] and [double] *)

(** [double]: binary64.  A [float] converted to [double] is the same
    number; a [double] converted to [float] is rounded to the nearest,
    ties to even. *)
Module Binary64.
Definition prec : Z := 53.
Definition emax : Z := 1024.
Definition of_int (n : int) : spec_float := binary_normalize prec emax n 0 false.
Definition of_float (x : spec_float) : spec_float := x.
Definition to_float (x : spec_float) : spec_float :=
  match x with
  | S754_finite s m e => binary_round Binary32.prec Binary32.emax s m e
  | _ => x
  end.
Definition mul : spec_float -> spec_float -> spec_float := SFmul prec emax.
Definition div : spec_float -> spec_float -> spec_float := SFdiv prec emax.
Definition sqrt : spec_float -> spec_float := SFsqrt prec emax.
End Binary64.

Section BindingEnergy.
(** [std::pow] on [double], of the C++ library: an integer argument and
    a [float] argument are both converted to [double]. *)
Variable std_pow : spec_float -> spec_float -> spec_float.

Definition calculateBindingEnergy (A Z : int) : spec_float :=
  if ((A <=? 0) || (Z <? 0) || (A <? Z))%Z then flit 0 0
  else
    let a_v : spec_float := flit 1575 (-2) in
    let a_s : spec_float := flit 178 (-1) in
    let a_c : spec_float := flit 711 (-3) in
    let a_A : spec_float := flit 237 (-1) in
    let a_p : spec_float := flit 1118 (-2) in
    let N := int_sub A Z in
    let volume := (a_v * of_int A)%fl in
    let surface :=
      Binary64.to_float
        (Binary64.mul (Binary64.of_float a_s)
           (std_pow (Binary64.of_int A) (Binary64.of_float (flit 2 0 / flit 3 0)%fl))) in
    let coulomb :=
      Binary64.to_float
        (Binary64.div (Binary64.of_float (a_c * of_int (int_mul Z Z))%fl)
           (std_pow (Binary64.of_int A) (Binary64.of_float (flit 1 0 / flit 3 0)%fl))) in
    let asymmetry :=
      (a_A * of_int (int_mul (int_sub N Z) (int_sub N Z)) / of_int A)%fl in
    let pairing :=
      if ((int_rem Z 2 =? 0) && (int_rem N 2 =? 0))%Z then
        Binary64.to_float
          (Binary64.div (Binary64.of_float a_p) (Binary64.sqrt (Binary64.of_int A)))
      else if ((int_rem Z 2 =? 1) && (int_rem N 2 =? 1))%Z then
        Binary64.to_float
          (Binary64.div (Binary64.of_float (- a_p)%fl) (Binary64.sqrt (Binary64.of_int A)))
      else flit 0 0 in
    let bindingEnergy := (volume - surface - coulomb - asymmetry + pairing)%fl in
    std_max (flit 0 0) bindingEnergy.
End BindingEnergy.
End MathUtils.

(** ** [std::string] and the streams of [ConfigManager] *)

Module Str.
(** A position in a string; [npos] is [None]. *)
Fixpoint find_first_not_of (c : ascii) (s : string) : option nat :=
  match s with
  | EmptyString => None
  | String a s' => if Ascii.eqb a c then S <$> find_first_not_of c s' else Some 0
  end.

Fixpoint find_last_not_of (c : ascii) (s : string) : option nat :=
  match s with
  | EmptyString => None
  | String a s' =>
      match find_last_not_of c s' with
      | Some i => Some (S i)
      | None => if Ascii.eqb a c then None else Some 0
      end
  end.

Fixpoint find (c : ascii) (s : string) : option nat :=
  match s with
  | EmptyString => None
  | String a s' => if Ascii.eqb a c then Some 0 else S <$> find c s'
  end.

(** [s.substr(pos, len)] and [s.substr(pos)], for [pos <= s.size()]. *)
Definition substr (s : string) (pos len : nat) : string := substring pos len s.
Definition substr_from (s : string) (pos : nat) : string := substring pos (String.length s) s.

(** [::tolower] in the "C" locale. *)
Definition tolower (c : ascii) : ascii :=
  let n := nat_of_ascii c in
  if (65 <=? n) && (n <=? 90) then ascii_of_nat (n + 32) else c.

Fixpoint transform (f : ascii -> ascii) (s : string) : string :=
  match s with
  | EmptyString => EmptyString
  | String a s' => String (f a) (transform f s')
  end.

(** The lines [std::getline] reads until it fails: a line ends at a
    newline, which is dropped; what follows the last newline is a line
    when it is not empty. *)
Fixpoint getlines (content : string) : list string :=
  match content with
  | EmptyString => []
  | String c rest =>
      if Ascii.eqb c "010" then EmptyString :: getlines rest
      else
        match getlines rest with
        | [] => [String c EmptyString]
        | line :: lines => String c line :: lines
        end
  end.

(** [std::to_string(int)]: the decimal digits, after a minus sign for a
    negative number. *)
Definition digit (d : Z) : ascii := ascii_of_nat (48 + Z.to_nat d).

Fixpoint digits (fuel : nat) (n : Z) (rest : string) : string :=
  match fuel with
  | O => rest
  | S fuel' =>
      let rest' := String (digit (n mod 10)) rest in
      if (n <? 10)%Z then rest' else digits fuel' (n / 10) rest'
  end.

Definition to_string (value : int) : string :=
  if (value <? 0)%Z then String "-" (digits 10 (- value) EmptyString)
  else digits 10 value EmptyString.

(** [std::stoi]: white space is skipped, a sign is read, then the
    decimal digits up to the first other character; [None] stands for
    the exceptions [std::invalid_argument] (no digit) and
    [std::out_of_range] (the number is no [int]). *)
Definition isspace (c : ascii) : bool :=
  let n := nat_of_ascii c in (n =? 32) || ((9 <=? n) && (n <=? 13)).

Definition isdigit (c : ascii) : bool :=
  let n := nat_of_ascii c in (48 <=? n) && (n <=? 57).

Fixpoint skip_space (s : string) : string :=
  match s with
  | String c s' => if isspace c then skip_space s' else s
  | EmptyString => s
  end.

(** The number read from the leading digits, [acc] being the number read
    so far; [seen] tells whether a digit has been read. *)
Fixpoint read_digits (s : string) (acc : Z) (seen : bool) : option Z :=
  match s with
  | String c s' =>
      if isdigit c then read_digits s' (acc * 10 + (Z.of_nat (nat_of_ascii c) - 48)) true
      else if seen then Some acc else None
  | EmptyString => if seen then Some acc else None
  end.

Definition stoi (str : string) : option int :=
  let s := skip_space str in
  let '(negative, s) :=
    match s with
    | String "-" s' => (true, s')
    | String "+" s' => (false, s')
    | _ => (false, s)
    end in
  match read_digits s 0 false with
  | Some n =>
      let v := if negative then (- n)%Z else n in
      if ((INT_MIN <=? v) && (v <=? INT_MAX))%Z then Some v else None
  | None => None
  end.
End Str.

(** ** [ConfigManager] *)

Module ConfigManager.
(** [m_config], the member of the one instance. *)
Abbreviation t := (gmap string string).

Definition trim (str : string) : string :=
  match Str.find_first_not_of " " str with
  | None => EmptyString
  | Some first =>
      match Str.find_last_not_of " " str with
      | Some last => Str.substr str first (last - first + 1)
      | None => Str.substr_from str first
      end
  end.

Definition getString (this : t) (key defaultValue : string) : string :=
  match this !! key with
  | Some value => value
  | None => defaultValue
  end.

Definition setString (this : t) (key value : string) : t := <[key := value]> this.
Definition setInt (this : t) (key : string) (value : int) : t :=
  <[key := Str.to_string value]> this.
Definition setBool (this : t) (key : string) (value : bool) : t :=
  <[key := if value then "true" else "false"]> this.

(** The body of the loop of [loadFromFile] for one line. *)
Definition load_line (this : t) (line : string) : t :=
  let line := trim line in
  match line with
  | EmptyString => this
  | String c _ =>
      if Ascii.eqb c "#" || Ascii.eqb c ";" then this
      else
        match Str.find "=" line with
        | None => this
        | Some pos =>
            let key := trim (Str.substr line 0 pos) in
            let value := trim (Str.substr_from line (pos + 1)) in
            match key with
            | EmptyString => this
            | _ => <[key := value]> this
            end
        end
  end.

(** What [saveToFile] writes: three lines, then one line for each pair,
    in the order the container gives them. *)
Definition saved (pairs : list (string * string)) : string :=
  ("# Sandbox Simulation Configuration File" ++ String "010"
     ("# Generated automatically" ++ String "010"
        (String "010"
           (foldr (fun pair rest => pair.1 ++ String "=" (pair.2 ++ String "010" rest))
                  EmptyString pairs))))%string.

Section Methods.
Context {F : Type}.
(** The order in which the container of the platform gives its pairs,
    and the files that can be opened for writing. *)
Variable iteration : t -> list (string * string).
Variable can_write : string -> bool.

Definition getInt (this : t) (key : string) (defaultValue : int) : M F int :=
  match this !! key with
  | Some value =>
      match Str.stoi value with
      | Some n => mret n
      | None =>
          to_cerr [Text "Warning: Invalid integer value for key '"; Text key; Text "': ";
                   Text value; Endl];;
          mret defaultValue
      end
  | None => mret defaultValue
  end.

Definition getBool (this : t) (key : string) (defaultValue : bool) : M F bool :=
  match this !! key with
  | Some stored =>
      let value := Str.transform Str.tolower stored in
      if String.eqb value "true" || String.eqb value "1" || String.eqb value "yes"
         || String.eqb value "on" then mret true
      else if String.eqb value "false" || String.eqb value "0" || String.eqb value "no"
              || String.eqb value "off" then mret false
      else
        to_cerr [Text "Warning: Invalid boolean value for key '"; Text key; Text "': ";
                 Text stored; Endl];;
        mret defaultValue
  | None => mret defaultValue
  end.

(** The files are a map from names to contents. *)
Definition loadFromFile (files : gmap string string) (this : t) (filename : string)
    : M F (bool * t) :=
  match files !! filename with
  | None =>
      to_cerr [Text "Failed to open config file: "; Text filename; Endl];;
      mret (false, this)
  | Some content =>
      let this := foldl load_line ∅ (Str.getlines content) in
      to_cout [Text "Loaded "; Int (Z.of_nat (size this));
               Text " configuration entries from "; Text filename; Endl];;
      mret (true, this)
  end.

Definition saveToFile (files : gmap string string) (this : t) (filename : string)
    : M F (bool * gmap string string) :=
  if can_write filename then
    to_cout [Text "Saved "; Int (Z.of_nat (size this));
             Text " configuration entries to "; Text filename; Endl];;
    mret (true, <[filename := saved (iteration this)]> files)
  else
    to_cerr [Text "Failed to create config file: "; Text filename; Endl];;
    mret (false, files).
End Methods.
End ConfigManager.

(** ** Specification-side definitions *)

(** The pair of a Deuterium (Z=1, A=2) and a Tritium (Z=1, A=3) nucleus,
    in either order; a nucleus is given by (Z, A). *)
Definition is_DT_pair (n1 n2 : int * int) : Prop :=
  (n1 = (1, 2)%Z /\ n2 = (1, 3)%Z) \/ (n1 = (1, 3)%Z /\ n2 = (1, 2)%Z).

(** The energy of the D-T reaction as the specification words it: the
    mass defect [m(D) + m(T)] - [m(He-4) + m(neutron)], times the
    kilograms of one atomic mass unit, times c^2, times the electronvolts
    of one Joule. *)
Definition DT_energy {F} {SF : Scalar F} : F :=
  ((flit 201410178 (-8) + flit 301604927 (-8) - (flit 400260325 (-8) + flit 1008665 (-6)))
   * NuclearReactor.AMU_TO_KG * NuclearReactor.C_SQUARED * NuclearReactor.J_TO_EV)%fl.

(** The mass defect of the fission, in atomic mass units, as the
    specification words it: m(U-235) - [m(Ba-141) + m(Kr-92) + 3 m(neutron)]. *)
Definition U235_mass_defect {F} {SF : Scalar F} : F :=
  (flit 2350439299 (-7)
   - (flit 140914411 (-6) + flit 91926156 (-6) + of_int 3 * flit 1008665 (-6)))%fl.

(** The semi-empirical mass formula, per nucleon and in eV, for A <> 0. *)
Definition semi_empirical {F} {SF : Scalar F} (std_pow : F -> F -> F) (z a : int) : F :=
  let A := of_int a in
  let Z := of_int z in
  let pairing :=
    if Z.even a && Z.even z then (flit 112 (-1) / fsqrt A)%fl
    else if Z.odd a && Z.odd z then (- flit 112 (-1) / fsqrt A)%fl
    else flit 0 0 in
  let total :=
    (flit 157 (-1) * A
     - flit 178 (-1) * std_pow A (flit 2 0 / flit 3 0)
     - flit 71 (-2) * Z * (Z - of_int 1) / std_pow A (flit 1 0 / flit 3 0)
     - flit 237 (-1) * std_pow (A - of_int 2 * Z) (flit 2 0) / A
     + pairing)%fl in
  let clamped := if (total <? of_int 0)%fl then of_int 0 else total in
  (clamped / A * flit 1 6)%fl.

(** ** Scenes

    Worlds the application builds, for evaluating the methods. *)

Definition empty_world {F} : World F := mk_World ∅ ∅ 1%positive [] [].

(** The world a sequence of calls leaves, from the empty world. *)
Definition world_after {F A} (m : M F A) : World F :=
  match m empty_world with
  | Some (_, w) => w
  | None => empty_world
  end.

(** [demonstrateFission]: an atom of U-235 at (5, 0, 0); its nucleus is
    the first object made. *)
Definition uranium_world : World spec_float :=
  world_after (Atom.ctor 92 235 (mk_vec3 (flit 5 0) (flit 0 0) (flit 0 0))).

(** An atom of Deuterium and an atom of Tritium at the origin; their
    nuclei are at addresses 1 and 4. *)
Definition DT_world : World spec_float :=
  world_after (Atom.ctor 1 2 (glm.splat (flit 0 0));; Atom.ctor 1 3 (glm.splat (flit 0 0))).

(** The hydrogen atom of the application, its electron raised to level 2:
    the nucleus is at address 1, the electron at 2, the atom at 3. *)
Definition excited_hydrogen_world : World spec_float :=
  world_after (Atom.ctor 1 1 (glm.splat (flit 0 0));;
               Electron.setOrbitalLevel (Some 2%positive) 2).

(** The value [calculateOrbitalEnergy] returns, without its message. *)
Definition orbital_energy {F} {SF : Scalar F} (z n : int) : F :=
  if (n <=? 0)%Z then flit 0 0
  else (- OrbitalModel.RYDBERG_CONSTANT_EV * (of_int (int_mul z z) / of_int (int_mul n n)))%fl.

(** The energy of the specification: -13.605693 Z^2 / n^2 eV, a real number. *)
Definition hydrogen_like_energy (z n : Z) : R :=
  (- (13605693 / 1000000) * (IZR z * IZR z) / (IZR n * IZR n))%R.

(** [close x q eps]: the float [x] is finite and within [eps] of the
    rational [q]. *)
Definition close (x : spec_float) (q eps : Q) : Prop :=
  exists v, Binary32.to_Q x = Some v /\ (Qabs (v - q) <= eps)%Q.

(** The world after a jump to a level >= 1: the electron carries the new
    level, the transition is reported on [std::cout], and a current level
    that is not positive has drawn the message of [calculateOrbitalEnergy]. *)
Definition after_jump {F} {SF : Scalar F} (w : World F) (e : ptr) (b : Particle F) (z cur new : int) : World F :=
  mk_World (<[e := mk_Object b (IsElectron new)]> (particles w)) (atoms w) (next w)
    (cout w ++ [Text "Electron jumped from orbital "; Int cur; Text " to "; Int new;
                Text " in atom with Z="; Int z; Text ". ΔE = ";
                Float (orbital_energy z new - orbital_energy z cur)%fl; Text " eV"; Endl])
    (cerr w ++ if (cur <=? 0)%Z
               then [Text "Error: Orbital level must be a positive integer."; Endl]
               else []).

(** The hydrogen atom at the origin (nucleus 1, electron 2, atom 3)
    after its electron has moved to (1, 0, 0). *)
Definition polarised_hydrogen_world : World spec_float :=
  world_after (Atom.ctor 1 1 (glm.splat (flit 0 0));;
               Particle.setPosition (Some 2%positive) (mk_vec3 (flit 1 0) (flit 0 0) (flit 0 0))).

(** The hydrogen atom at the origin after [addElectron] with the electron
    it already holds: the electron is listed twice. *)
Definition twice_listed_world : World spec_float :=
  world_after (Atom.ctor 1 1 (glm.splat (flit 0 0));;
               Atom.addElectron (Some 3%positive) (Some 2%positive)).

(** [atom_at w a n es]: the atom at [a] has the nucleus at address [n]
    and the electrons at the addresses [es], in this order. *)
Definition atom_at {F} (w : World F) (a n : ptr) (es : list ptr) : Prop :=
  (exists x, atoms w !! a = Some x /\ m_nucleus x = Some n /\ m_electrons x = Some <$> es)
  /\ (exists z m, kind_at w n = Some (IsNucleus z m))
  /\ Forall (fun e => exists l, kind_at w e = Some (IsElectron l)) es.

(** The position of the particle at an address. *)
Definition position_at {F} (w : World F) (a : ptr) : option (vec3 F) :=
  (fun o => m_position (base o)) <$> particles w !! a.

(** The object moved by [delta]. *)
Definition shifted {F} {SF : Scalar F} (delta : vec3 F) (o : Object F) : Object F :=
  Particle.with_position o (glm.add (m_position (base o)) delta).

(** The store after the loop of [Atom::setPosition] over the electrons. *)
Definition shift_all {F} {SF : Scalar F} (delta : vec3 F) (es : list ptr)
    (m : gmap ptr (Object F)) : gmap ptr (Object F) :=
  foldl (fun m e => alter (shifted delta) e m) m es.

(** Two floats that are the same number: equal, or the zeros -0 and +0. *)
Definition same_number (x y : spec_float) : Prop :=
  y = x \/ (x = S754_zero true /\ y = S754_zero false).

Definition same_point (u v : vec3 spec_float) : Prop :=
  same_number (vx u) (vx v) /\ same_number (vy u) (vy v) /\ same_number (vz u) (vz v).

Definition finite_point (v : vec3 spec_float) : Prop :=
  Binary32.is_finite (vx v) = true /\ Binary32.is_finite (vy v) = true
  /\ Binary32.is_finite (vz v) = true.

(** The world after [Atom::setPosition(position)] on the atom with the
    nucleus [o_n] at [n] and the electrons at [es]. *)
Definition after_move {F} {SF : Scalar F} (w : World F) (n : ptr) (es : list ptr)
    (o_n : Object F) (position : vec3 F) : World F :=
  let delta := glm.sub position (m_position (base o_n)) in
  mk_World (shift_all delta es (<[n := Particle.with_position o_n position]> (particles w)))
           (atoms w) (next w) (cout w) (cerr w).

(** ** The Coulomb solver on the values of the particles *)

Section CoulombSpec.
Context {F : Type} {SF : Scalar F}.

(** The particles behind a list of addresses. *)
Definition particles_at (w : World F) (ptrs : list ptr) : option (list (Particle F)) :=
  mapM (fun a => base <$> particles w !! a) ptrs.

(** The force of the pair (i, j) on particle i: none when the distance
    is below 1e-9, else the magnitude k_e q_i q_j / d^2 times the unit
    vector of pos(i) - pos(j). *)
Definition pair_force (p_i p_j : Particle F) : option (vec3 F) :=
  let r_vec := glm.sub (m_position p_i) (m_position p_j) in
  let distance := glm.length r_vec in
  if (distance <? flit 1 (-9))%fl then None
  else
    Some (glm.scale
            (CoulombSolver.COULOMB_CONSTANT * (m_charge p_i * m_charge p_j)
             / (distance * distance))%fl
            (glm.normalize r_vec)).

Definition force_between (ps : list (Particle F)) (i j : nat) : option (vec3 F) :=
  match ps !! i, ps !! j with
  | Some p_i, Some p_j => pair_force p_i p_j
  | _, _ => None
  end.

(** One pair: the force is added to the accumulator of i and subtracted
    from the accumulator of j; a skipped pair touches nothing. *)
Definition pair_step (ps : list (Particle F)) (i j : nat) (forces : list (vec3 F))
    : list (vec3 F) :=
  match force_between ps i j with
  | Some f => alter (fun a => glm.sub a f) j (alter (fun a => glm.add a f) i forces)
  | None => forces
  end.

(** The two loops. *)
Definition solve (ps : list (Particle F)) : list (vec3 F) :=
  let size := List.length ps in
  foldl (fun forces i =>
           foldl (fun forces j => pair_step ps i j forces) forces (seq (S i) (size - S i)))
        (replicate size (glm.splat (flit 0 0))) (seq 0 size).

Definition plus_force (acc : vec3 F) (f : option (vec3 F)) : vec3 F :=
  match f with Some f => glm.add acc f | None => acc end.

Definition minus_force (acc : vec3 F) (f : option (vec3 F)) : vec3 F :=
  match f with Some f => glm.sub acc f | None => acc end.

(** The accumulator of particle k when the loops are over: from the zero
    vector, the forces of the pairs (i, k), i < k, subtracted in the
    order of i, then the forces of the pairs (k, j), k < j, added in the
    order of j. *)
Definition net_force (ps : list (Particle F)) (k : nat) : vec3 F :=
  foldl (fun acc j => plus_force acc (force_between ps k j))
        (foldl (fun acc i => minus_force acc (force_between ps i k))
               (glm.splat (flit 0 0)) (seq 0 k))
        (seq (S k) (List.length ps - S k)).

(** The sum of a list of vectors, from the left. *)
Definition total (forces : list (vec3 F)) : vec3 F :=
  foldl glm.add (glm.splat (flit 0 0)) forces.

End CoulombSpec.

(** A proton at rest at (x, 0, 0) metres. *)
Definition proton_at {F} {SF : Scalar F} (x : Z) : Object F :=
  mk_Object (mk_Particle PROTON (mk_vec3 (flit x 0) (flit 0 0) (flit 0 0))
               (glm.splat (flit 0 0)) (flit 1672 (-30)) (flit 1602 (-22)))
            IsParticle.

(** Three protons on a line, at 0 m, 1 m and 5 m, at the addresses 1, 2, 3. *)
Definition three_protons_world {F} {SF : Scalar F} : World F :=
  world_after (make_shared (proton_at 0);; make_shared (proton_at 1);;
               make_shared (proton_at 5)).

Definition three_protons {F} {SF : Scalar F} : list (Particle F) :=
  [base (proton_at 0); base (proton_at 1); base (proton_at 5)].


(** ** Allocation *)

(** Every live address is below the next one [std::make_shared] hands out. *)
Definition fresh {F} (w : World F) : Prop :=
  forall a, is_Some (particles w !! a) \/ is_Some (atoms w !! a) -> (a < next w)%positive.

(** The [n] addresses handed out from [start] on. *)
Fixpoint addresses (start : positive) (n : nat) : list ptr :=
  match n with
  | O => []
  | S n' => start :: addresses (Pos.succ start) n'
  end.

(** The next address after [n] allocations. *)
Definition advance (start : positive) (n : nat) : positive := Nat.iter n Pos.succ start.

(** The store after [n] electrons have been made at [position]. *)
Fixpoint with_electrons {F} {SF : Scalar F} (position : vec3 F) (start : positive) (n : nat)
    (m : gmap ptr (Object F)) : gmap ptr (Object F) :=
  match n with
  | O => m
  | S n' =>
      with_electrons position (Pos.succ start) n'
        (<[start := Electron.ctor position (glm.splat (flit 0 0)) 1]> m)
  end.

(** What [setPosition] leaves of an object: everything but its position. *)
Definition besides_position {F} (o : Object F)
    : Derived * ParticleType * vec3 F * F * F :=
  (derived o, m_type (base o), m_velocity (base o), m_mass (base o), m_charge (base o)).

(** A hydrogen atom at the origin, alone in the world, in any arithmetic:
    nucleus 1, electron 2, atom 3. *)
Definition hydrogen_world {F} {SF : Scalar F} : World F :=
  world_after (Atom.ctor 1 1 (glm.splat (flit 0 0))).

(** ** The step of the engine on the values *)

(** The addresses [PhysicsEngine::update] gathers from the atom at [a]:
    the nucleus, then the electrons in the order of the list. *)
Definition atom_particles {F} (w : World F) (a : ptr) : option (list ptr) :=
  match atoms w !! a with
  | Some x =>
      match m_nucleus x, mapM (fun e : shared_ptr => e) (m_electrons x) with
      | Some n, Some es => Some (n :: es)
      | _, _ => None
      end
  | None => None
  end.

Definition gathered {F} (w : World F) (atom_ptrs : list ptr) : option (list ptr) :=
  @List.concat ptr <$> mapM (atom_particles w) atom_ptrs.

(** The objects behind a list of addresses. *)
Definition objects_at {F} (w : World F) (ptrs : list ptr) : option (list (Object F)) :=
  mapM (fun a => particles w !! a) ptrs.

(** Step 3 of [update] on the store: the particles are advanced one
    after the other, each with the force of its index. *)
Definition step_particles {F} {SF : Scalar F} (deltaTime : F) (ptrs : list ptr)
    (forces : list (vec3 F)) (m : gmap ptr (Object F)) : gmap ptr (Object F) :=
  foldl (fun m pf => alter (fun o => Particle.updated o pf.2 deltaTime) pf.1 m) m
        (zip ptrs forces).

(** The momentum m v of a particle. *)
Definition momentum {F} {SF : Scalar F} (o : Object F) : vec3 F :=
  glm.scale (m_mass (base o)) (m_velocity (base o)).


(** A hydrogen atom at the origin and a helium atom one metre along x. *)
Definition hydrogen_helium_world {F} {SF : Scalar F} : World F :=
  world_after (Atom.ctor 1 1 (glm.splat (flit 0 0));;
               Atom.ctor 2 4 (mk_vec3 (flit 1 0) (flit 0 0) (flit 0 0))).


(** Two atoms that are alone in the world: oxygen-16 (atom 10) and
    nitrogen-14 (atom 19). *)
Definition oxygen_nitrogen_world {F} {SF : Scalar F} : World F :=
  world_after (Atom.ctor 8 16 (glm.splat (flit 0 0));;
               Atom.ctor 7 14 (mk_vec3 (flit 1 0) (flit 0 0) (flit 0 0))).
(** The sign bit of a float that is not NaN. *)
Definition sign_bit (x : spec_float) : bool :=
  match x with
  | S754_zero s | S754_infinity s | S754_finite s _ _ => s
  | S754_nan => false
  end.


(** The particle moved by [t]. *)
Definition translated {F} {SF : Scalar F} (t : vec3 F) (p : Particle F) : Particle F :=
  mk_Particle (m_type p) (glm.add (m_position p) t) (m_velocity p) (m_mass p) (m_charge p).

(** The three protons of [three_protons_world], each moved by [t]. *)
Definition translated_protons_world {F} {SF : Scalar F} (t : vec3 F) : World F :=
  world_after (make_shared (mk_Object (translated t (base (proton_at 0))) IsParticle);;
               make_shared (mk_Object (translated t (base (proton_at 1))) IsParticle);;
               make_shared (mk_Object (translated t (base (proton_at 5))) IsParticle)).

(** A neutron at rest at (x, 0, 0) metres. *)
Definition neutron_at {F} {SF : Scalar F} (x : Z) : Object F :=
  mk_Object (mk_Particle NEUTRON (mk_vec3 (flit x 0) (flit 0 0) (flit 0 0))
               (glm.splat (flit 0 0)) (flit 1674 (-30)) (flit 0 0))
            IsParticle.

(** A neutron between two protons, at the addresses 1, 2, 3. *)
Definition proton_neutron_proton_world {F} {SF : Scalar F} : World F :=
  world_after (make_shared (proton_at 0);; make_shared (neutron_at 1);;
               make_shared (proton_at 5)).
(** ** Strings without blanks at their ends *)

Fixpoint spaces (n : nat) : string :=
  match n with
  | O => EmptyString
  | S n' => String " " (spaces n')
  end.

Definition first_char (s : string) : option ascii :=
  match s with
  | String c _ => Some c
  | EmptyString => None
  end.

Fixpoint last_char (s : string) : option ascii :=
  match s with
  | EmptyString => None
  | String c EmptyString => Some c
  | String _ s' => last_char s'
  end.

(** The string without its leading blanks, and without its trailing
    blanks. *)
Fixpoint strip_left (s : string) : string :=
  match s with
  | String c s' => if Ascii.eqb c " " then strip_left s' else s
  | EmptyString => s
  end.

Fixpoint strip_right (s : string) : string :=
  match s with
  | EmptyString => EmptyString
  | String c s' =>
      match strip_right s' with
      | EmptyString => if Ascii.eqb c " " then EmptyString else String c EmptyString
      | r => String c r
      end
  end.

(** ** Configurations that a file can hold *)

Fixpoint has_char (c : ascii) (s : string) : bool :=
  match s with
  | EmptyString => false
  | String a s' => Ascii.eqb a c || has_char c s'
  end.

(** The string starts or ends with a blank. *)
Definition blank_end (s : string) : bool :=
  match first_char s with Some c => Ascii.eqb c " " | None => false end
  || match last_char s with Some c => Ascii.eqb c " " | None => false end.

(** A value on one line, without blanks at its ends; a key that moreover
    is not empty, holds no [=] and does not start a comment. *)
Definition plain_value (v : string) : bool :=
  negb (blank_end v) && negb (has_char "010" v).

Definition plain_key (k : string) : bool :=
  match k with
  | EmptyString => false
  | String c _ => negb (Ascii.eqb c "#") && negb (Ascii.eqb c ";")
  end
  && negb (blank_end k) && negb (has_char "=" k) && negb (has_char "010" k).

Definition storable (config : gmap string string) : Prop :=
  map_Forall (fun k v => plain_key k && plain_value v = true) config.

(** The line [saveToFile] writes for a pair. *)
Definition entry_line (pair : string * string) : string :=
  (pair.1 ++ String "=" pair.2)%string.

(** Two settings of the application. *)
Definition window_config : gmap string string :=
  <["window_width"%string := "1200"%string]>
    (<["window_title"%string := "Atomica simulation"%string]> ∅).
(** * Theorems *)

(** ** The decimal literals of the sources, in binary32 *)

(** Each literal is rounded to a float within half a unit in the last
    place of its decimal value. *)
Lemma literals_nearest :
  forallb (fun '(m, e) => Binary32.near (Binary32.decimal m e) m e)
    [ (1660539, -33); (898755179, 8); (6242, 15); (2350439299, -7); (140914411, -6);
      (91926156, -6); (1008665, -6); (201410178, -8); (301604927, -8); (400260325, -8);
      (13605693, -6); (89875, 5); (1, -9); (1672, -30); (1674, -30); (1602, -22);
      (9109, -34); (157, -1); (178, -1); (71, -2); (237, -1); (112, -1); (1, 6) ]%Z = true.
Proof. vm_compute. reflexivity. Qed.

(** The operations on known values: sqrt(4) = 2, sqrt(2) = 0x3FB504F3,
    1/3 = 0x3EAAAAAB, 0.1f = 0x3DCCCCCD, and 2^24 + 1 rounds to 2^24. *)
Lemma binary32_examples :
  fsqrt (flit 4 0) = flit (F := spec_float) 2 0
  /\ fsqrt (flit 2 0) = S754_finite false 11863283 (-23)
  /\ (flit 1 0 / flit 3 0)%fl = S754_finite false 11184811 (-25)
  /\ flit 1 (-1) = S754_finite false 13421773 (-27)
  /\ of_int 16777217 = of_int (F := spec_float) 16777216.
Proof. repeat split; vm_compute; reflexivity. Qed.

(** ** Running the monad *)

Section Run.
Context {F : Type}.

Lemma bind_Some {A B} (m : M F A) (f : A -> M F B) w a w' :
  m w = Some (a, w') -> (m ≫= f) w = f a w'.
Proof. intros E. unfold mbind, M_bind. now rewrite E. Qed.

Lemma load_Some (w : World F) p o :
  particles w !! p = Some o -> load (Some p) w = Some (o, w).
Proof. intros E. unfold load. now rewrite E. Qed.

Lemma kind_at_Some (w : World F) p k :
  kind_at w p = Some k <-> exists b, particles w !! p = Some (mk_Object b k).
Proof.
  unfold kind_at. split.
  - destruct (particles w !! p) as [[b k']|]; [|discriminate].
    intros [= <-]. now exists b.
  - intros [b ->]. reflexivity.
Qed.

Lemma getAtomicNumber_Some (w : World F) p z a :
  kind_at w p = Some (IsNucleus z a) ->
  Nucleus.getAtomicNumber (Some p) w = Some (z, w).
Proof.
  intros [b E]%kind_at_Some. unfold Nucleus.getAtomicNumber.
  now rewrite (bind_Some _ _ _ _ _ (load_Some _ _ _ E)).
Qed.

Lemma getMassNumber_Some (w : World F) p z a :
  kind_at w p = Some (IsNucleus z a) ->
  Nucleus.getMassNumber (Some p) w = Some (a, w).
Proof.
  intros [b E]%kind_at_Some. unfold Nucleus.getMassNumber.
  now rewrite (bind_Some _ _ _ _ _ (load_Some _ _ _ E)).
Qed.
End Run.

(** One step of a method whose outcome is known. *)
Ltac step H := rewrite (bind_Some _ _ _ _ _ H).

(** ** Nuclear reactions *)

Section Reactor.
Context {F : Type} {SF : Scalar F}.

Lemma simulateFission_unsupported (w : World F) p z a :
  kind_at w p = Some (IsNucleus z a) ->
  ~ (z = 92 /\ a = 235)%Z ->
  NuclearReactor.simulateFission (Some p) w =
    Some (flit 0 0,
          with_cerr w [Text "Fission currently only supported for U-235 (simplified model).";
                       Endl]).
Proof.
  intros E Hn. unfold NuclearReactor.simulateFission.
  step (getAtomicNumber_Some _ _ _ _ E).
  step (getMassNumber_Some _ _ _ _ E).
  destruct (Z.eqb_spec z 92) as [->|Hz]; [destruct (Z.eqb_spec a 235) as [->|Ha]|].
  - exfalso. now apply Hn.
  - reflexivity.
  - reflexivity.
Qed.

(** The guard of [simulateFusion] holds exactly on the D-T pairs. *)
Lemma fusion_guard (z1 a1 z2 a2 : Z) :
  (((z1 =? 1) && (a1 =? 2) || (z2 =? 1) && (a2 =? 2))
   && ((z1 =? 1) && (a1 =? 3) || (z2 =? 1) && (a2 =? 3)))%Z = true
  <-> is_DT_pair (z1, a1) (z2, a2).
Proof.
  unfold is_DT_pair. split.
  - intros H.
    destruct (Z.eqb_spec z1 1), (Z.eqb_spec a1 2), (Z.eqb_spec z2 1), (Z.eqb_spec a2 2),
      (Z.eqb_spec a1 3), (Z.eqb_spec a2 3); simpl in H; try discriminate; subst;
      try lia; auto.
  - intros [[E1 E2]|[E1 E2]]; inversion E1; inversion E2; reflexivity.
Qed.

Lemma simulateFusion_unsupported (w : World F) p1 p2 z1 a1 z2 a2 :
  kind_at w p1 = Some (IsNucleus z1 a1) ->
  kind_at w p2 = Some (IsNucleus z2 a2) ->
  ~ is_DT_pair (z1, a1) (z2, a2) ->
  NuclearReactor.simulateFusion (Some p1) (Some p2) w =
    Some (flit 0 0,
          with_cerr w
            [Text "Fusion currently only supported for Deuterium-Tritium (simplified model).";
             Endl]).
Proof.
  intros E1 E2 Hn. unfold NuclearReactor.simulateFusion.
  step (getAtomicNumber_Some _ _ _ _ E1).
  step (getMassNumber_Some _ _ _ _ E1).
  step (getAtomicNumber_Some _ _ _ _ E2).
  step (getMassNumber_Some _ _ _ _ E2).
  cbv zeta.
  destruct (_ && _) eqn:G.
  - exfalso. apply Hn. now apply fusion_guard.
  - reflexivity.
Qed.

(** On a D-T pair the guard passes: what is left is the branch on the
    sign of the mass defect. *)
Lemma simulateFusion_supported (w : World F) p1 p2 z1 a1 z2 a2 :
  kind_at w p1 = Some (IsNucleus z1 a1) ->
  kind_at w p2 = Some (IsNucleus z2 a2) ->
  is_DT_pair (z1, a1) (z2, a2) ->
  let defect :=
    (flit 201410178 (-8) + flit 301604927 (-8)
     - (flit 400260325 (-8) + flit 1008665 (-6)))%fl in
  (defect <=? of_int 0)%fl = false ->
  NuclearReactor.simulateFusion (Some p1) (Some p2) w =
    Some (DT_energy,
          with_cout w [Text "Fusion of D-T: Mass Defect = "; Float defect;
                       Text " AMU, Energy Released = "; Float DT_energy; Text " eV"; Endl]).
Proof.
  intros E1 E2 Hp defect Hd. unfold NuclearReactor.simulateFusion.
  step (getAtomicNumber_Some _ _ _ _ E1).
  step (getMassNumber_Some _ _ _ _ E1).
  step (getAtomicNumber_Some _ _ _ _ E2).
  step (getMassNumber_Some _ _ _ _ E2).
  cbv zeta. apply fusion_guard in Hp. rewrite Hp. cbn [negb].
  fold defect. rewrite Hd. reflexivity.
Qed.

(** Past the guard on (92, 235), [simulateFission] branches on the sign
    of the mass defect. *)
Lemma simulateFission_nonpositive (w : World F) p :
  kind_at w p = Some (IsNucleus 92 235) ->
  (U235_mass_defect <=? of_int 0)%fl = true ->
  NuclearReactor.simulateFission (Some p) w =
    Some (flit 0 0,
          with_cerr w
            [Text "Warning: Fission resulted in non-positive mass defect. No energy released.";
             Endl]).
Proof.
  intros E Hd. unfold NuclearReactor.simulateFission.
  step (getAtomicNumber_Some _ _ _ _ E).
  step (getMassNumber_Some _ _ _ _ E).
  cbn [Z.eqb Pos.eqb negb orb]. cbv zeta.
  unfold U235_mass_defect in Hd. rewrite Hd. reflexivity.
Qed.
End Reactor.

(** Puts the literals of a goal over [R] in decimal form. *)
Ltac exact_literals :=
  cbn [flit of_int fadd fsub fmul fdiv fneg exact];
  unfold Exact.decimal; cbn [Z.leb Z.compare];
  repeat match goal with
  | |- context [IZR (?a ^ ?b)%Z] =>
      let v := eval vm_compute in (a ^ b)%Z in change (a ^ b)%Z with v
  | |- context [IZR (?a * ?b)%Z] =>
      let v := eval vm_compute in (a * b)%Z in change (a * b)%Z with v
  end.

(** The mass defect the fission code computes is negative: the products
    Ba-141, Kr-92 and three neutrons count 236 nucleons, one more than
    U-235, and weigh 235.866562 u against 235.0439299 u.  This holds in
    binary32 and in exact arithmetic alike. *)
Lemma U235_mass_defect_binary32 :
  Binary32.to_Q U235_mass_defect = Some (-13801728 # 16777216)%Q.
Proof. vm_compute. reflexivity. Qed.

Lemma U235_mass_defect_exact : (U235_mass_defect (F := R) < 0)%R.
Proof. unfold U235_mass_defect. exact_literals. lra. Qed.

(** C1.  [simulateFission] on a nucleus with Z = 92 and A = 235 does not
    return a positive energy of the order of 10^8 eV: the mass defect
    it computes is not positive, so it logs the warning and returns 0. *)
Theorem simulateFission_U235_returns_zero (w : World spec_float) p :
  kind_at w p = Some (IsNucleus 92 235) ->
  NuclearReactor.simulateFission (Some p) w =
    Some (S754_zero false,
          with_cerr w
            [Text "Warning: Fission resulted in non-positive mass defect. No energy released.";
             Endl]).
Proof.
  intros E. rewrite (simulateFission_nonpositive (F := spec_float) w p E).
  - reflexivity.
  - vm_compute. reflexivity.
Qed.

Lemma simulateFission_U235_returns_zero_witness :
  NuclearReactor.simulateFission (Some 1%positive) uranium_world =
    Some (S754_zero false,
          with_cerr uranium_world
            [Text "Warning: Fission resulted in non-positive mass defect. No energy released.";
             Endl]).
Proof. apply (simulateFission_U235_returns_zero uranium_world 1%positive). vm_compute. reflexivity. Defined.

(** With the guard on every other nucleus, no call of [simulateFission]
    returns anything but 0. *)
Lemma simulateFission_always_zero (w : World spec_float) p z a :
  kind_at w p = Some (IsNucleus z a) ->
  fst <$> NuclearReactor.simulateFission (Some p) w = Some (S754_zero false).
Proof.
  intros K. destruct (decide (z = 92 /\ a = 235)%Z) as [[-> ->]|Hn].
  - rewrite (simulateFission_nonpositive (F := spec_float) w p K); [reflexivity|].
    vm_compute. reflexivity.
  - now rewrite (simulateFission_unsupported w p z a K Hn).
Qed.

(** C2.  For every nucleus other than (Z = 92, A = 235) [simulateFission]
    returns 0.0, and for every pair of nuclei that is not a Deuterium and
    a Tritium, in either order, [simulateFusion] returns 0.0; neither
    call fails, and the world after it is the world before it with the
    message written to [std::cerr]. *)
Theorem unsupported_reaction_returns_zero {F : Type} {SF : Scalar F} (w : World F) :
  (forall p z a,
     kind_at w p = Some (IsNucleus z a) ->
     ~ (z = 92 /\ a = 235)%Z ->
     NuclearReactor.simulateFission (Some p) w =
       Some (flit 0 0,
             with_cerr w [Text "Fission currently only supported for U-235 (simplified model).";
                          Endl]))
  /\
  (forall p1 p2 z1 a1 z2 a2,
     kind_at w p1 = Some (IsNucleus z1 a1) ->
     kind_at w p2 = Some (IsNucleus z2 a2) ->
     ~ is_DT_pair (z1, a1) (z2, a2) ->
     NuclearReactor.simulateFusion (Some p1) (Some p2) w =
       Some (flit 0 0,
             with_cerr w
               [Text "Fusion currently only supported for Deuterium-Tritium (simplified model).";
                Endl])).
Proof.
  split.
  - intros. now apply simulateFission_unsupported with (z := z) (a := a).
  - intros. now apply simulateFusion_unsupported with (z1 := z1) (a1 := a1) (z2 := z2) (a2 := a2).
Qed.

(** The literal 0.0f is the positive zero of binary32. *)
Lemma zero_literal_binary32 : flit (F := spec_float) 0 0 = S754_zero false.
Proof. reflexivity. Qed.

(** The energy of the D-T fusion: 17 590 998 eV in binary32, and between
    10^7 and 10^8 eV in exact arithmetic too. *)
Lemma DT_energy_binary32 : DT_energy = S754_finite false 8795499 1.
Proof. vm_compute. reflexivity. Qed.

Lemma DT_energy_exact : (10 ^ 7 < DT_energy (F := R) < 10 ^ 8)%R.
Proof.
  unfold DT_energy, NuclearReactor.AMU_TO_KG, NuclearReactor.C_SQUARED, NuclearReactor.J_TO_EV.
  exact_literals. lra.
Qed.

(** C3.  [simulateFusion] on a Deuterium and a Tritium nucleus, in either
    argument order, returns the mass defect [m(D) + m(T)] - [m(He-4) +
    m(neutron)] converted by E = m c^2 to eV: 17 590 998 eV, a positive
    energy of the order of 10^7. *)
Theorem simulateFusion_DT (w : World spec_float) p1 p2 z1 a1 z2 a2 :
  kind_at w p1 = Some (IsNucleus z1 a1) ->
  kind_at w p2 = Some (IsNucleus z2 a2) ->
  is_DT_pair (z1, a1) (z2, a2) ->
  (exists w', NuclearReactor.simulateFusion (Some p1) (Some p2) w = Some (DT_energy, w')
              /\ particles w' = particles w /\ atoms w' = atoms w)
  /\ Binary32.to_Q DT_energy = Some (17590998 # 1)%Q
  /\ (10 ^ 7 <= 17590998 # 1 < 10 ^ 8)%Q.
Proof.
  intros E1 E2 Hp. split; [|split].
  - eexists. split; [|split].
    + apply (simulateFusion_supported w p1 p2 z1 a1 z2 a2 E1 E2 Hp).
      vm_compute. reflexivity.
    + reflexivity.
    + reflexivity.
  - vm_compute. reflexivity.
  - split; [vm_compute; discriminate | vm_compute; reflexivity].
Qed.

Lemma unsupported_reaction_returns_zero_witness :
  NuclearReactor.simulateFission (Some 1%positive) DT_world =
    Some (S754_zero false,
          with_cerr DT_world
            [Text "Fission currently only supported for U-235 (simplified model)."; Endl])
  /\ NuclearReactor.simulateFusion (Some 1%positive) (Some 1%positive) DT_world =
    Some (S754_zero false,
          with_cerr DT_world
            [Text "Fusion currently only supported for Deuterium-Tritium (simplified model).";
             Endl]).
Proof.
  destruct (unsupported_reaction_returns_zero DT_world) as [Hfission Hfusion]. split.
  - apply (Hfission 1%positive 1%Z 2%Z); [vm_compute; reflexivity | lia].
  - apply (Hfusion 1%positive 1%positive 1%Z 2%Z 1%Z 2%Z);
      [vm_compute; reflexivity | vm_compute; reflexivity |].
    intros [[_ [=]]|[[=] _]].
Defined.

Lemma simulateFusion_DT_witness :
  (exists w', NuclearReactor.simulateFusion (Some 4%positive) (Some 1%positive) DT_world
              = Some (DT_energy, w')
              /\ particles w' = particles DT_world /\ atoms w' = atoms DT_world)
  /\ Binary32.to_Q DT_energy = Some (17590998 # 1)%Q
  /\ (10 ^ 7 <= 17590998 # 1 < 10 ^ 8)%Q.
Proof.
  apply (simulateFusion_DT DT_world 4%positive 1%positive 1%Z 3%Z 1%Z 2%Z);
    [vm_compute; reflexivity | vm_compute; reflexivity |].
  right. split; reflexivity.
Defined.

(** ** Binding energy *)

Lemma rem2_even (a : Z) : (int_rem a 2 =? 0)%Z = Z.even a.
Proof. unfold int_rem. symmetry. apply Zquot.Zeven_rem. Qed.

Lemma rem2_odd (a : Z) : negb (int_rem a 2 =? 0)%Z = Z.odd a.
Proof. unfold int_rem. symmetry. apply Zquot.Zodd_rem. Qed.

(** C10.  [calculateBindingEnergyPerNucleon] with mass number A = 0
    returns 0 for every atomic number, by the guard that precedes the
    formula; for every A <> 0 it returns the value of the semi-empirical
    formula. *)
Theorem calculateBindingEnergyPerNucleon_guard {F : Type} {SF : Scalar F}
    (std_pow : F -> F -> F) :
  (forall z, NuclearReactor.calculateBindingEnergyPerNucleon std_pow z 0 = flit 0 0)
  /\ (forall z a, a <> 0%Z ->
        NuclearReactor.calculateBindingEnergyPerNucleon std_pow z a
        = semi_empirical std_pow z a).
Proof.
  split.
  - reflexivity.
  - intros z a Ha. unfold NuclearReactor.calculateBindingEnergyPerNucleon, semi_empirical.
    destruct (Z.eqb_spec a 0) as [->|_]; [contradiction|].
    cbv zeta. now rewrite !rem2_odd, !rem2_even.
Qed.

Lemma calculateBindingEnergyPerNucleon_guard_witness :
  NuclearReactor.calculateBindingEnergyPerNucleon (F := spec_float) (fun x _ => x) 26 0
    = S754_zero false
  /\ NuclearReactor.calculateBindingEnergyPerNucleon (F := spec_float) (fun x _ => x) 26 56
    = semi_empirical (fun x _ => x) 26 56.
Proof.
  destruct (calculateBindingEnergyPerNucleon_guard (F := spec_float) (fun x _ => x)) as [H0 H1].
  split.
  - apply (H0 26%Z).
  - apply (H1 26%Z 56%Z). lia.
Defined.

(** ** Orbital energies *)

Lemma wrap_int_id (z : Z) : in_int z -> wrap_int z = z.
Proof.
  unfold in_int, INT_MIN, INT_MAX, wrap_int. intros Hz.
  rewrite Z.mod_small by lia. lia.
Qed.

Lemma int_mul_square (z : Z) : (-46340 <= z <= 46340)%Z -> int_mul z z = (z * z)%Z.
Proof.
  intros Hz. apply wrap_int_id. unfold in_int, INT_MIN, INT_MAX. nia.
Qed.

Section Orbital.
Context {F : Type} {SF : Scalar F}.

Lemma calculateOrbitalEnergy_value (z n : int) (w : World F) :
  OrbitalModel.calculateOrbitalEnergy z n w =
    Some (orbital_energy z n,
          if (n <=? 0)%Z
          then with_cerr w [Text "Error: Orbital level must be a positive integer."; Endl]
          else w).
Proof.
  unfold OrbitalModel.calculateOrbitalEnergy, orbital_energy.
  destruct (n <=? 0)%Z; reflexivity.
Qed.

Lemma calculateOrbitalEnergy_nonpositive (z n : int) (w : World F) :
  (n <= 0)%Z ->
  OrbitalModel.calculateOrbitalEnergy z n w =
    Some (flit 0 0, with_cerr w [Text "Error: Orbital level must be a positive integer."; Endl]).
Proof.
  intros Hn. rewrite calculateOrbitalEnergy_value. unfold orbital_energy.
  now destruct (Z.leb_spec n 0); [|lia].
Qed.

Lemma calculateOrbitalEnergy_positive (z n : int) (w : World F) :
  (1 <= n)%Z ->
  OrbitalModel.calculateOrbitalEnergy z n w =
    Some ((- OrbitalModel.RYDBERG_CONSTANT_EV
           * (of_int (int_mul z z) / of_int (int_mul n n)))%fl, w).
Proof.
  intros Hn. rewrite calculateOrbitalEnergy_value. unfold orbital_energy.
  now destruct (Z.leb_spec n 0); [lia|].
Qed.
End Orbital.

(** Where neither square overflows [int], the function computes the
    energy of the specification exactly in exact arithmetic. *)
Lemma orbital_energy_exact (z n : Z) :
  (-46340 <= z <= 46340)%Z -> (1 <= n <= 46340)%Z ->
  orbital_energy (F := R) z n = hydrogen_like_energy z n.
Proof.
  intros Hz Hn. unfold orbital_energy, hydrogen_like_energy.
  destruct (Z.leb_spec n 0); [lia|].
  rewrite !int_mul_square by lia. unfold OrbitalModel.RYDBERG_CONSTANT_EV.
  cbn [of_int exact]. rewrite !mult_IZR. exact_literals.
  assert (IZR n <> 0%R) by (apply not_0_IZR; lia).
  field. assumption.
Qed.

(** The values of the specification's examples, in binary32:
    -13.605693 eV for Z = 1, n = 1 and -3.4014 eV for Z = 1, n = 2. *)
Lemma orbital_energy_ground : close (orbital_energy 1 1) (-13605693 # 1000000) (1 # 1000000).
Proof. eexists. split; [vm_compute; reflexivity | vm_compute; discriminate]. Qed.

Lemma orbital_energy_second : close (orbital_energy 1 2) (-34014 # 10000) (1 # 10000).
Proof. eexists. split; [vm_compute; reflexivity | vm_compute; discriminate]. Qed.

(** C6.  [calculateOrbitalEnergy(Z, n)] is not -13.605693 Z^2 / n^2 for
    every n >= 1: the square of the level is taken in [int], and for
    n = 65536 it is 2^32, which overflows to 0; the quotient is then a
    division by zero and the function returns minus infinity, where the
    energy is about -3.2e-9 eV. *)
Theorem calculateOrbitalEnergy_overflow (w : World spec_float) :
  OrbitalModel.calculateOrbitalEnergy 1 65536 w = Some (S754_infinity true, w)
  /\ int_mul 65536 65536 = 0%Z
  /\ (- (1 / 100000000) < hydrogen_like_energy 1 65536 < 0)%R.
Proof.
  split; [|split].
  - rewrite calculateOrbitalEnergy_positive by lia. reflexivity.
  - reflexivity.
  - unfold hydrogen_like_energy. lra.
Qed.

(** The first level whose square overflows: 46341^2 wraps to a negative
    [int], and the energy returned for hydrogen is positive. *)
Lemma orbital_energy_46341 :
  int_mul 46341 46341 = (-2147479015)%Z
  /\ SFltb (S754_zero false) (orbital_energy 1 46341) = true.
Proof. split; vm_compute; reflexivity. Qed.

(** ** Electron jumps *)

Section Jump.
Context {F : Type} {SF : Scalar F}.

Lemma getOrbitalLevel_Some (w : World F) e n :
  kind_at w e = Some (IsElectron n) ->
  Electron.getOrbitalLevel (Some e) w = Some (n, w).
Proof.
  intros [b E]%kind_at_Some. unfold Electron.getOrbitalLevel.
  now step (load_Some _ _ _ E).
Qed.

Lemma setOrbitalLevel_Some (w : World F) e b n n' :
  particles w !! e = Some (mk_Object b (IsElectron n)) ->
  Electron.setOrbitalLevel (Some e) n' w =
    Some (tt, mk_World (<[e := mk_Object b (IsElectron n')]> (particles w))
                       (atoms w) (next w) (cout w) (cerr w)).
Proof.
  intros E. unfold Electron.setOrbitalLevel.
  now step (load_Some _ _ _ E).
Qed.

Lemma Atom_getAtomicNumber_Some (w : World F) a z :
  m_atomicNumber <$> atoms w !! a = Some z ->
  Atom.getAtomicNumber (Some a) w = Some (z, w).
Proof.
  intros E. unfold Atom.getAtomicNumber, load_atom, mbind, M_bind.
  destruct (atoms w !! a) as [x|]; [|discriminate].
  injection E as <-. reflexivity.
Qed.

Lemma simulateElectronJump_performed (w : World F) e a b z cur new :
  particles w !! e = Some (mk_Object b (IsElectron cur)) ->
  m_atomicNumber <$> atoms w !! a = Some z ->
  (1 <= new)%Z ->
  OrbitalModel.simulateElectronJump (Some e) (Some a) new w =
    Some ((orbital_energy z new - orbital_energy z cur)%fl, after_jump w e b z cur new).
Proof.
  intros E Ha Hn. unfold OrbitalModel.simulateElectronJump.
  assert (K : kind_at w e = Some (IsElectron cur)) by (apply kind_at_Some; eauto).
  assert (Hn' : (new <=? 0)%Z = false) by (apply Z.leb_gt; lia).
  step (getOrbitalLevel_Some _ _ _ K). rewrite Hn'.
  step (Atom_getAtomicNumber_Some _ _ _ Ha).
  step (calculateOrbitalEnergy_value z cur w).
  set (w1 := if (cur <=? 0)%Z then _ else w).
  assert (Ha1 : m_atomicNumber <$> atoms w1 !! a = Some z)
    by (subst w1; destruct (cur <=? 0)%Z; exact Ha).
  assert (E1 : particles w1 !! e = Some (mk_Object b (IsElectron cur)))
    by (subst w1; destruct (cur <=? 0)%Z; exact E).
  step (Atom_getAtomicNumber_Some _ _ _ Ha1).
  step (calculateOrbitalEnergy_value z new w1). rewrite Hn'.
  cbv zeta.
  step (setOrbitalLevel_Some _ _ _ _ new E1).
  erewrite bind_Some by (apply Atom_getAtomicNumber_Some; exact Ha1).
  unfold after_jump. subst w1. destruct (cur <=? 0)%Z; cbn; rewrite ?app_nil_r; reflexivity.
Qed.

Lemma simulateElectronJump_rejected (w : World F) e a cur new :
  kind_at w e = Some (IsElectron cur) ->
  (new <= 0)%Z ->
  OrbitalModel.simulateElectronJump (Some e) (Some a) new w =
    Some (flit 0 0,
          with_cerr w [Text "Error: New orbital level must be a positive integer."; Endl]).
Proof.
  intros K Hn. unfold OrbitalModel.simulateElectronJump.
  step (getOrbitalLevel_Some _ _ _ K).
  now destruct (Z.leb_spec new 0) as [_|?]; [|lia].
Qed.
End Jump.

(** C7.  For every electron, atom and new level >= 1,
    [simulateElectronJump] returns the difference between what
    [calculateOrbitalEnergy] returns for the atom's atomic number at the
    new level and at the electron's level before the call, and leaves the
    electron on the new level, nothing else of the electron, no other
    particle and no atom being changed.  In particular the jump from
    n = 2 to n = 1 in hydrogen returns -10.204 eV and leaves the electron
    on level 1. *)
Theorem simulateElectronJump_jumps :
  (forall (F : Type) (SF : Scalar F) (w : World F) e a z cur new,
     kind_at w e = Some (IsElectron cur) ->
     m_atomicNumber <$> atoms w !! a = Some z ->
     (1 <= new)%Z ->
     exists E_new E_cur w',
       fst <$> OrbitalModel.calculateOrbitalEnergy z new w = Some E_new
       /\ fst <$> OrbitalModel.calculateOrbitalEnergy z cur w = Some E_cur
       /\ OrbitalModel.simulateElectronJump (Some e) (Some a) new w
          = Some ((E_new - E_cur)%fl, w')
       /\ kind_at w' e = Some (IsElectron new)
       /\ base <$> particles w' !! e = base <$> particles w !! e
       /\ (forall q, q <> e -> particles w' !! q = particles w !! q)
       /\ atoms w' = atoms w)
  /\ (exists dE w',
        kind_at excited_hydrogen_world 2%positive = Some (IsElectron 2)
        /\ m_atomicNumber <$> atoms excited_hydrogen_world !! 3%positive = Some 1%Z
        /\ OrbitalModel.simulateElectronJump (Some 2%positive) (Some 3%positive) 1
             excited_hydrogen_world = Some (dE, w')
        /\ close dE (-10204 # 1000) (1 # 1000)
        /\ kind_at w' 2%positive = Some (IsElectron 1)).
Proof.
  split.
  - intros F SF w e a z cur new K Ha Hn.
    destruct (proj1 (kind_at_Some _ _ _) K) as [b E].
    exists (orbital_energy z new), (orbital_energy z cur), (after_jump w e b z cur new).
    rewrite !calculateOrbitalEnergy_value.
    rewrite (simulateElectronJump_performed w e a b z cur new E Ha Hn).
    repeat split.
    + unfold kind_at, after_jump. cbn [particles]. now rewrite lookup_insert_eq.
    + unfold after_jump. cbn [particles]. now rewrite lookup_insert_eq, E.
    + intros q Hq. unfold after_jump. cbn [particles]. now rewrite lookup_insert_ne.
  - eexists. eexists. split; [vm_compute; reflexivity|].
    split; [vm_compute; reflexivity|].
    split; [vm_compute; reflexivity|].
    split; [|vm_compute; reflexivity].
    eexists. split; [vm_compute; reflexivity | vm_compute; discriminate].
Qed.

Lemma simulateElectronJump_jumps_witness :
  exists E_new E_cur w',
    fst <$> OrbitalModel.calculateOrbitalEnergy 1 1 excited_hydrogen_world = Some E_new
    /\ fst <$> OrbitalModel.calculateOrbitalEnergy 1 2 excited_hydrogen_world = Some E_cur
    /\ OrbitalModel.simulateElectronJump (Some 2%positive) (Some 3%positive) 1
         excited_hydrogen_world = Some ((E_new - E_cur)%fl, w')
    /\ kind_at w' 2%positive = Some (IsElectron 1)
    /\ base <$> particles w' !! 2%positive = base <$> particles excited_hydrogen_world !! 2%positive
    /\ (forall q, q <> 2%positive -> particles w' !! q = particles excited_hydrogen_world !! q)
    /\ atoms w' = atoms excited_hydrogen_world.
Proof.
  apply (proj1 simulateElectronJump_jumps spec_float binary32 excited_hydrogen_world
           2%positive 3%positive 1%Z 2%Z 1%Z).
  - vm_compute. reflexivity.
  - vm_compute. reflexivity.
  - lia.
Defined.

(** C8.  For every electron, atom and new level <= 0,
    [simulateElectronJump] returns 0 and performs nothing: the world
    after the call is the world before it with the error message on
    [std::cerr], and the electron is on the level it was on. *)
Theorem simulateElectronJump_invalid_level {F : Type} {SF : Scalar F}
    (w : World F) e a cur new :
  kind_at w e = Some (IsElectron cur) ->
  (new <= 0)%Z ->
  exists w',
    OrbitalModel.simulateElectronJump (Some e) (Some a) new w = Some (flit 0 0, w')
    /\ w' = with_cerr w [Text "Error: New orbital level must be a positive integer."; Endl]
    /\ particles w' = particles w
    /\ atoms w' = atoms w
    /\ kind_at w' e = Some (IsElectron cur).
Proof.
  intros K Hn. eexists. split; [now apply simulateElectronJump_rejected with (cur := cur)|].
  repeat split. exact K.
Qed.

Lemma simulateElectronJump_invalid_level_witness :
  exists w',
    OrbitalModel.simulateElectronJump (Some 2%positive) (Some 3%positive) 0
      excited_hydrogen_world = Some (S754_zero false, w')
    /\ w' = with_cerr excited_hydrogen_world
              [Text "Error: New orbital level must be a positive integer."; Endl]
    /\ particles w' = particles excited_hydrogen_world
    /\ atoms w' = atoms excited_hydrogen_world
    /\ kind_at w' 2%positive = Some (IsElectron 2).
Proof.
  change (S754_zero false) with (flit (F := spec_float) 0 0).
  apply (simulateElectronJump_invalid_level excited_hydrogen_world 2%positive 3%positive 2%Z 0%Z).
  - vm_compute. reflexivity.
  - lia.
Defined.

(** ** Moving an atom *)

Section Move.
Context {F : Type} {SF : Scalar F}.

Lemma getPosition_Some (w : World F) p o :
  particles w !! p = Some o ->
  Particle.getPosition (Some p) w = Some (m_position (base o), w).
Proof.
  intros E. unfold Particle.getPosition.
  now step (load_Some _ _ _ E).
Qed.

Lemma setPosition_Some (w : World F) p o v :
  particles w !! p = Some o ->
  Particle.setPosition (Some p) v w =
    Some (tt, mk_World (<[p := Particle.with_position o v]> (particles w))
                       (atoms w) (next w) (cout w) (cerr w)).
Proof.
  intros E. unfold Particle.setPosition.
  now step (load_Some _ _ _ E).
Qed.

(** The loop over the electrons, when every address is live. *)
Lemma shift_loop (delta : vec3 F) (es : list ptr) (w : World F) :
  Forall (fun e => is_Some (particles w !! e)) es ->
  for_each (Some <$> es) (fun electron =>
      p ← Particle.getPosition electron;
      Particle.setPosition electron (glm.add p delta)) w =
    Some (tt, mk_World (shift_all delta es (particles w)) (atoms w) (next w) (cout w) (cerr w)).
Proof.
  revert w. induction es as [|e es IH]; intros w Hes.
  - destruct w; reflexivity.
  - apply Forall_cons in Hes as [[o E] Hes]. cbn [fmap list_fmap for_each].
    erewrite bind_Some; cycle 1.
    { step (getPosition_Some _ _ _ E).
      apply (setPosition_Some _ _ _ _ E). }
    rewrite IH; cbn [particles atoms next cout cerr].
    + unfold shift_all. cbn [foldl].
      replace (alter (shifted delta) e (particles w))
        with (<[e := Particle.with_position o (glm.add (m_position (base o)) delta)]>
                (particles w)); [reflexivity|].
      apply map_eq. intros q. destruct (decide (q = e)) as [->|Hq].
      * now rewrite lookup_insert_eq, lookup_alter_eq, E.
      * now rewrite lookup_insert_ne, lookup_alter_ne by congruence.
    + eapply Forall_impl; [exact Hes|]. intros q [oq Eq]. cbn beta.
      destruct (decide (q = e)) as [->|Hq].
      * rewrite lookup_insert_eq. eauto.
      * rewrite lookup_insert_ne by congruence. eauto.
Qed.

Lemma shift_all_other (delta : vec3 F) es (m : gmap ptr (Object F)) q :
  q ∉ es -> shift_all delta es m !! q = m !! q.
Proof.
  revert m. induction es as [|e es IH]; intros m Hq; [reflexivity|].
  apply not_elem_of_cons in Hq as [Hne Hq]. unfold shift_all in *. cbn [foldl].
  rewrite IH by assumption. now apply lookup_alter_ne.
Qed.

Lemma shift_all_member (delta : vec3 F) es (m : gmap ptr (Object F)) q :
  NoDup es -> q ∈ es -> shift_all delta es m !! q = shifted delta <$> m !! q.
Proof.
  revert m. induction es as [|e es IH]; intros m Hnd Hq; [now apply elem_of_nil in Hq|].
  apply NoDup_cons in Hnd as [He Hnd]. unfold shift_all in *. cbn [foldl].
  apply elem_of_cons in Hq as [->|Hq].
  - fold (shift_all delta es (alter (shifted delta) e m)).
    rewrite shift_all_other by assumption. apply lookup_alter_eq.
  - rewrite IH by assumption. rewrite lookup_alter_ne; [reflexivity|].
    intros ->. contradiction.
Qed.
End Move.

Section MoveAtom.
Context {F : Type} {SF : Scalar F}.

Lemma atom_at_nucleus_live (w : World F) a n es :
  atom_at w a n es -> exists o, particles w !! n = Some o.
Proof.
  intros (_ & (z & m & K) & _). apply kind_at_Some in K as [b E]. eauto.
Qed.

Lemma atom_at_nucleus_apart (w : World F) a n es : atom_at w a n es -> n ∉ es.
Proof.
  intros (_ & (z & m & K) & Hes) Hin.
  rewrite Forall_forall in Hes. destruct (Hes n Hin) as [l K']. congruence.
Qed.

Lemma atom_at_electrons_live (w : World F) a n es :
  atom_at w a n es -> Forall (fun e => is_Some (particles w !! e)) es.
Proof.
  intros (_ & _ & Hes). eapply Forall_impl; [exact Hes|].
  intros e [l K]. apply kind_at_Some in K as [b E]. eauto.
Qed.

Lemma setPosition_moves (w : World F) a n es o_n p :
  atom_at w a n es ->
  particles w !! n = Some o_n ->
  Atom.setPosition (Some a) p w = Some (tt, after_move w n es o_n p).
Proof.
  intros Hat En. pose proof (atom_at_electrons_live _ _ _ _ Hat) as Hlive.
  pose proof (atom_at_nucleus_apart _ _ _ _ Hat) as Hn.
  destruct Hat as ((x & Ex & Enuc & Eel) & _ & _).
  unfold Atom.setPosition.
  erewrite bind_Some by (unfold load_atom; rewrite Ex; reflexivity).
  rewrite Enuc, Eel.
  step (getPosition_Some _ _ _ En).
  cbv zeta.
  step (setPosition_Some _ _ _ p En).
  rewrite shift_loop; [reflexivity|]. cbn [particles].
  eapply Forall_impl; [exact Hlive|]. intros e [o E]. cbn beta.
  destruct (decide (e = n)) as [->|Hne].
  - rewrite lookup_insert_eq. eauto.
  - rewrite lookup_insert_ne by congruence. eauto.
Qed.

Lemma after_move_nucleus (w : World F) n es o_n p :
  n ∉ es -> particles (after_move w n es o_n p) !! n = Some (Particle.with_position o_n p).
Proof.
  intros Hn. unfold after_move. cbn [particles].
  rewrite shift_all_other by assumption. apply lookup_insert_eq.
Qed.

Lemma after_move_electron (w : World F) n es o_n p e :
  n ∉ es -> NoDup es -> e ∈ es ->
  particles (after_move w n es o_n p) !! e
  = shifted (glm.sub p (m_position (base o_n))) <$> particles w !! e.
Proof.
  intros Hn Hnd He. unfold after_move. cbn [particles].
  rewrite shift_all_member by assumption.
  rewrite lookup_insert_ne; [reflexivity|]. intros ->. contradiction.
Qed.

Lemma after_move_other (w : World F) n es o_n p q :
  q <> n -> q ∉ es -> particles (after_move w n es o_n p) !! q = particles w !! q.
Proof.
  intros Hq Hes. unfold after_move. cbn [particles].
  rewrite shift_all_other by assumption. now rewrite lookup_insert_ne.
Qed.

Lemma shift_all_kind (delta : vec3 F) es (m : gmap ptr (Object F)) q :
  derived <$> shift_all delta es m !! q = derived <$> m !! q.
Proof.
  revert m. induction es as [|e es IH]; intros m; [reflexivity|].
  unfold shift_all in *. cbn [foldl]. rewrite IH.
  destruct (decide (q = e)) as [->|Hq].
  - rewrite lookup_alter_eq. now destruct (m !! e).
  - now rewrite lookup_alter_ne by congruence.
Qed.

Lemma after_move_kind (w : World F) n es o_n p q :
  particles w !! n = Some o_n -> kind_at (after_move w n es o_n p) q = kind_at w q.
Proof.
  intros En. unfold kind_at, after_move. cbn [particles]. rewrite shift_all_kind.
  destruct (decide (q = n)) as [->|Hq].
  - now rewrite lookup_insert_eq, En.
  - now rewrite lookup_insert_ne by congruence.
Qed.

Lemma after_move_atom_at (w : World F) a n es o_n p :
  particles w !! n = Some o_n ->
  atom_at w a n es -> atom_at (after_move w n es o_n p) a n es.
Proof.
  intros En (Hx & (z & m & K) & Hes). split; [exact Hx|]. split.
  - exists z, m. now rewrite after_move_kind.
  - eapply Forall_impl; [exact Hes|]. intros e [l Ke]. exists l. now rewrite after_move_kind.
Qed.
End MoveAtom.

(** *** The second call, in binary32 *)

Lemma fsub_self (x : spec_float) :
  Binary32.is_finite x = true -> (x - x)%fl = S754_zero false.
Proof.
  destruct x as [s|s| |s m e]; cbn [Binary32.is_finite]; try discriminate; intros _.
  - now destruct s.
  - cbn [fsub binary32 SFsub]. rewrite Z.min_id. unfold shl_align. rewrite Z.sub_diag.
    cbn [fst]. rewrite ?Z.sub_diag. reflexivity.
Qed.

Lemma fadd_zero (x : spec_float) : same_number x (x + S754_zero false)%fl.
Proof.
  destruct x as [s|s| |s m e]; cbn [fadd binary32 SFadd].
  - destruct s; [right|left]; auto.
  - now left.
  - now left.
  - now left.
Qed.

Lemma sub_self_point (p : vec3 spec_float) :
  finite_point p -> glm.sub p p = glm.splat (S754_zero false).
Proof.
  intros (Hx & Hy & Hz). unfold glm.sub, glm.splat. now rewrite !fsub_self.
Qed.

Lemma add_zero_point (v : vec3 spec_float) :
  same_point v (glm.add v (glm.splat (S754_zero false))).
Proof. repeat split; apply fadd_zero. Qed.

(** C9, as the code has it.  For every atom whose electron list has no
    repeated electron and every finite position p: [setPosition(p)] moves
    the nucleus to p and every electron by the same delta, p minus the
    old position of the nucleus; a second [setPosition(p)] leaves the
    nucleus at p and every electron at the point where the first call
    put it. *)
Theorem setPosition_twice (w : World spec_float) a n es p :
  atom_at w a n es ->
  NoDup es ->
  finite_point p ->
  exists old w1 w2,
    position_at w n = Some old
    /\ Atom.setPosition (Some a) p w = Some (tt, w1)
    /\ Atom.setPosition (Some a) p w1 = Some (tt, w2)
    /\ position_at w1 n = Some p
    /\ (forall e, e ∈ es ->
          position_at w1 e = (fun v => glm.add v (glm.sub p old)) <$> position_at w e)
    /\ position_at w2 n = Some p
    /\ (forall e, e ∈ es ->
          exists v1 v2, position_at w1 e = Some v1 /\ position_at w2 e = Some v2
                        /\ same_point v1 v2).
Proof.
  intros Hat Hnd Hp.
  destruct (atom_at_nucleus_live _ _ _ _ Hat) as [o_n En].
  pose proof (atom_at_nucleus_apart _ _ _ _ Hat) as Hn.
  set (w1 := after_move w n es o_n p).
  set (o1 := Particle.with_position o_n p).
  assert (En1 : particles w1 !! n = Some o1) by now apply after_move_nucleus.
  assert (Hat1 : atom_at w1 a n es) by now apply after_move_atom_at.
  exists (m_position (base o_n)), w1, (after_move w1 n es o1 p).
  split; [unfold position_at; now rewrite En|].
  split; [now apply setPosition_moves|].
  split; [now apply setPosition_moves|].
  split; [unfold position_at; now rewrite En1|].
  assert (H1 : forall e, e ∈ es ->
            position_at w1 e
            = (fun v => glm.add v (glm.sub p (m_position (base o_n)))) <$> position_at w e).
  { intros e He. unfold position_at. subst w1. rewrite after_move_electron by assumption.
    now destruct (particles w !! e). }
  split; [exact H1|].
  split; [unfold position_at; now rewrite after_move_nucleus|].
  intros e He.
  pose proof (atom_at_electrons_live _ _ _ _ Hat1) as Hlive.
  rewrite Forall_forall in Hlive. destruct (Hlive e He) as [o Eo].
  exists (m_position (base o)), (glm.add (m_position (base o)) (glm.splat (S754_zero false))).
  split; [unfold position_at; now rewrite Eo|].
  split; [|apply add_zero_point].
  unfold position_at. rewrite after_move_electron by assumption. rewrite Eo.
  cbn. subst o1. cbn. now rewrite sub_self_point.
Qed.

Lemma polarised_hydrogen_atom : atom_at polarised_hydrogen_world 3%positive 1%positive [2%positive].
Proof.
  split; [|split].
  - eexists. split; [vm_compute; reflexivity|]. split; reflexivity.
  - exists 1%Z, 1%Z. vm_compute. reflexivity.
  - constructor; [|constructor]. exists 1%Z. vm_compute. reflexivity.
Qed.

Lemma setPosition_twice_witness :
  exists old w1 w2,
    position_at polarised_hydrogen_world 1%positive = Some old
    /\ Atom.setPosition (Some 3%positive) (mk_vec3 (flit 2 0) (flit 0 0) (flit 0 0))
         polarised_hydrogen_world = Some (tt, w1)
    /\ Atom.setPosition (Some 3%positive) (mk_vec3 (flit 2 0) (flit 0 0) (flit 0 0)) w1
       = Some (tt, w2)
    /\ position_at w1 1%positive = Some (mk_vec3 (flit 2 0) (flit 0 0) (flit 0 0))
    /\ (forall e, e ∈ [2%positive] ->
          position_at w1 e
          = (fun v => glm.add v (glm.sub (mk_vec3 (flit 2 0) (flit 0 0) (flit 0 0)) old))
              <$> position_at polarised_hydrogen_world e)
    /\ position_at w2 1%positive = Some (mk_vec3 (flit 2 0) (flit 0 0) (flit 0 0))
    /\ (forall e, e ∈ [2%positive] ->
          exists v1 v2, position_at w1 e = Some v1 /\ position_at w2 e = Some v2
                        /\ same_point v1 v2).
Proof.
  apply (setPosition_twice polarised_hydrogen_world 3%positive 1%positive [2%positive]
           (mk_vec3 (flit 2 0) (flit 0 0) (flit 0 0))).
  - exact polarised_hydrogen_atom.
  - apply NoDup_singleton.
  - repeat split.
Defined.

(** C9 fails as stated: the electron of a hydrogen atom that has moved
    to (1, 0, 0), while the nucleus is at the origin, is at (3, 0, 0)
    after [setPosition((2, 0, 0))] is called twice, and not at (2, 0, 0). *)
Lemma setPosition_twice_electron_elsewhere :
  exists w2,
    (Atom.setPosition (Some 3%positive) (mk_vec3 (flit 2 0) (flit 0 0) (flit 0 0));;
     Atom.setPosition (Some 3%positive) (mk_vec3 (flit 2 0) (flit 0 0) (flit 0 0)))
      polarised_hydrogen_world = Some (tt, w2)
    /\ atom_at polarised_hydrogen_world 3%positive 1%positive [2%positive]
    /\ position_at w2 1%positive = Some (mk_vec3 (flit 2 0) (flit 0 0) (flit 0 0))
    /\ position_at w2 2%positive = Some (mk_vec3 (flit 3 0) (flit 0 0) (flit 0 0))
    /\ position_at w2 2%positive <> Some (mk_vec3 (flit 2 0) (flit 0 0) (flit 0 0)).
Proof.
  eexists. split; [vm_compute; reflexivity|].
  split; [exact polarised_hydrogen_atom|].
  split; [vm_compute; reflexivity|].
  split; [vm_compute; reflexivity|].
  vm_compute. discriminate.
Qed.

(** An electron that the list holds twice is shifted twice: the atom at
    the origin, moved to (1, 0, 0), has its electron at (2, 0, 0). *)
Lemma setPosition_repeated_electron :
  exists w1,
    Atom.setPosition (Some 3%positive) (mk_vec3 (flit 1 0) (flit 0 0) (flit 0 0))
      twice_listed_world = Some (tt, w1)
    /\ m_electrons <$> atoms twice_listed_world !! 3%positive
       = Some [Some 2%positive; Some 2%positive]
    /\ position_at twice_listed_world 2%positive = Some (glm.splat (flit 0 0))
    /\ position_at w1 1%positive = Some (mk_vec3 (flit 1 0) (flit 0 0) (flit 0 0))
    /\ position_at w1 2%positive = Some (mk_vec3 (flit 2 0) (flit 0 0) (flit 0 0)).
Proof. eexists. repeat split; vm_compute; reflexivity. Qed.

(** A position that is not finite: after two calls of
    [setPosition((+infinity, 0, 0))] on the hydrogen atom at the origin
    the x coordinate of the electron is not a number, since the delta of
    the second call is infinity - infinity. *)
Lemma setPosition_twice_infinite :
  exists w2,
    (Atom.setPosition (Some 3%positive) (mk_vec3 (S754_infinity false) (flit 0 0) (flit 0 0));;
     Atom.setPosition (Some 3%positive) (mk_vec3 (S754_infinity false) (flit 0 0) (flit 0 0)))
      (world_after (Atom.ctor 1 1 (glm.splat (flit 0 0)))) = Some (tt, w2)
    /\ position_at w2 2%positive = Some (mk_vec3 S754_nan (flit 0 0) (flit 0 0)).
Proof. eexists. split; vm_compute; reflexivity. Qed.

(** In exact arithmetic an electron that was at the position of the
    nucleus is at p after [setPosition(p)]. *)
Lemma setPosition_exact_coincident (w : World R) a n es o_n p e :
  atom_at w a n es -> NoDup es -> particles w !! n = Some o_n ->
  e ∈ es -> position_at w e = Some (m_position (base o_n)) ->
  position_at (after_move w n es o_n p) e = Some p.
Proof.
  intros Hat Hnd En He Hpos. pose proof (atom_at_nucleus_apart _ _ _ _ Hat) as Hn.
  unfold position_at in *. rewrite after_move_electron by assumption.
  destruct (particles w !! e) as [o|]; [|discriminate].
  injection Hpos as Hpos. cbn. rewrite Hpos. f_equal.
  destruct p as [px py pz], (m_position (base o_n)) as [ox oy oz].
  unfold glm.add, glm.sub. cbn. f_equal; ring.
Qed.

(** ** The Coulomb solver *)

Section CoulombRun.
Context {F : Type} {SF : Scalar F}.

Lemma for_range_pure {S} (range : list nat) (body : nat -> S -> M F S) (g : S -> nat -> S)
    (w : World F) (s : S) :
  (forall k s, k ∈ range -> body k s w = Some (g s k, w)) ->
  CoulombSolver.for_range range body s w = Some (foldl g s range, w).
Proof.
  revert s. induction range as [|k range IH]; intros s Hbody; [reflexivity|].
  cbn [CoulombSolver.for_range foldl].
  step (Hbody k s ltac:(apply elem_of_cons; now left)).
  apply IH. intros k' s' Hk'. apply Hbody. apply elem_of_cons. now right.
Qed.

Lemma particles_at_length (w : World F) ptrs ps :
  particles_at w ptrs = Some ps -> List.length ptrs = List.length ps.
Proof. intros H%mapM_Some. exact (Forall2_length _ _ _ H). Qed.

Lemma particles_at_lookup (w : World F) ptrs ps i :
  particles_at w ptrs = Some ps -> i < List.length ps ->
  exists a o, ptrs !! i = Some a /\ particles w !! a = Some o /\ ps !! i = Some (base o).
Proof.
  intros H%mapM_Some Hi.
  destruct (lookup_lt_is_Some_2 ps i Hi) as [p Ep].
  destruct (Forall2_lookup_r _ _ _ _ _ H Ep) as (a & Ea & Hap).
  destruct (particles w !! a) as [o|] eqn:Eo; [|discriminate].
  injection Hap as <-. eauto.
Qed.

Lemma getCharge_Some (w : World F) p o :
  particles w !! p = Some o ->
  Particle.getCharge (Some p) w = Some (m_charge (base o), w).
Proof.
  intros E. unfold Particle.getCharge.
  now step (load_Some _ _ _ E).
Qed.

Lemma pair_body_pure (w : World F) ptrs ps i j forces :
  particles_at w ptrs = Some ps -> i < List.length ps -> j < List.length ps ->
  CoulombSolver.pair_body (Some <$> ptrs) i j forces w = Some (pair_step ps i j forces, w).
Proof.
  intros Hps Hi Hj.
  destruct (particles_at_lookup _ _ _ _ Hps Hi) as (a_i & o_i & Ei & Eoi & Epi).
  destruct (particles_at_lookup _ _ _ _ Hps Hj) as (a_j & o_j & Ej & Eoj & Epj).
  unfold CoulombSolver.pair_body, CoulombSolver.at_index.
  rewrite !list_lookup_fmap, Ei, Ej. cbn [fmap option_fmap option_map].
  rewrite (bind_Some _ _ _ (Some a_i) w) by reflexivity.
  rewrite (bind_Some _ _ _ (Some a_j) w) by reflexivity.
  step (getPosition_Some _ _ _ Eoi).
  step (getPosition_Some _ _ _ Eoj).
  unfold pair_step, force_between, pair_force. rewrite Epi, Epj. cbv zeta.
  destruct (_ <? _)%fl; [reflexivity|].
  step (getCharge_Some _ _ _ Eoi).
  step (getCharge_Some _ _ _ Eoj).
  reflexivity.
Qed.

(** The solver reads the particles and leaves the world as it found it. *)
Lemma calculateForces_pure (w : World F) ptrs ps :
  particles_at w ptrs = Some ps ->
  CoulombSolver.calculateForces (Some <$> ptrs) w = Some (solve ps, w).
Proof.
  intros Hps. unfold CoulombSolver.calculateForces, solve.
  rewrite length_fmap, (particles_at_length _ _ _ Hps).
  apply for_range_pure. intros i forces Hi%elem_of_seq.
  apply for_range_pure. intros j forces' Hj%elem_of_seq.
  apply pair_body_pure; [assumption|lia|lia].
Qed.
End CoulombRun.

Section CoulombPure.
Context {F : Type} {SF : Scalar F}.
Variable ps : list (Particle F).

Lemma pair_step_length i j (forces : list (vec3 F)) :
  List.length (pair_step ps i j forces) = List.length forces.
Proof.
  unfold pair_step. destruct (force_between ps i j); [|reflexivity].
  now rewrite !length_alter.
Qed.

Lemma pair_step_lookup i j (forces : list (vec3 F)) k :
  i <> j ->
  pair_step ps i j forces !! k =
    if decide (k = i) then (fun a => plus_force a (force_between ps i j)) <$> forces !! k
    else if decide (k = j) then (fun a => minus_force a (force_between ps i j)) <$> forces !! k
    else forces !! k.
Proof.
  intros Hij. unfold pair_step.
  destruct (force_between ps i j) as [f|]; cbn [plus_force minus_force].
  - destruct (decide (k = i)) as [->|Hi]; [|destruct (decide (k = j)) as [->|Hj]].
    + rewrite list_lookup_alter_ne by congruence. apply list_lookup_alter_eq.
    + rewrite list_lookup_alter_eq. now rewrite list_lookup_alter_ne by congruence.
    + now rewrite !list_lookup_alter_ne by congruence.
  - repeat case_decide; now destruct (forces !! k).
Qed.

(** The inner loop of row i. *)
Lemma row_lookup i (js : list nat) (forces : list (vec3 F)) k :
  i ∉ js -> NoDup js ->
  foldl (fun forces j => pair_step ps i j forces) forces js !! k =
    if decide (k = i)
    then (fun a => foldl (fun acc j => plus_force acc (force_between ps i j)) a js)
           <$> forces !! k
    else if decide (k ∈ js)
    then (fun a => minus_force a (force_between ps i k)) <$> forces !! k
    else forces !! k.
Proof.
  revert forces. induction js as [|j js IH]; intros forces Hi Hnd.
  - cbn [foldl]. case_decide; [now destruct (forces !! k)|].
    case_decide as Hk; [now apply elem_of_nil in Hk|reflexivity].
  - apply not_elem_of_cons in Hi as [Hij Hi]. apply NoDup_cons in Hnd as [Hj Hnd].
    cbn [foldl]. rewrite IH by assumption. rewrite pair_step_lookup by assumption.
    destruct (decide (k = i)) as [->|Hki].
    + now destruct (forces !! i).
    + destruct (decide (k = j)) as [->|Hkj].
      * rewrite decide_False by assumption.
        rewrite decide_True by (apply elem_of_cons; now left). reflexivity.
      * destruct (decide (k ∈ js)) as [Hk|Hk].
        -- rewrite decide_True by (apply elem_of_cons; now right). reflexivity.
        -- rewrite decide_False; [reflexivity|].
           intros [?|?]%elem_of_cons; contradiction.
Qed.

(** The state of the accumulators when the rows below m are done. *)
Lemma rows_lookup (m k : nat) :
  m <= List.length ps -> k < List.length ps ->
  foldl (fun forces i =>
           foldl (fun forces j => pair_step ps i j forces) forces
                 (seq (S i) (List.length ps - S i)))
        (replicate (List.length ps) (glm.splat (flit 0 0))) (seq 0 m) !! k
  = Some (if decide (k < m) then net_force ps k
          else foldl (fun acc i => minus_force acc (force_between ps i k))
                     (glm.splat (flit 0 0)) (seq 0 m)).
Proof.
  intros Hm Hk. induction m as [|m IH].
  - cbn [seq foldl]. rewrite decide_False by lia. now apply lookup_replicate_2.
  - rewrite seq_S, !foldl_app. cbn [foldl plus]. rewrite row_lookup.
    + rewrite IH by lia. cbn [fmap option_fmap option_map].
      destruct (decide (k = m)) as [->|Hkm].
      * rewrite decide_False by lia. rewrite decide_True by lia. reflexivity.
      * destruct (decide (k ∈ seq (S m) (List.length ps - S m))) as [Hin|Hin].
        -- apply elem_of_seq in Hin. rewrite !decide_False by lia. reflexivity.
        -- rewrite elem_of_seq in Hin.
           destruct (decide (k < m)); [rewrite decide_True by lia | lia]. reflexivity.
    + rewrite elem_of_seq. lia.
    + apply NoDup_seq.
Qed.

Lemma solve_length : List.length (solve ps) = List.length ps.
Proof.
  unfold solve. generalize (seq 0 (List.length ps)).
  assert (H : List.length (replicate (List.length ps) (glm.splat (F := F) (flit 0 0)))
              = List.length ps) by apply length_replicate.
  revert H. generalize (replicate (List.length ps) (glm.splat (F := F) (flit 0 0))).
  intros forces H rows. revert forces H.
  induction rows as [|i rows IH]; intros forces H; [exact H|].
  cbn [foldl]. apply IH. revert forces H.
  induction (seq (S i) (List.length ps - S i)) as [|j js IHj]; intros forces H; [exact H|].
  cbn [foldl]. apply IHj. now rewrite pair_step_length.
Qed.

Lemma solve_lookup (k : nat) :
  k < List.length ps -> solve ps !! k = Some (net_force ps k).
Proof.
  intros Hk. unfold solve. rewrite rows_lookup by lia. now rewrite decide_True.
Qed.
End CoulombPure.




(** In exact arithmetic the force of a pair that is not skipped is
    k_e q_i q_j / d^2 times (pos(i) - pos(j)) / d. *)
Lemma pair_force_exact (p_i p_j : Particle R) :
  let r_vec := glm.sub (m_position p_i) (m_position p_j) in
  let d := glm.length r_vec in
  (1 / 1000000000 <= d)%R ->
  pair_force p_i p_j =
    Some (glm.scale (89875 * 100000 * (m_charge p_i * m_charge p_j) / (d * d))%R
                    (mk_vec3 (vx r_vec / d) (vy r_vec / d) (vz r_vec / d))%R).
Proof.
  intros r_vec d Hd. unfold pair_force. fold r_vec. fold d.
  assert (Hlt : (d <? flit 1 (-9))%fl = false).
  { cbn [fltb exact]. unfold Exact.ltb. exact_literals.
    destruct (Rlt_dec _ _); [lra|reflexivity]. }
  rewrite Hlt. f_equal.
  assert (Hd0 : d <> 0%R) by lra.
  unfold glm.scale, glm.normalize, glm.times, glm.inversesqrt, CoulombSolver.COULOMB_CONSTANT.
  fold (glm.length r_vec). fold d. cbn [vx vy vz]. exact_literals.
  f_equal; field; assumption.
Qed.

(** *** Newton's third law *)



(** Sums of vectors over [R]. *)
Section ExactSums.

Lemma vec3_eq (u v : vec3 R) : vx u = vx v -> vy u = vy v -> vz u = vz v -> u = v.
Proof. destruct u, v. cbn. now intros -> -> ->. Qed.

Ltac vec3_ring :=
  apply vec3_eq; cbn; change (IZR (0 * 10 ^ 0)) with 0%R; ring.

Lemma foldl_add_exact (acc : vec3 R) (l : list (vec3 R)) :
  foldl glm.add acc l = glm.add acc (total l).
Proof.
  unfold total. revert acc. induction l as [|v l IH]; intros acc; cbn [foldl].
  - vec3_ring.
  - rewrite IH, (IH (glm.add _ v)). vec3_ring.
Qed.

Lemma total_cons (v : vec3 R) l : total (v :: l) = glm.add v (total l).
Proof.
  unfold total at 1. cbn [foldl]. rewrite foldl_add_exact. vec3_ring.
Qed.

Lemma total_alter (g : vec3 R -> vec3 R) k (l : list (vec3 R)) x :
  l !! k = Some x -> total (alter g k l) = glm.add (total l) (glm.sub (g x) x).
Proof.
  revert k. induction l as [|v l IH]; intros k E; [discriminate|].
  destruct k as [|k].
  - injection E as ->. cbn [alter list_alter]. rewrite !total_cons. vec3_ring.
  - cbn [alter list_alter]. rewrite !total_cons. cbn in E.
    fold (alter g k l). rewrite (IH k E). vec3_ring.
Qed.

Lemma total_replicate_zero n : total (replicate n (glm.splat (F := R) (flit 0 0))) = glm.splat 0%R.
Proof.
  induction n as [|n IH]; [reflexivity|].
  cbn [replicate]. rewrite total_cons, IH. vec3_ring.
Qed.

Lemma pair_step_total (ps : list (Particle R)) i j (forces : list (vec3 R)) :
  i <> j -> i < List.length forces -> j < List.length forces ->
  total (pair_step ps i j forces) = total forces.
Proof.
  intros Hij Hi Hj. unfold pair_step. destruct (force_between ps i j) as [f|]; [|reflexivity].
  destruct (lookup_lt_is_Some_2 forces i Hi) as [x_i Ei].
  destruct (lookup_lt_is_Some_2 forces j Hj) as [x_j Ej].
  rewrite (total_alter _ j _ x_j) by now rewrite list_lookup_alter_ne.
  rewrite (total_alter _ i _ x_i Ei). vec3_ring.
Qed.

Lemma solve_total (ps : list (Particle R)) : total (solve ps) = glm.splat 0%R.
Proof.
  unfold solve. rewrite <- (total_replicate_zero (List.length ps)).
  assert (Hrows : Forall (fun i => i < List.length ps) (seq 0 (List.length ps)))
    by (apply Forall_forall; intros i Hi%elem_of_seq; lia).
  revert Hrows. generalize (seq 0 (List.length ps)).
  assert (H : List.length (replicate (List.length ps) (glm.splat (F := R) (flit 0 0)))
              = List.length ps) by apply length_replicate.
  revert H. generalize (replicate (List.length ps) (glm.splat (F := R) (flit 0 0))).
  intros forces H rows. revert forces H.
  induction rows as [|i rows IH]; intros forces H Hrows; [reflexivity|].
  apply Forall_cons in Hrows as [Hi Hrows]. cbn [foldl].
  assert (Hrow : forall js fs, List.length fs = List.length ps ->
            Forall (fun j => i < j < List.length ps) js ->
            List.length (foldl (fun fs j => pair_step ps i j fs) fs js) = List.length ps
            /\ total (foldl (fun fs j => pair_step ps i j fs) fs js) = total fs).
  { induction js as [|j js IHj]; intros fs Hfs Hjs; [now split|].
    apply Forall_cons in Hjs as [Hj Hjs]. cbn [foldl].
    destruct (IHj (pair_step ps i j fs)) as [Hl Ht];
      [now rewrite pair_step_length | assumption |].
    split; [exact Hl|]. rewrite Ht. apply pair_step_total; lia. }
  destruct (Hrow (seq (S i) (List.length ps - S i)) forces H) as [Hl Ht].
  { apply Forall_forall. intros j Hj%elem_of_seq. lia. }
  rewrite IH by assumption. exact Ht.
Qed.
End ExactSums.





(** * Further properties of the code *)

(** ** Building an atom *)

Lemma addresses_length start n : List.length (addresses start n) = n.
Proof. revert start. induction n as [|n IH]; intros start; cbn; [reflexivity|]. now rewrite IH. Qed.

Lemma advance_to_nat start n : Pos.to_nat (advance start n) = Pos.to_nat start + n.
Proof.
  unfold advance. induction n as [|n IH]; [cbn; lia|].
  change (Nat.iter (S n) Pos.succ start) with (Pos.succ (Nat.iter n Pos.succ start)).
  rewrite Pos2Nat.inj_succ, IH. lia.
Qed.

Lemma advance_succ start n : advance (Pos.succ start) n = advance start (S n).
Proof. apply Pos2Nat.inj. rewrite !advance_to_nat, Pos2Nat.inj_succ. lia. Qed.

Lemma addresses_range start n a :
  a ∈ addresses start n -> (start <= a)%positive /\ (a < advance start n)%positive.
Proof.
  revert start. induction n as [|n IH]; intros start Ha; [now apply elem_of_nil in Ha|].
  cbn in Ha. apply elem_of_cons in Ha as [->|Ha].
  - split; [lia|]. apply Pos2Nat.inj_lt. rewrite advance_to_nat. lia.
  - apply IH in Ha as [H1 H2]. rewrite advance_succ in H2. split; [lia|exact H2].
Qed.

Lemma addresses_NoDup start n : NoDup (addresses start n).
Proof.
  revert start. induction n as [|n IH]; intros start; cbn; [constructor|].
  apply NoDup_cons. split; [|apply IH].
  intros [Ha _]%addresses_range. lia.
Qed.

Section Construction.
Context {F : Type} {SF : Scalar F}.

Lemma initial_electrons_run (n : nat) (position : vec3 F) (w : World F) :
  Atom.initial_electrons n position w =
    Some (Some <$> addresses (next w) n,
          mk_World (with_electrons position (next w) n (particles w)) (atoms w)
                   (advance (next w) n) (cout w) (cerr w)).
Proof.
  revert w. induction n as [|n IH]; intros w.
  - cbn. now destruct w.
  - cbn [Atom.initial_electrons].
    erewrite bind_Some by reflexivity. erewrite bind_Some by apply IH.
    cbn [next particles atoms cout cerr]. rewrite advance_succ. reflexivity.
Qed.

Lemma with_electrons_below (position : vec3 F) start n (m : gmap ptr (Object F)) q :
  (q < start)%positive -> with_electrons position start n m !! q = m !! q.
Proof.
  revert start m. induction n as [|n IH]; intros start m Hq; [reflexivity|].
  cbn. rewrite IH by lia. apply lookup_insert_ne. lia.
Qed.

Lemma with_electrons_member (position : vec3 F) start n (m : gmap ptr (Object F)) e :
  e ∈ addresses start n ->
  with_electrons position start n m !! e
  = Some (Electron.ctor position (glm.splat (flit 0 0)) 1).
Proof.
  revert start m. induction n as [|n IH]; intros start m He; [now apply elem_of_nil in He|].
  cbn in *. apply elem_of_cons in He as [->|He].
  - rewrite with_electrons_below by lia. apply lookup_insert_eq.
  - now apply IH.
Qed.

Lemma with_electrons_above (position : vec3 F) start n (m : gmap ptr (Object F)) q :
  (advance start n <= q)%positive ->
  with_electrons position start n m !! q = m !! q.
Proof.
  revert start m. induction n as [|n IH]; intros start m Hq; [reflexivity|].
  cbn. rewrite <- advance_succ in Hq. rewrite IH by assumption.
  apply lookup_insert_ne. apply Pos2Nat.inj_le in Hq. rewrite advance_to_nat, Pos2Nat.inj_succ in Hq.
  lia.
Qed.
End Construction.

(** X1.  On a world whose live addresses are all below the next address,
    the constructor [Atom(Z, A, position)] makes an atom that owns a
    nucleus (Z, A) at [position] and max(Z, 0) electrons, all different,
    each at [position], at rest, on level 1; it changes no object and no
    atom that existed, and leaves the addresses in order. *)
Theorem Atom_ctor_builds {F : Type} {SF : Scalar F} (w : World F) (z a : int)
    (position : vec3 F) :
  fresh w ->
  exists at_ n es w',
    Atom.ctor z a position w = Some (Some at_, w')
    /\ atom_at w' at_ n es
    /\ NoDup es
    /\ List.length es = Z.to_nat z
    /\ kind_at w' n = Some (IsNucleus z a)
    /\ position_at w' n = Some position
    /\ Forall (fun e => particles w' !! e
                        = Some (Electron.ctor position (glm.splat (flit 0 0)) 1)) es
    /\ (forall q, is_Some (particles w !! q) -> particles w' !! q = particles w !! q)
    /\ (forall q, is_Some (atoms w !! q) -> atoms w' !! q = atoms w !! q)
    /\ fresh w'.
Proof.
  intros Hfresh.
  set (n := next w). set (k := Z.to_nat z). set (es := addresses (Pos.succ n) k).
  set (at_ := advance (Pos.succ n) k).
  set (nuc := Nucleus.ctor z a position (glm.splat (flit 0 0))
                (of_int z * flit 1672 (-30) + of_int (int_sub a z) * flit 1674 (-30))%fl
                (of_int z * flit 1602 (-22))%fl).
  set (store := with_electrons position (Pos.succ n) k (<[n := nuc]> (particles w))).
  set (atom := mk_Atom z a (Some n) (Some <$> es)).
  exists at_, n, es,
    (mk_World store (<[at_ := atom]> (atoms w)) (Pos.succ at_) (cout w) (cerr w)).
  assert (Hat : (Pos.succ n <= at_)%positive).
  { apply Pos2Nat.inj_le. subst at_. rewrite advance_to_nat. lia. }
  assert (Hn : store !! n = Some nuc).
  { subst store. rewrite with_electrons_below by lia. apply lookup_insert_eq. }
  assert (Hes : forall e, e ∈ es ->
            store !! e = Some (Electron.ctor position (glm.splat (flit 0 0)) 1)).
  { intros e He. now apply with_electrons_member. }
  assert (Hold : forall q, (q < n)%positive -> store !! q = particles w !! q).
  { intros q Hq. subst store. rewrite with_electrons_below by lia.
    apply lookup_insert_ne. lia. }
  split.
  { unfold Atom.ctor. cbv zeta. erewrite bind_Some by reflexivity.
    erewrite bind_Some by apply initial_electrons_run. reflexivity. }
  split.
  { split; [|split].
    - exists atom. cbn [atoms]. rewrite lookup_insert_eq. repeat split.
    - exists z, a. unfold kind_at. cbn [particles]. now rewrite Hn.
    - apply Forall_forall. intros e He. exists 1%Z. unfold kind_at. cbn [particles].
      now rewrite (Hes e He). }
  split; [apply addresses_NoDup|].
  split; [apply addresses_length|].
  split; [unfold kind_at; cbn [particles]; now rewrite Hn|].
  split; [unfold position_at; cbn [particles]; now rewrite Hn|].
  split; [apply Forall_forall; exact Hes|].
  split.
  { intros q Hq. cbn [particles]. apply Hold. apply Hfresh. now left. }
  split.
  { intros q Hq. cbn [atoms]. apply lookup_insert_ne.
    assert (q < n)%positive by (apply Hfresh; now right). lia. }
  intros q Hq. cbn [particles atoms next] in *.
  destruct (decide (q < Pos.succ at_)%positive) as [|Hge]; [assumption|exfalso].
  assert (Hq' : (at_ < q)%positive) by lia.
  destruct Hq as [Hq|Hq].
  - subst store. rewrite with_electrons_above in Hq by (fold at_; lia).
    rewrite lookup_insert_ne in Hq by lia.
    assert (q < n)%positive by (apply Hfresh; now left). lia.
  - rewrite lookup_insert_ne in Hq by lia.
    assert (q < n)%positive by (apply Hfresh; now right). lia.
Qed.

Lemma empty_world_fresh {F : Type} : fresh (empty_world (F := F)).
Proof. intros a [[o H]|[o H]]; cbn in H; now rewrite lookup_empty in H. Qed.

Lemma Atom_ctor_builds_witness :
  exists at_ n es w',
    Atom.ctor 8 16 (glm.splat (flit 0 0)) (empty_world (F := spec_float)) = Some (Some at_, w')
    /\ atom_at w' at_ n es
    /\ NoDup es
    /\ List.length es = Z.to_nat 8
    /\ kind_at w' n = Some (IsNucleus 8 16)
    /\ position_at w' n = Some (glm.splat (flit 0 0))
    /\ Forall (fun e => particles w' !! e
                        = Some (Electron.ctor (glm.splat (flit 0 0)) (glm.splat (flit 0 0)) 1)) es
    /\ (forall q, is_Some (particles (empty_world (F := spec_float)) !! q) ->
                  particles w' !! q = particles (empty_world (F := spec_float)) !! q)
    /\ (forall q, is_Some (atoms (empty_world (F := spec_float)) !! q) ->
                  atoms w' !! q = atoms (empty_world (F := spec_float)) !! q)
    /\ fresh w'.
Proof.
  exact (Atom_ctor_builds (F := spec_float) empty_world 8 16 (glm.splat (flit 0 0))
           empty_world_fresh).
Defined.

(** ** The position of an atom *)

Lemma shift_all_besides_position {F : Type} {SF : Scalar F} (delta : vec3 F) es
    (m : gmap ptr (Object F)) q :
  besides_position <$> shift_all delta es m !! q = besides_position <$> m !! q.
Proof.
  revert m. induction es as [|e es IH]; intros m; [reflexivity|].
  unfold shift_all in *. cbn [foldl]. rewrite IH.
  destruct (decide (q = e)) as [->|Hq].
  - rewrite lookup_alter_eq. now destruct (m !! e).
  - now rewrite lookup_alter_ne by congruence.
Qed.

(** X2.  After [setPosition(p)] the getter [getPosition] of the atom
    returns p; the call changes positions only: every object keeps its
    class, type, velocity, mass and charge, every particle that is
    neither the nucleus nor a listed electron is untouched, and no atom
    changes. *)
Theorem setPosition_getPosition {F : Type} {SF : Scalar F} (w : World F) a n es p :
  atom_at w a n es ->
  exists w',
    Atom.setPosition (Some a) p w = Some (tt, w')
    /\ Atom.getPosition (Some a) w' = Some (p, w')
    /\ atoms w' = atoms w
    /\ (forall q, q <> n -> q ∉ es -> particles w' !! q = particles w !! q)
    /\ (forall q, besides_position <$> particles w' !! q
                  = besides_position <$> particles w !! q).
Proof.
  intros Hat. destruct (atom_at_nucleus_live _ _ _ _ Hat) as [o_n En].
  pose proof (atom_at_nucleus_apart _ _ _ _ Hat) as Hn.
  exists (after_move w n es o_n p).
  split; [now apply setPosition_moves|].
  split.
  { destruct Hat as ((x & Ex & Enuc & _) & _ & _).
    unfold Atom.getPosition.
    assert (L : load_atom (Some a) (after_move w n es o_n p)
                = Some (x, after_move w n es o_n p))
      by (unfold load_atom, after_move; cbn [atoms]; now rewrite Ex).
    step L. rewrite Enuc. rewrite (getPosition_Some _ _ _ (after_move_nucleus w n es o_n p Hn)).
    reflexivity. }
  split; [reflexivity|].
  split; [intros q Hq Hes; now apply after_move_other|].
  intros q. unfold after_move. cbn [particles]. rewrite shift_all_besides_position.
  destruct (decide (q = n)) as [->|Hq].
  - now rewrite lookup_insert_eq, En.
  - now rewrite lookup_insert_ne by congruence.
Qed.

Lemma setPosition_getPosition_witness :
  exists w',
    Atom.setPosition (Some 3%positive) (mk_vec3 (flit 2 0) (flit 0 0) (flit 0 0))
      polarised_hydrogen_world = Some (tt, w')
    /\ Atom.getPosition (Some 3%positive) w'
       = Some (mk_vec3 (flit 2 0) (flit 0 0) (flit 0 0), w')
    /\ atoms w' = atoms polarised_hydrogen_world
    /\ (forall q, q <> 1%positive -> q ∉ [2%positive] ->
          particles w' !! q = particles polarised_hydrogen_world !! q)
    /\ (forall q, besides_position <$> particles w' !! q
                  = besides_position <$> particles polarised_hydrogen_world !! q).
Proof.
  exact (setPosition_getPosition polarised_hydrogen_world 3%positive 1%positive [2%positive]
           (mk_vec3 (flit 2 0) (flit 0 0) (flit 0 0)) polarised_hydrogen_atom).
Defined.

Lemma hydrogen_atom {F : Type} {SF : Scalar F} :
  atom_at (hydrogen_world (F := F)) 3%positive 1%positive [2%positive].
Proof.
  split; [|split].
  - eexists. split; [reflexivity|]. split; reflexivity.
  - exists 1%Z, 1%Z. reflexivity.
  - constructor; [|constructor]. exists 1%Z. reflexivity.
Qed.

(** X3.  In exact arithmetic two moves compose: [setPosition(p)] followed
    by [setPosition(q)] leaves the world that [setPosition(q)] alone
    leaves, for every atom whose electron list has no repeated electron. *)
Theorem setPosition_composes (w : World R) a n es (p q : vec3 R) :
  atom_at w a n es ->
  NoDup es ->
  (Atom.setPosition (Some a) p;; Atom.setPosition (Some a) q) w
  = Atom.setPosition (Some a) q w.
Proof.
  intros Hat Hnd. destruct (atom_at_nucleus_live _ _ _ _ Hat) as [o_n En].
  pose proof (atom_at_nucleus_apart _ _ _ _ Hat) as Hn.
  set (w1 := after_move w n es o_n p).
  assert (En1 : particles w1 !! n = Some (Particle.with_position o_n p))
    by now apply after_move_nucleus.
  assert (Hat1 : atom_at w1 a n es) by now apply after_move_atom_at.
  step (setPosition_moves w a n es o_n p Hat En).
  rewrite (setPosition_moves w1 a n es _ q Hat1 En1).
  rewrite (setPosition_moves w a n es o_n q Hat En).
  do 2 f_equal. unfold after_move at 1 2. cbn [atoms next cout cerr particles].
  f_equal. apply map_eq. intros k. cbn [Particle.with_position base m_position].
  destruct (decide (k = n)) as [->|Hk].
  - rewrite !shift_all_other by assumption. now rewrite !lookup_insert_eq.
  - destruct (decide (k ∈ es)) as [Hin|Hout].
    + rewrite !shift_all_member by assumption.
      rewrite !lookup_insert_ne by congruence.
      subst w1. rewrite after_move_electron by assumption.
      destruct (particles w !! k) as [o|]; [|reflexivity].
      cbn. f_equal. unfold shifted, Particle.with_position. cbn. do 2 f_equal.
      apply vec3_eq; cbn; ring.
    + rewrite !shift_all_other by assumption.
      rewrite !lookup_insert_ne by congruence.
      subst w1. now rewrite after_move_other.
Qed.

Lemma setPosition_composes_witness :
  (Atom.setPosition (Some 3%positive) (mk_vec3 1 2 3)%R;;
   Atom.setPosition (Some 3%positive) (mk_vec3 4 5 6)%R) (hydrogen_world (F := R))
  = Atom.setPosition (Some 3%positive) (mk_vec3 4 5 6)%R hydrogen_world.
Proof.
  apply (setPosition_composes hydrogen_world 3%positive 1%positive [2%positive]).
  - exact hydrogen_atom.
  - apply NoDup_singleton.
Defined.

(** ** The electron list of an atom *)

Lemma filter_differ_length {A} `{EqDecision A} (x : A) (l : list A) :
  List.length (filter (fun y => y <> x) l) = List.length l <-> x ∉ l.
Proof.
  induction l as [|y l IH]; [split; [intros _ H; now apply elem_of_nil in H | reflexivity]|].
  rewrite filter_cons. pose proof (length_filter (fun y => y <> x) l) as Hle.
  destruct (decide (y <> x)) as [Hy|Hy].
  - cbn [List.length]. rewrite not_elem_of_cons. split.
    + intros [= H]. split; [congruence|]. now apply IH.
    + intros [_ H]. f_equal. now apply IH.
  - apply dec_stable in Hy as ->. cbn [List.length]. split; [lia|].
    intros H. exfalso. apply H. apply elem_of_cons. now left.
Qed.

Lemma filter_differ_absent {A} `{EqDecision A} (x : A) (l : list A) :
  x ∉ l -> filter (fun y => y <> x) l = l.
Proof.
  induction l as [|y l IH]; intros H; [reflexivity|].
  apply not_elem_of_cons in H as [Hxy H]. rewrite filter_cons.
  rewrite decide_True by congruence. f_equal. now apply IH.
Qed.

(** X4.  [removeElectron(e)] returns whether the list held e; afterwards
    the list holds the other electrons, in their order, and e no more,
    even if it was listed several times; the atom keeps its numbers and
    its nucleus, the particles and the other atoms are untouched, and
    when e was not listed the world is unchanged. *)
Theorem removeElectron_removes {F : Type} {SF : Scalar F} (w : World F) a x e :
  atoms w !! a = Some x ->
  exists w',
    Atom.removeElectron (Some a) e w = Some (bool_decide (e ∈ m_electrons x), w')
    /\ atoms w' !! a
       = Some (mk_Atom (m_atomicNumber x) (m_massNumber x) (m_nucleus x)
                       (filter (fun y => y <> e) (m_electrons x)))
    /\ (e ∉ filter (fun y => y <> e) (m_electrons x))
    /\ particles w' = particles w
    /\ (forall b, b <> a -> atoms w' !! b = atoms w !! b)
    /\ (e ∉ m_electrons x -> w' = w).
Proof.
  intros Ex. unfold Atom.removeElectron.
  assert (L : load_atom (F := F) (Some a) w = Some (x, w)) by (unfold load_atom; now rewrite Ex).
  step L. cbv zeta.
  assert (Hgone : e ∉ filter (fun y => y <> e) (m_electrons x)).
  { intros [H _]%list_elem_of_filter. now apply H. }
  destruct (decide (List.length (filter (fun y => y <> e) (m_electrons x))
                    = List.length (m_electrons x))) as [Hlen|Hlen].
  - apply filter_differ_length in Hlen as Hout.
    exists w. rewrite bool_decide_eq_false_2 by assumption.
    split; [reflexivity|]. rewrite filter_differ_absent by assumption.
    split; [now destruct x|]. split; [assumption|]. repeat split.
  - assert (Hin : e ∈ m_electrons x).
    { destruct (decide (e ∈ m_electrons x)) as [|Hout]; [assumption|].
      exfalso. apply Hlen. now apply filter_differ_length. }
    eexists. rewrite bool_decide_eq_true_2 by assumption.
    split; [reflexivity|]. cbn [atoms particles].
    split; [apply lookup_insert_eq|]. split; [assumption|]. split; [reflexivity|].
    split; [intros b Hb; now apply lookup_insert_ne|]. intros Hout. contradiction.
Qed.

Lemma removeElectron_removes_witness :
  exists w',
    Atom.removeElectron (Some 3%positive) (Some 2%positive) twice_listed_world
    = Some (bool_decide (Some 2%positive ∈ [Some 2%positive; Some 2%positive]), w')
    /\ atoms w' !! 3%positive
       = Some (mk_Atom 1 1 (Some 1%positive)
                 (filter (fun y => y <> Some 2%positive) [Some 2%positive; Some 2%positive]))
    /\ (Some 2%positive ∉ filter (fun y => y <> Some 2%positive)
                            [Some 2%positive; Some 2%positive])
    /\ particles w' = particles twice_listed_world
    /\ (forall b, b <> 3%positive -> atoms w' !! b = atoms twice_listed_world !! b)
    /\ (Some 2%positive ∉ [Some 2%positive; Some 2%positive] -> w' = twice_listed_world).
Proof.
  apply (removeElectron_removes twice_listed_world 3%positive
           (mk_Atom 1 1 (Some 1%positive) [Some 2%positive; Some 2%positive]) (Some 2%positive)).
  vm_compute. reflexivity.
Defined.

(** X5.  Adding an electron the list does not hold and removing it again
    gives back the world, and the removal reports [true]. *)
Theorem addElectron_removeElectron {F : Type} {SF : Scalar F} (w : World F) a x e :
  atoms w !! a = Some x ->
  e ∉ m_electrons x ->
  (Atom.addElectron (Some a) e;; Atom.removeElectron (Some a) e) w = Some (true, w).
Proof.
  intros Ex Hout. unfold Atom.addElectron, Atom.removeElectron.
  assert (L : load_atom (F := F) (Some a) w = Some (x, w)) by (unfold load_atom; now rewrite Ex).
  erewrite bind_Some by (step L; reflexivity).
  erewrite bind_Some by (unfold load_atom; cbn [atoms]; rewrite lookup_insert_eq; reflexivity).
  cbv zeta. cbn [m_electrons m_atomicNumber m_massNumber m_nucleus].
  assert (Hf : filter (fun y => y <> e) (m_electrons x ++ [e]) = m_electrons x).
  { rewrite filter_app, filter_differ_absent by assumption.
    rewrite filter_cons, decide_False by (intros H; now apply H). cbn. apply app_nil_r. }
  rewrite Hf. rewrite decide_False by (rewrite length_app; cbn; lia).
  unfold store_atom, mbind, M_bind, mret, M_ret. cbn [atoms particles next cout cerr].
  rewrite insert_insert_eq. destruct x as [z m nuc els]. cbn.
  rewrite (insert_id (atoms w) a _ Ex). now destruct w.
Qed.

Lemma addElectron_removeElectron_witness :
  (Atom.addElectron (Some 3%positive) (Some 7%positive);;
   Atom.removeElectron (Some 3%positive) (Some 7%positive)) (hydrogen_world (F := spec_float))
  = Some (true, hydrogen_world).
Proof.
  apply (addElectron_removeElectron hydrogen_world 3%positive
           (mk_Atom 1 1 (Some 1%positive) [Some 2%positive]) (Some 7%positive)).
  - reflexivity.
  - intros [H|H]%elem_of_cons; [discriminate|now apply elem_of_nil in H].
Defined.

(** ** The step of the engine *)

Section EngineRun.
Context {F : Type} {SF : Scalar F}.

Lemma mapM_id_Some (l : list shared_ptr) (es : list ptr) :
  mapM (fun e : shared_ptr => e) l = Some es -> l = Some <$> es.
Proof.
  intros H%mapM_Some. induction H as [|x y l es Hxy _ IH]; [reflexivity|].
  cbn [fmap list_fmap]. now rewrite Hxy, IH.
Qed.

Lemma atom_particles_Some (w : World F) a ps :
  atom_particles w a = Some ps ->
  exists x n es, atoms w !! a = Some x /\ m_nucleus x = Some n
                 /\ m_electrons x = Some <$> es /\ ps = n :: es.
Proof.
  unfold atom_particles. destruct (atoms w !! a) as [x|]; [|discriminate].
  destruct (m_nucleus x) as [n|] eqn:En; [|discriminate].
  destruct (mapM _ (m_electrons x)) as [es|] eqn:Ees; [|discriminate].
  intros [= <-]. exists x, n, es. repeat split; try assumption.
  now apply mapM_id_Some.
Qed.

Lemma gather_Some (w : World F) atom_ptrs ptrs acc :
  gathered w atom_ptrs = Some ptrs ->
  PhysicsEngine.gather (Some <$> atom_ptrs) (Some <$> acc) w
  = Some (Some <$> (acc ++ ptrs), w).
Proof.
  unfold gathered. revert ptrs acc.
  induction atom_ptrs as [|a rest IH]; intros ptrs acc H.
  - cbn in H. injection H as <-. now rewrite app_nil_r.
  - cbn [mapM] in H.
    destruct (atom_particles w a) as [ps|] eqn:Ea; [|discriminate].
    destruct (mapM (atom_particles w) rest) as [pss|] eqn:Er; [|discriminate].
    cbn in H. injection H as <-.
    destruct (atom_particles_Some _ _ _ Ea) as (x & n & es & Ex & En & Ees & ->).
    cbn [fmap list_fmap PhysicsEngine.gather].
    assert (L : load_atom (F := F) (Some a) w = Some (x, w))
      by (unfold load_atom; now rewrite Ex).
    unfold Atom.getNucleus, Atom.getElectrons.
    erewrite bind_Some by (step L; reflexivity).
    erewrite bind_Some by (step L; reflexivity).
    rewrite En, Ees.
    change ([Some n] ++ (Some <$> es)) with (Some <$> (n :: es)).
    rewrite <- fmap_app. cbn [List.concat]. rewrite app_assoc. now apply IH.
Qed.

Lemma objects_particles (w : World F) ptrs os :
  objects_at w ptrs = Some os -> particles_at w ptrs = Some (base <$> os).
Proof.
  unfold objects_at, particles_at. revert os.
  induction ptrs as [|p ptrs IH]; intros os H.
  - cbn in H. now injection H as <-.
  - cbn [mapM] in *. destruct (particles w !! p) as [o|]; [|discriminate].
    destruct (mapM _ ptrs) as [os'|]; [|discriminate].
    cbn in H. injection H as <-. cbn. now rewrite (IH os' eq_refl).
Qed.



Lemma step_particles_other dt ptrs forces (m : gmap ptr (Object F)) q :
  q ∉ ptrs -> step_particles dt ptrs forces m !! q = m !! q.
Proof.
  unfold step_particles. revert forces m.
  induction ptrs as [|p ptrs IH]; intros forces m Hq; [reflexivity|].
  destruct forces as [|f forces]; [reflexivity|].
  cbn [zip zip_with foldl]. rewrite not_elem_of_cons in Hq. destruct Hq as [Hqp Hq].
  rewrite IH by assumption. now rewrite lookup_alter_ne.
Qed.

Lemma step_particles_lookup dt ptrs forces (m : gmap ptr (Object F)) i p f o :
  NoDup ptrs -> ptrs !! i = Some p -> forces !! i = Some f -> m !! p = Some o ->
  step_particles dt ptrs forces m !! p = Some (Particle.updated o f dt).
Proof.
  revert forces m i.
  induction ptrs as [|p0 ptrs IH]; intros forces m i Hnd Hp Hf Ho; [discriminate|].
  destruct forces as [|f0 forces]; [discriminate|].
  apply NoDup_cons in Hnd as [Hp0 Hnd].
  change (step_particles dt (p0 :: ptrs) (f0 :: forces) m)
    with (step_particles dt ptrs forces (alter (fun o => Particle.updated o f0 dt) p0 m)).
  destruct i as [|i]; cbn in Hp, Hf.
  - injection Hp as ->. injection Hf as ->.
    rewrite step_particles_other by assumption.
    rewrite lookup_alter_eq, Ho. reflexivity.
  - assert (p0 <> p) by (intros ->; apply Hp0; eapply list_elem_of_lookup_2; eassumption).
    apply (IH forces _ i); try assumption. now rewrite lookup_alter_ne.
Qed.

(** The loop of step 3, from index [length done] on. *)
Lemma update_loop dt (w : World F) done rest (fdone frest : list (vec3 F)) :
  List.length fdone = List.length done -> List.length frest = List.length rest ->
  Forall (fun p => is_Some (particles w !! p)) rest ->
  CoulombSolver.for_range (seq (List.length done) (List.length rest)) (fun i _ =>
    particle ← CoulombSolver.at_index (Some <$> (done ++ rest)) i;
    match (fdone ++ frest) !! i with
    | Some force => Particle.update particle force dt
    | None => undefined
    end) tt w
  = Some (tt, mk_World (step_particles dt rest frest (particles w))
                (atoms w) (next w) (cout w) (cerr w)).
Proof.
  revert done fdone frest w.
  induction rest as [|p rest IH]; intros done fdone frest w Hd Hr Hlive.
  - cbn. now destruct w.
  - destruct frest as [|f frest]; [discriminate|].
    apply Forall_cons in Hlive as [[o Ho] Hlive].
    cbn [List.length seq CoulombSolver.for_range].
    rewrite (bind_Some _ _ w tt
               (mk_World (<[p := Particle.updated o f dt]> (particles w))
                  (atoms w) (next w) (cout w) (cerr w))).
    2:{ unfold CoulombSolver.at_index.
        rewrite list_lookup_fmap, !lookup_app_r by lia.
        rewrite Hd, !Nat.sub_diag.
        cbn [lookup list_lookup fmap option_fmap option_map].
        rewrite (bind_Some _ _ _ (Some p) w) by reflexivity.
        unfold Particle.update. step (load_Some _ _ _ Ho). reflexivity. }
    specialize (IH (done ++ [p]) (fdone ++ [f]) frest
                  (mk_World (<[p := Particle.updated o f dt]> (particles w))
                     (atoms w) (next w) (cout w) (cerr w))).
    rewrite !length_app in IH. cbn [List.length] in IH.
    rewrite <- !app_assoc in IH. cbn [app] in IH.
    replace (List.length done + 1) with (S (List.length done)) in IH by lia.
    rewrite IH.
    + cbn [particles atoms next cout cerr]. do 3 f_equal.
      change (step_particles dt (p :: rest) (f :: frest) (particles w))
        with (step_particles dt rest frest
                (alter (fun o => Particle.updated o f dt) p (particles w))).
      f_equal. apply map_eq. intros k. destruct (decide (k = p)) as [->|Hk].
      * now rewrite lookup_insert_eq, lookup_alter_eq, Ho.
      * now rewrite lookup_insert_ne, lookup_alter_ne by congruence.
    + lia.
    + cbn in Hr. lia.
    + eapply Forall_impl; [exact Hlive|]. intros q [oq Hq]. cbn [particles].
      destruct (decide (q = p)) as [->|Hqp].
      * rewrite lookup_insert_eq. eauto.
      * rewrite lookup_insert_ne by congruence. eauto.
Qed.

Lemma update_run dt (w : World F) atom_ptrs molecules ptrs ps :
  gathered w atom_ptrs = Some ptrs ->
  particles_at w ptrs = Some ps ->
  PhysicsEngine.update (PhysicsEngine.mk (Some <$> atom_ptrs) molecules) dt w
  = Some (tt, mk_World (step_particles dt ptrs (solve ps) (particles w))
                (atoms w) (next w) (cout w) (cerr w)).
Proof.
  intros Hg Hps. unfold PhysicsEngine.update. cbn [PhysicsEngine.m_atoms].
  pose proof (gather_Some w atom_ptrs ptrs [] Hg) as G. cbn [app fmap list_fmap] in G.
  step G. step (calculateForces_pure w ptrs ps Hps).
  rewrite length_fmap.
  apply (update_loop dt w [] ptrs [] (solve ps)).
  - reflexivity.
  - rewrite solve_length. symmetry. exact (particles_at_length w _ _ Hps).
  - apply Forall_forall. intros p Hp.
    apply list_elem_of_lookup_1 in Hp as [i Hi].
    pose proof (particles_at_length _ _ _ Hps) as Hlen.
    destruct (particles_at_lookup _ _ _ i Hps) as (a & o & Ea & Eo & _).
    { rewrite <- Hlen. eapply lookup_lt_Some; eassumption. }
    rewrite Hi in Ea. injection Ea as <-. eauto.
Qed.
End EngineRun.

Lemma step_particles_kind {F : Type} {SF : Scalar F} dt ptrs forces
    (m : gmap ptr (Object F)) q :
  derived <$> step_particles dt ptrs forces m !! q = derived <$> m !! q.
Proof.
  unfold step_particles. revert m. induction (zip ptrs forces) as [|pf l IH]; intros m.
  - reflexivity.
  - cbn [foldl]. rewrite IH. destruct (decide (pf.1 = q)) as [->|Hne].
    + rewrite lookup_alter_eq. now destruct (m !! q).
    + now rewrite lookup_alter_ne.
Qed.

(** X6.  One [update] of the engine whose atoms are live and hold their
    nucleus and electrons: the particles are gathered atom by atom, the
    nucleus before the electrons; the forces are computed once, from the
    positions before the step; then the particles are advanced in turn,
    each by the force of its index.  The atoms, the kinds of the
    particles and the particles that were not gathered stay as they
    were, and when no particle was gathered twice, each one is advanced
    exactly once, by its net Coulomb force. *)
Theorem PhysicsEngine_update_steps {F : Type} {SF : Scalar F} (w : World F)
    atom_ptrs molecules ptrs ps dt :
  gathered w atom_ptrs = Some ptrs ->
  particles_at w ptrs = Some ps ->
  exists w',
    PhysicsEngine.update (PhysicsEngine.mk (Some <$> atom_ptrs) molecules) dt w = Some (tt, w')
    /\ particles w' = step_particles dt ptrs (solve ps) (particles w)
    /\ atoms w' = atoms w /\ next w' = next w /\ cout w' = cout w /\ cerr w' = cerr w
    /\ (forall q, q ∉ ptrs -> particles w' !! q = particles w !! q)
    /\ (forall q, kind_at w' q = kind_at w q)
    /\ (NoDup ptrs -> forall i p o, ptrs !! i = Some p -> particles w !! p = Some o ->
          particles w' !! p = Some (Particle.updated o (net_force ps i) dt)).
Proof.
  intros Hg Hps. eexists. split; [exact (update_run dt w atom_ptrs molecules ptrs ps Hg Hps)|].
  cbn [particles atoms next cout cerr]. repeat (split; [reflexivity|]).
  split; [intros q Hq; now apply step_particles_other|].
  split; [intros q; unfold kind_at; cbn [particles]; apply step_particles_kind|].
  intros Hnd i p o Hi Ho.
  apply (step_particles_lookup dt ptrs (solve ps) (particles w) i); try assumption.
  apply solve_lookup. rewrite <- (particles_at_length w _ _ Hps).
  eapply lookup_lt_Some; eassumption.
Qed.

Lemma PhysicsEngine_update_steps_witness :
  exists ps,
    particles_at (F := spec_float) hydrogen_helium_world
      [1%positive; 2%positive; 4%positive; 5%positive; 6%positive] = Some ps
    /\ exists w',
    PhysicsEngine.update (F := spec_float)
      (PhysicsEngine.mk (Some <$> [3%positive; 7%positive]) [])
      (flit (F := spec_float) 16 (-3)) hydrogen_helium_world = Some (tt, w')
    /\ particles w'
       = step_particles (flit (F := spec_float) 16 (-3))
           [1%positive; 2%positive; 4%positive; 5%positive; 6%positive] (solve ps)
           (particles hydrogen_helium_world)
    /\ atoms w' = atoms hydrogen_helium_world /\ next w' = next hydrogen_helium_world
    /\ cout w' = cout hydrogen_helium_world /\ cerr w' = cerr hydrogen_helium_world
    /\ (forall q, q ∉ [1%positive; 2%positive; 4%positive; 5%positive; 6%positive] ->
          particles w' !! q = particles hydrogen_helium_world !! q)
    /\ (forall q, kind_at w' q = kind_at (hydrogen_helium_world (F := spec_float)) q)
    /\ (NoDup [1%positive; 2%positive; 4%positive; 5%positive; 6%positive] ->
        forall i p o,
          [1%positive; 2%positive; 4%positive; 5%positive; 6%positive] !! i = Some p ->
          particles hydrogen_helium_world !! p = Some o ->
          particles w' !! p
          = Some (Particle.updated o (net_force ps i) (flit (F := spec_float) 16 (-3)))).
Proof.
  destruct (particles_at (F := spec_float) hydrogen_helium_world
              [1%positive; 2%positive; 4%positive; 5%positive; 6%positive])
    as [ps|] eqn:E; [|vm_compute in E; discriminate].
  exists ps. split; [reflexivity|].
  apply (PhysicsEngine_update_steps (F := spec_float) hydrogen_helium_world
           [3%positive; 7%positive] []
           [1%positive; 2%positive; 4%positive; 5%positive; 6%positive] ps
           (flit 16 (-3))).
  - vm_compute. reflexivity.
  - exact E.
Defined.

(** ** Momentum, in exact arithmetic *)

Lemma momentum_updated (o : Object R) (f : vec3 R) (dt : R) :
  m_mass (base o) <> 0%R ->
  momentum (Particle.updated o f dt) = glm.add (momentum o) (glm.times f dt).
Proof.
  intros Hm. apply vec3_eq; cbn; field; exact Hm.
Qed.

Lemma momentum_total (os : list (Object R)) (fs : list (vec3 R)) (dt : R) :
  List.length fs = List.length os ->
  Forall (fun o => m_mass (base o) <> 0%R) os ->
  total (momentum <$> zip_with (fun o f => Particle.updated o f dt) os fs)
  = glm.add (total (momentum <$> os)) (glm.times (total fs) dt).
Proof.
  revert fs. induction os as [|o os IH]; intros fs Hlen Hm.
  - destruct fs; [|discriminate]. apply vec3_eq; cbn; change (IZR (0 * 10 ^ 0)) with 0%R; ring.
  - destruct fs as [|f fs]; [discriminate|].
    apply Forall_cons in Hm as [Ho Hm].
    cbn [zip_with fmap list_fmap]. rewrite !total_cons.
    rewrite momentum_updated by assumption.
    rewrite IH by (cbn in Hlen; try assumption; lia).
    apply vec3_eq; cbn; ring.
Qed.

Lemma objects_at_lookup {F : Type} (w : World F) ptrs os :
  objects_at w ptrs = Some os <->
  List.length ptrs = List.length os
  /\ forall i p o, ptrs !! i = Some p -> os !! i = Some o -> particles w !! p = Some o.
Proof.
  unfold objects_at. rewrite mapM_Some. apply Forall2_same_length_lookup.
Qed.

(** X7.  In exact arithmetic one [update] conserves the total momentum
    of the gathered particles, when no particle is gathered twice and no
    mass is zero: the Coulomb forces of every pair cancel. *)
Theorem update_conserves_momentum (w : World R) atom_ptrs molecules ptrs os (dt : R) :
  gathered w atom_ptrs = Some ptrs ->
  objects_at w ptrs = Some os ->
  NoDup ptrs ->
  Forall (fun o => m_mass (base o) <> 0%R) os ->
  exists w' os',
    PhysicsEngine.update (PhysicsEngine.mk (Some <$> atom_ptrs) molecules) dt w = Some (tt, w')
    /\ objects_at w' ptrs = Some os'
    /\ total (momentum <$> os') = total (momentum <$> os).
Proof.
  intros Hg Hos Hnd Hm. pose proof (objects_particles w _ _ Hos) as Hps.
  pose proof (proj1 (objects_at_lookup w ptrs os) Hos) as [Hlen Hlook].
  eexists. exists (zip_with (fun o f => Particle.updated o f dt) os (solve (base <$> os))).
  split; [exact (update_run dt w atom_ptrs molecules ptrs _ Hg Hps)|].
  split.
  - apply objects_at_lookup. split.
    + rewrite length_zip_with, solve_length, length_fmap. lia.
    + intros i p o' Hp Ho'. cbn [particles].
      apply lookup_zip_with_Some in Ho' as (o & f & -> & Ho & Hf).
      apply (step_particles_lookup dt ptrs (solve (base <$> os)) (particles w) i);
        try assumption.
      now apply (Hlook i).
  - rewrite momentum_total.
    + rewrite solve_total. apply vec3_eq; cbn; ring.
    + now rewrite solve_length, length_fmap.
    + exact Hm.
Qed.

Lemma update_conserves_momentum_witness :
  exists os,
    objects_at (F := R) hydrogen_helium_world
      [1%positive; 2%positive; 4%positive; 5%positive; 6%positive] = Some os
    /\ exists w' os',
    PhysicsEngine.update (F := R) (PhysicsEngine.mk (Some <$> [3%positive; 7%positive]) [])
      (1 / 60)%R hydrogen_helium_world = Some (tt, w')
    /\ objects_at w' [1%positive; 2%positive; 4%positive; 5%positive; 6%positive] = Some os'
    /\ total (momentum <$> os') = total (momentum <$> os).
Proof.
  eexists. split; [reflexivity|].
  apply (update_conserves_momentum hydrogen_helium_world [3%positive; 7%positive] []
           [1%positive; 2%positive; 4%positive; 5%positive; 6%positive]).
  - reflexivity.
  - reflexivity.
  - apply (bool_decide_unpack _). vm_compute. exact I.
  - repeat (apply Forall_cons_2;
              [cbn [m_mass base Nucleus.ctor Electron.ctor];
               change (int_sub 1 1) with 0%Z; change (int_sub 4 2) with 2%Z;
               exact_literals; lra|]).
    apply Forall_nil_2.
Defined.

(** ** Particles at rest on one point, in binary32 *)



Lemma same_point_refl (u : vec3 spec_float) : same_point u u.
Proof. repeat split; now left. Qed.








(** ** The atom list of the engine *)

Lemma foldl_addAtom (this : PhysicsEngine.t) (atom_list : list shared_ptr) :
  foldl PhysicsEngine.addAtom this atom_list
  = PhysicsEngine.mk (PhysicsEngine.m_atoms this ++ atom_list) (PhysicsEngine.m_molecules this).
Proof.
  revert this. induction atom_list as [|a l IH]; intros this.
  - cbn. rewrite app_nil_r. now destruct this.
  - cbn [foldl]. rewrite IH. cbn. now rewrite <- app_assoc.
Qed.

(** X9.  [addMolecule] lists the molecule and appends its atoms to the
    atom list of the engine, in their order and without looking for the
    atoms already listed: an atom of the molecule that the engine held
    is held twice afterwards. *)
Theorem addMolecule_appends (molecules : gmap ptr Molecule.t) (this : PhysicsEngine.t) m x :
  molecules !! m = Some x ->
  PhysicsEngine.addMolecule molecules this (Some m)
  = Some (PhysicsEngine.mk (PhysicsEngine.m_atoms this ++ Molecule.m_atoms x)
            (PhysicsEngine.m_molecules this ++ [Some m]))
  /\ forall a, a ∈ PhysicsEngine.m_atoms this -> a ∈ Molecule.m_atoms x ->
       ~ NoDup (PhysicsEngine.m_atoms this ++ Molecule.m_atoms x).
Proof.
  intros Hm. split.
  - unfold PhysicsEngine.addMolecule, Molecule.getAtoms. rewrite Hm. cbn [fmap option_fmap option_map].
    now rewrite foldl_addAtom.
  - intros a Ha Hx Hnd. apply NoDup_app in Hnd as (_ & Hdis & _). exact (Hdis a Ha Hx).
Qed.

Lemma addMolecule_appends_witness :
  PhysicsEngine.addMolecule
    (<[9%positive := Molecule.mk [Some 3%positive; Some 7%positive] []]> ∅)
    (PhysicsEngine.addAtom PhysicsEngine.ctor (Some 3%positive)) (Some 9%positive)
  = Some (PhysicsEngine.mk ([Some 3%positive] ++ [Some 3%positive; Some 7%positive])
            ([] ++ [Some 9%positive]))
  /\ forall a, a ∈ [Some 3%positive] -> a ∈ [Some 3%positive; Some 7%positive] ->
       ~ NoDup ([Some 3%positive] ++ [Some 3%positive; Some 7%positive]).
Proof.
  apply (addMolecule_appends
           (<[9%positive := Molecule.mk [Some 3%positive; Some 7%positive] []]> ∅)
           (PhysicsEngine.addAtom PhysicsEngine.ctor (Some 3%positive)) 9%positive
           (Molecule.mk [Some 3%positive; Some 7%positive] [])).
  reflexivity.
Defined.

(** ** Bond types and their energies *)

Section Bonds.
Context {F : Type} {SF : Scalar F}.

Lemma has_number_Some (w : World F) a x z :
  atoms w !! a = Some x ->
  BondCalculator.has_number (Some a) z w = Some ((m_atomicNumber x =? z)%Z, w).
Proof.
  intros E. unfold BondCalculator.has_number.
  assert (E' : m_atomicNumber <$> atoms w !! a = Some (m_atomicNumber x)) by now rewrite E.
  now step (Atom_getAtomicNumber_Some _ _ _ E').
Qed.

Lemma and_then_Some (a b : M F bool) (w : World F) x y :
  a w = Some (x, w) -> b w = Some (y, w) ->
  BondCalculator.and_then a b w = Some (x && y, w).
Proof.
  intros Ea Eb. unfold BondCalculator.and_then. step Ea. now destruct x.
Qed.

Lemma or_else_Some (a b : M F bool) (w : World F) x y :
  a w = Some (x, w) -> b w = Some (y, w) ->
  BondCalculator.or_else a b w = Some (x || y, w).
Proof.
  intros Ea Eb. unfold BondCalculator.or_else. step Ea. now destruct x.
Qed.

Lemma branch_Some {A} (c : M F bool) (a b : M F A) (w : World F) x :
  c w = Some (x, w) -> BondCalculator.branch c a b w = if x then a w else b w.
Proof.
  intros Ec. unfold BondCalculator.branch. step Ec. now destruct x.
Qed.

(** The bond type as a function of the two atomic numbers. *)
Lemma determineBondType_Some (w : World F) a1 a2 x1 x2 :
  atoms w !! a1 = Some x1 -> atoms w !! a2 = Some x2 ->
  BondCalculator.determineBondType (Some a1) (Some a2) w
  = Some (if ((m_atomicNumber x1 =? 8) && (m_atomicNumber x2 =? 8))%Z then Bond.DOUBLE
          else if ((m_atomicNumber x1 =? 7) && (m_atomicNumber x2 =? 7))%Z then Bond.TRIPLE
          else Bond.SINGLE, w).
Proof.
  intros E1 E2. unfold BondCalculator.determineBondType.
  pose proof (fun z => has_number_Some w a1 x1 z E1) as H1.
  pose proof (fun z => has_number_Some w a2 x2 z E2) as H2.
  rewrite (branch_Some _ _ _ w _ (and_then_Some _ _ w _ _ (H1 1%Z) (H2 1%Z))).
  rewrite (branch_Some _ _ _ w _
             (or_else_Some _ _ w _ _
                (and_then_Some _ _ w _ _ (H1 1%Z) (H2 8%Z))
                (and_then_Some _ _ w _ _ (H1 8%Z) (H2 1%Z)))).
  rewrite (branch_Some _ _ _ w _ (and_then_Some _ _ w _ _ (H1 8%Z) (H2 8%Z))).
  rewrite (branch_Some _ _ _ w _ (and_then_Some _ _ w _ _ (H1 7%Z) (H2 7%Z))).
  destruct (Z.eqb_spec (m_atomicNumber x1) 1), (Z.eqb_spec (m_atomicNumber x2) 1),
    (Z.eqb_spec (m_atomicNumber x1) 8), (Z.eqb_spec (m_atomicNumber x2) 8),
    (Z.eqb_spec (m_atomicNumber x1) 7), (Z.eqb_spec (m_atomicNumber x2) 7);
    try reflexivity; exfalso; lia.
Qed.
End Bonds.

(** X10.  The bond type of two live atoms does not depend on their order
    and is SINGLE, DOUBLE or TRIPLE, never IONIC, METALLIC or HYDROGEN:
    DOUBLE exactly for two oxygen atoms, TRIPLE exactly for two nitrogen
    atoms.  The world is left as it was. *)
Theorem determineBondType_symmetric {F : Type} {SF : Scalar F} (w : World F) a1 a2 x1 x2 :
  atoms w !! a1 = Some x1 ->
  atoms w !! a2 = Some x2 ->
  exists t,
    BondCalculator.determineBondType (Some a1) (Some a2) w = Some (t, w)
    /\ BondCalculator.determineBondType (Some a2) (Some a1) w = Some (t, w)
    /\ (t = Bond.SINGLE \/ t = Bond.DOUBLE \/ t = Bond.TRIPLE)
    /\ (t = Bond.DOUBLE <-> m_atomicNumber x1 = 8%Z /\ m_atomicNumber x2 = 8%Z)
    /\ (t = Bond.TRIPLE <-> m_atomicNumber x1 = 7%Z /\ m_atomicNumber x2 = 7%Z).
Proof.
  intros E1 E2. eexists.
  split; [exact (determineBondType_Some w a1 a2 x1 x2 E1 E2)|].
  split; [rewrite (determineBondType_Some w a2 a1 x2 x1 E2 E1);
          now rewrite (andb_comm (m_atomicNumber x2 =? 8)%Z),
                      (andb_comm (m_atomicNumber x2 =? 7)%Z)|].
  unfold Bond.SINGLE, Bond.DOUBLE, Bond.TRIPLE.
  destruct (Z.eqb_spec (m_atomicNumber x1) 8), (Z.eqb_spec (m_atomicNumber x2) 8),
    (Z.eqb_spec (m_atomicNumber x1) 7), (Z.eqb_spec (m_atomicNumber x2) 7);
    cbn [andb]; repeat split; auto; try (intros; exfalso; lia); try (intros [? ?]; lia).
Qed.

Lemma determineBondType_symmetric_witness :
  exists t,
    BondCalculator.determineBondType (Some 10%positive) (Some 19%positive)
      (oxygen_nitrogen_world (F := spec_float)) = Some (t, oxygen_nitrogen_world)
    /\ BondCalculator.determineBondType (Some 19%positive) (Some 10%positive)
         (oxygen_nitrogen_world (F := spec_float)) = Some (t, oxygen_nitrogen_world)
    /\ (t = Bond.SINGLE \/ t = Bond.DOUBLE \/ t = Bond.TRIPLE)
    /\ (t = Bond.DOUBLE <->
        m_atomicNumber (mk_Atom 8 16 (Some 1%positive) (Some <$> addresses 2 8)) = 8%Z
        /\ m_atomicNumber (mk_Atom 7 14 (Some 11%positive) (Some <$> addresses 12 7)) = 8%Z)
    /\ (t = Bond.TRIPLE <->
        m_atomicNumber (mk_Atom 8 16 (Some 1%positive) (Some <$> addresses 2 8)) = 7%Z
        /\ m_atomicNumber (mk_Atom 7 14 (Some 11%positive) (Some <$> addresses 12 7)) = 7%Z).
Proof.
  apply (determineBondType_symmetric (oxygen_nitrogen_world (F := spec_float))
           10%positive 19%positive).
  - reflexivity.
  - reflexivity.
Defined.

Lemma ctor_energy {F : Type} {SF : Scalar F} (type : Bond.Type_) :
  BondCalculator.m_bondEnergies (BondCalculator.ctor (F := F)) !! type
  = if (type =? 0)%Z then Some (flit 45 (-1))
    else if (type =? 1)%Z then Some (flit 80 (-1))
    else if (type =? 2)%Z then Some (flit 100 (-1))
    else if (type =? 3)%Z then Some (flit 50 (-1))
    else if (type =? 4)%Z then Some (flit 20 (-1))
    else if (type =? 5)%Z then Some (flit 2 (-1))
    else None.
Proof.
  unfold BondCalculator.ctor, BondCalculator.assign, Bond.SINGLE, Bond.DOUBLE, Bond.TRIPLE,
    Bond.IONIC, Bond.METALLIC, Bond.HYDROGEN.
  cbn [BondCalculator.m_bondEnergies].
  destruct (Z.eqb_spec type 0) as [->|?]; [reflexivity|].
  destruct (Z.eqb_spec type 1) as [->|?]; [reflexivity|].
  destruct (Z.eqb_spec type 2) as [->|?]; [reflexivity|].
  destruct (Z.eqb_spec type 3) as [->|?]; [reflexivity|].
  destruct (Z.eqb_spec type 4) as [->|?]; [reflexivity|].
  destruct (Z.eqb_spec type 5) as [->|?]; [reflexivity|].
  repeat (rewrite lookup_insert_ne by congruence). apply lookup_empty.
Qed.

(** X11.  The energy of the bond type determined for two live atoms is
    always found in the table of the constructor, so no warning is
    written: 8.0 eV for two oxygen atoms, 10.0 eV for two nitrogen
    atoms, 4.5 eV for every other pair. *)
Theorem determined_bond_energy {F : Type} {SF : Scalar F} (w : World F) a1 a2 x1 x2 :
  atoms w !! a1 = Some x1 ->
  atoms w !! a2 = Some x2 ->
  (BondCalculator.determineBondType (Some a1) (Some a2)
   ≫= BondCalculator.getBondEnergy BondCalculator.ctor) w
  = Some (if ((m_atomicNumber x1 =? 8) && (m_atomicNumber x2 =? 8))%Z then flit 80 (-1)
          else if ((m_atomicNumber x1 =? 7) && (m_atomicNumber x2 =? 7))%Z then flit 100 (-1)
          else flit 45 (-1), w).
Proof.
  intros E1 E2. step (determineBondType_Some w a1 a2 x1 x2 E1 E2).
  unfold BondCalculator.getBondEnergy. rewrite ctor_energy.
  destruct ((m_atomicNumber x1 =? 8) && (m_atomicNumber x2 =? 8))%Z; [reflexivity|].
  destruct ((m_atomicNumber x1 =? 7) && (m_atomicNumber x2 =? 7))%Z; reflexivity.
Qed.

Lemma determined_bond_energy_witness :
  (BondCalculator.determineBondType (Some 10%positive) (Some 19%positive)
   ≫= BondCalculator.getBondEnergy BondCalculator.ctor)
    (oxygen_nitrogen_world (F := spec_float))
  = Some (if ((8 =? 8) && (7 =? 8))%Z then flit 80 (-1)
          else if ((8 =? 7) && (7 =? 7))%Z then flit 100 (-1)
          else flit 45 (-1), oxygen_nitrogen_world).
Proof.
  apply (determined_bond_energy (oxygen_nitrogen_world (F := spec_float))
           10%positive 19%positive
           (mk_Atom 8 16 (Some 1%positive) (Some <$> addresses 2 8))
           (mk_Atom 7 14 (Some 11%positive) (Some <$> addresses 12 7))).
  - reflexivity.
  - reflexivity.
Defined.

(** X12.  [getBondEnergy] on a value of [Bond::Type] that is none of the
    six enumerators returns 0.0 and writes one warning with the value to
    [std::cerr]; on an enumerator it returns the energy of the table and
    writes nothing. *)
Theorem getBondEnergy_unknown_type {F : Type} {SF : Scalar F} (w : World F)
    (type : Bond.Type_) :
  (type < 0 \/ 5 < type)%Z ->
  BondCalculator.getBondEnergy BondCalculator.ctor type w
  = Some (flit 0 0,
          with_cerr w [Text "Warning: Bond energy not found for type: "; Int type; Endl])
  /\ forall known, (0 <= known <= 5)%Z ->
       exists energy,
         BondCalculator.getBondEnergy BondCalculator.ctor known w = Some (energy, w)
         /\ BondCalculator.m_bondEnergies BondCalculator.ctor !! known = Some energy.
Proof.
  intros Hout. split.
  - unfold BondCalculator.getBondEnergy. rewrite ctor_energy.
    repeat (match goal with |- context [(type =? ?k)%Z] => destruct (Z.eqb_spec type k); [exfalso; lia|] end).
    reflexivity.
  - intros known Hin.
    assert (Hk : (known = 0 \/ known = 1 \/ known = 2 \/ known = 3 \/ known = 4
                  \/ known = 5)%Z) by lia.
    destruct Hk as [->|[->|[->|[->|[->| ->]]]]]; eexists; split; reflexivity.
Qed.

Lemma getBondEnergy_unknown_type_witness :
  BondCalculator.getBondEnergy BondCalculator.ctor 6%Z (empty_world (F := spec_float))
  = Some (flit 0 0,
          with_cerr empty_world
            [Text "Warning: Bond energy not found for type: "; Int 6%Z; Endl])
  /\ forall known, (0 <= known <= 5)%Z ->
       exists energy,
         BondCalculator.getBondEnergy BondCalculator.ctor known (empty_world (F := spec_float))
         = Some (energy, empty_world)
         /\ BondCalculator.m_bondEnergies BondCalculator.ctor !! known = Some energy.
Proof.
  apply (getBondEnergy_unknown_type (empty_world (F := spec_float)) 6%Z). right. lia.
Defined.

(** ** Signs in binary32 *)


Lemma binary_round_aux_sign s m e l :
  sign_bit (binary_round_aux Binary32.prec Binary32.emax s m e l) = s
  \/ binary_round_aux Binary32.prec Binary32.emax s m e l = S754_nan.
Proof.
  unfold binary_round_aux.
  destruct (shr_fexp _ _ m e l) as [mrs' e'].
  destruct (shr_fexp _ _ _ e' loc_Exact) as [mrs'' e''].
  destruct (shr_m mrs''); [now left| |now right].
  destruct (_ <=? _)%Z; now left.
Qed.





(** ** The photon of a jump *)

Lemma literal_1240 : flit (F := spec_float) 1240 0 = S754_finite false 10158080 (-13).
Proof. vm_compute. reflexivity. Qed.

Lemma fdiv_positive_sign (p : positive) (e : Z) (y : spec_float) :
  sign_bit (S754_finite false p e / SFabs y)%fl = false.
Proof.
  cbn [fdiv binary32]. destruct y as [s|s| |s m e']; try reflexivity.
  cbn [SFabs SFdiv]. destruct (SFdiv_core_binary _ _ _ _ _ _) as [[mz ez] lz].
  cbn [xorb]. destruct (binary_round_aux_sign false mz ez lz) as [H|H]; [exact H|].
  now rewrite H.
Qed.

(** X13.  The wavelength of a photon does not depend on the sign of the
    energy: emission and absorption of the same energy give the same
    wavelength, bit for bit.  The function of the header and the one of
    the source file agree on every float.  The wavelength never has the
    sign bit set, and it is +infinity exactly when the energy is a zero,
    +0 or -0. *)
Theorem energyToWavelengthNm_even (deltaE : spec_float) :
  Photon.energyToWavelengthNm (SFopp deltaE) = Photon.energyToWavelengthNm deltaE
  /\ Photon.energyToWavelengthNm_cpp deltaE = Photon.energyToWavelengthNm deltaE
  /\ sign_bit (Photon.energyToWavelengthNm deltaE) = false
  /\ (SFeqb deltaE (S754_zero false) = true ->
      Photon.energyToWavelengthNm deltaE = S754_infinity false).
Proof.
  unfold Photon.energyToWavelengthNm, Photon.energyToWavelengthNm_cpp, Photon.fneb,
    Photon.INFINITY.
  change (flit (F := spec_float) 0 0) with (S754_zero false). rewrite literal_1240.
  split; [|split; [|split]].
  - destruct deltaE as [s|s| |s m e]; try reflexivity; now destruct s.
  - now destruct (SFeqb deltaE (S754_zero false)).
  - destruct (SFeqb deltaE (S754_zero false)); [reflexivity|]. cbn [negb].
    apply fdiv_positive_sign.
  - now intros ->.
Qed.

(** X14.  The band reported for a jump does not depend on its direction.
    A jump that releases no energy (the energy is +0 or -0) and a jump
    whose energy is NaN are classified INFRARED; an infinite energy is
    classified ULTRAVIOLET. *)
Theorem classifyBand_of_photon (deltaE : spec_float) :
  Photon.classifyBand (Photon.energyToWavelengthNm (SFopp deltaE))
  = Photon.classifyBand (Photon.energyToWavelengthNm deltaE)
  /\ (forall s, deltaE = S754_zero s ->
        Photon.classifyBand (Photon.energyToWavelengthNm deltaE) = Photon.INFRARED)
  /\ (deltaE = S754_nan ->
        Photon.classifyBand (Photon.energyToWavelengthNm deltaE) = Photon.INFRARED)
  /\ (forall s, deltaE = S754_infinity s ->
        Photon.classifyBand (Photon.energyToWavelengthNm deltaE) = Photon.ULTRAVIOLET).
Proof.
  split; [|split; [|split]].
  - f_equal. unfold Photon.energyToWavelengthNm, Photon.fneb.
    destruct deltaE as [s|s| |s m e]; try reflexivity; now destruct s.
  - intros s ->. now destruct s.
  - now intros ->.
  - intros s ->. now destruct s.
Qed.

(** ** A jump and the jump back *)



(** ** [MathUtils] *)


Lemma exact_ltb_true (a b : R) : (a <? b)%fl = true <-> (a < b)%R.
Proof. cbn [fltb exact]. unfold Exact.ltb. destruct (Rlt_dec a b); split; auto; discriminate. Qed.

Lemma exact_ltb_false (a b : R) : (a <? b)%fl = false <-> (b <= a)%R.
Proof.
  cbn [fltb exact]. unfold Exact.ltb.
  destruct (Rlt_dec a b); split; auto; try discriminate; lra.
Qed.

(** X17.  In exact arithmetic [normalize] returns the zero vector for a
    vector of magnitude at most 1e-9, and otherwise a vector of
    magnitude exactly 1 that [normalize] maps to itself. *)
Theorem normalize_unit (v : vec3 R) :
  ((MathUtils.magnitude v <= flit 1 (-9))%R
   /\ MathUtils.normalize v = glm.splat 0%R)
  \/ ((flit 1 (-9) < MathUtils.magnitude v)%R
      /\ MathUtils.magnitude (MathUtils.normalize v) = 1%R
      /\ MathUtils.normalize (MathUtils.normalize v) = MathUtils.normalize v).
Proof.
  assert (Hlit : (0 < flit (F := R) 1 (-9))%R) by (exact_literals; lra).
  assert (Hone : (flit (F := R) 1 (-9) < 1)%R) by (exact_literals; lra).
  unfold MathUtils.normalize.
  destruct (flit 1 (-9) <? MathUtils.magnitude v)%fl eqn:Hcmp.
  - right. apply exact_ltb_true in Hcmp. split; [exact Hcmp|].
    set (m := MathUtils.magnitude v) in *.
    assert (Hm : (0 < m)%R) by lra.
    assert (Hsq : (m * m = vx v * vx v + vy v * vy v + vz v * vz v)%R).
    { subst m. unfold MathUtils.magnitude, glm.length, glm.dot. cbn [fsqrt fadd fmul exact].
      apply sqrt_sqrt. nra. }
    assert (Hunit : MathUtils.magnitude (glm.over v m) = 1%R).
    { unfold MathUtils.magnitude, glm.length, glm.dot, glm.over.
      cbn [vx vy vz fsqrt fadd fmul fdiv exact].
      replace (vx v / m * (vx v / m) + vy v / m * (vy v / m) + vz v / m * (vz v / m))%R
        with 1%R; [apply sqrt_1|].
      field_simplify_eq; [|lra]. lra. }
    split; [exact Hunit|].
    rewrite Hunit.
    assert (H1 : (flit 1 (-9) <? 1%R)%fl = true) by now apply exact_ltb_true.
    rewrite H1. apply vec3_eq; cbn [glm.over vx vy vz fdiv exact]; field; lra.
  - left. apply exact_ltb_false in Hcmp. split; [exact Hcmp|].
    apply vec3_eq; cbn; change (IZR (0 * 10 ^ 0)) with 0%R; reflexivity.
Qed.

(** ** Comparisons in binary32 *)

Lemma SFltb_SFleb (x y : spec_float) : SFltb x y = true -> SFleb x y = true.
Proof. unfold SFltb, SFleb. now destruct (SFcompare x y) as [[]|]. Qed.

Lemma SFcompare_refl (x : spec_float) : x <> S754_nan -> SFcompare x x = Some Eq.
Proof.
  destruct x as [s|s| |s m e]; intros Hx; [reflexivity|now destruct s|congruence|].
  cbn [SFcompare]. destruct s; now rewrite Z.compare_refl, Pos.compare_refl.
Qed.

Lemma SFleb_refl (x : spec_float) : x <> S754_nan -> SFleb x x = true.
Proof. intros Hx. unfold SFleb. now rewrite SFcompare_refl. Qed.

Lemma SFleb_not_nan (x y : spec_float) :
  SFleb x y = true -> x <> S754_nan /\ y <> S754_nan.
Proof.
  unfold SFleb. destruct x as [s|s| |s m e], y as [s'|s'| |s' m' e']; cbn;
    try discriminate; intros _; split; discriminate.
Qed.

Lemma SFcompare_swap (x y : spec_float) :
  SFcompare y x = CompOpp <$> SFcompare x y.
Proof.
  destruct x as [s|s| |s m e], y as [s'|s'| |s' m' e']; try reflexivity;
    try (destruct s; try destruct s'; reflexivity); try (destruct s'; reflexivity).
  cbn [SFcompare fmap option_fmap option_map]. f_equal.
  fold (Pos.compare m' m). fold (Pos.compare m m').
  rewrite (Z.compare_antisym e e'), (Pos.compare_antisym m m').
  destruct s, s'; try reflexivity;
    destruct (e ?= e')%Z; cbn [CompOpp]; try reflexivity;
    destruct (m ?= m')%positive; reflexivity.
Qed.

(** Floats that compare equal compare alike with every float. *)
Lemma SFcompare_Eq (x y z : spec_float) :
  SFcompare x y = Some Eq -> SFcompare x z = SFcompare y z.
Proof.
  destruct x as [s|s| |s m e], y as [s'|s'| |s' m' e']; try discriminate;
    try (destruct s; discriminate); try (destruct s'; discriminate).
  - reflexivity.
  - destruct s, s'; try discriminate; reflexivity.
  - cbn [SFcompare]. fold (Pos.compare m m').
    destruct s, s'; try discriminate;
      destruct (e ?= e')%Z eqn:Ee; try discriminate;
      destruct (m ?= m')%positive eqn:Em; try discriminate;
      apply Z.compare_eq in Ee; apply Pos.compare_eq in Em; subst; reflexivity.
Qed.

Lemma SFleb_not_SFltb (x y : spec_float) :
  SFleb x y = true -> SFltb x y = false -> SFcompare x y = Some Eq.
Proof. unfold SFleb, SFltb. destruct (SFcompare x y) as [[]|]; congruence. Qed.

Lemma SFeqb_sym (x y : spec_float) : SFcompare x y = Some Eq -> SFeqb y x = true.
Proof. intros H. unfold SFeqb. now rewrite SFcompare_swap, H. Qed.

(** X18.  In binary32, for bounds with min <= max, [clamp] returns one
    of its three arguments, never NaN, within the bounds, whatever the
    value is: a NaN value is clamped to a bound.  A value that is
    neither below min nor above max is returned as it is, up to the sign
    of a zero. *)
Theorem clamp_within_bounds (value min max : spec_float) :
  SFleb min max = true ->
  let r := MathUtils.clamp value min max in
  SFleb min r = true /\ SFleb r max = true
  /\ (r = value \/ r = min \/ r = max)
  /\ (value = S754_nan -> r = min \/ r = max)
  /\ (SFleb min value = true -> SFleb value max = true -> SFeqb value r = true).
Proof.
  intros Hb. destruct (SFleb_not_nan _ _ Hb) as [Hmin Hmax].
  pose proof (SFleb_refl min Hmin) as Rmin. pose proof (SFleb_refl max Hmax) as Rmax.
  cbv zeta. unfold MathUtils.clamp, MathUtils.std_max, MathUtils.std_min.
  cbn [fltb binary32].
  destruct (SFltb value max) eqn:Hvm.
  - assert (Hv : value <> S754_nan) by (intros ->; discriminate).
    destruct (SFltb min value) eqn:Hlv.
    + split; [now apply SFltb_SFleb|]. split; [now apply SFltb_SFleb|].
      split; [now left|]. split; [intros ->; discriminate|].
      intros _ _. unfold SFeqb. now rewrite SFcompare_refl.
    + split; [exact Rmin|]. split; [exact Hb|].
      split; [right; now left|]. split; [intros _; now left|].
      intros Hl _. apply SFeqb_sym. now apply SFleb_not_SFltb.
  - destruct (SFltb min max) eqn:Hlm.
    + split; [exact Hb|]. split; [exact Rmax|].
      split; [right; now right|]. split; [intros _; now right|].
      intros _ Hv. unfold SFeqb. now rewrite (SFleb_not_SFltb _ _ Hv Hvm).
    + split; [exact Rmin|]. split; [exact Hb|].
      split; [right; now left|]. split; [intros _; now left|].
      intros _ Hv. pose proof (SFleb_not_SFltb _ _ Hb Hlm) as Eb.
      pose proof (SFleb_not_SFltb _ _ Hv Hvm) as Ev.
      unfold SFeqb. rewrite SFcompare_swap, (SFcompare_Eq _ _ value Eb).
      now rewrite SFcompare_swap, Ev.
Qed.

Lemma clamp_within_bounds_witness :
  let r := MathUtils.clamp S754_nan (flit (F := spec_float) 0 0) (flit 1 0) in
  SFleb (flit 0 0) r = true /\ SFleb r (flit 1 0) = true
  /\ (r = S754_nan \/ r = flit 0 0 \/ r = flit 1 0)
  /\ (S754_nan = S754_nan -> r = flit 0 0 \/ r = flit 1 0)
  /\ (SFleb (flit 0 0) S754_nan = true -> SFleb S754_nan (flit 1 0) = true ->
      SFeqb S754_nan r = true).
Proof.
  apply (clamp_within_bounds S754_nan (flit 0 0) (flit 1 0)). vm_compute. reflexivity.
Defined.

(** X19.  In exact arithmetic [lerp] returns a at t = 0 and b at t = 1,
    and for t between 0 and 1 a value between a and b. *)
Theorem lerp_between (a b t : R) :
  (0 <= t <= 1)%R ->
  MathUtils.lerp a b 0%R = a
  /\ MathUtils.lerp a b 1%R = b
  /\ (Rmin a b <= MathUtils.lerp a b t <= Rmax a b)%R.
Proof.
  intros Ht. unfold MathUtils.lerp. cbn [fadd fmul fsub exact].
  split; [ring|]. split; [ring|].
  unfold Rmin, Rmax. destruct (Rle_dec a b); split; nra.
Qed.

Lemma lerp_between_witness :
  MathUtils.lerp 2%R 6%R 0%R = 2%R
  /\ MathUtils.lerp 2%R 6%R 1%R = 6%R
  /\ (Rmin 2 6 <= MathUtils.lerp 2%R 6%R (1 / 4)%R <= Rmax 2 6)%R.
Proof.
  apply (lerp_between 2%R 6%R (1 / 4)%R). lra.
Defined.

(** ** The Coulomb solver in exact arithmetic *)

Section ExactForces.

Lemma foldl_same {A B} (f g : A -> B -> A) (l : list B) (a : A) :
  (forall x y, y ∈ l -> f x y = g x y) -> foldl f a l = foldl g a l.
Proof.
  revert a. induction l as [|y l IH]; intros a H; [reflexivity|].
  cbn [foldl]. rewrite (H a y) by (apply elem_of_cons; now left).
  apply IH. intros x z Hz. apply H. apply elem_of_cons. now right.
Qed.

Lemma pair_force_translated (t : vec3 R) (p_i p_j : Particle R) :
  pair_force (translated t p_i) (translated t p_j) = pair_force p_i p_j.
Proof.
  unfold pair_force, translated. cbn [m_position m_charge].
  assert (E : glm.sub (glm.add (m_position p_i) t) (glm.add (m_position p_j) t)
              = glm.sub (m_position p_i) (m_position p_j))
    by (apply vec3_eq; cbn; ring).
  now rewrite E.
Qed.

Lemma solve_same (ps qs : list (Particle R)) :
  List.length qs = List.length ps ->
  (forall i j, force_between qs i j = force_between ps i j) ->
  solve qs = solve ps.
Proof.
  intros Hlen H. unfold solve. rewrite Hlen.
  apply foldl_same. intros forces i _.
  apply foldl_same. intros forces' j _.
  unfold pair_step. now rewrite H.
Qed.

Lemma solve_translated (t : vec3 R) (ps : list (Particle R)) :
  solve (translated t <$> ps) = solve ps.
Proof.
  apply solve_same; [apply length_fmap|].
  intros i j. unfold force_between. rewrite !list_lookup_fmap.
  destruct (ps !! i) as [p_i|]; [|reflexivity].
  destruct (ps !! j) as [p_j|]; [|reflexivity].
  apply pair_force_translated.
Qed.

Lemma pair_force_neutral (p_i p_j : Particle R) :
  m_charge p_i = 0%R \/ m_charge p_j = 0%R ->
  pair_force p_i p_j = None \/ pair_force p_i p_j = Some (glm.splat 0%R).
Proof.
  intros Hq. unfold pair_force. destruct (_ <? _)%fl; [now left|]. right. f_equal.
  apply vec3_eq; cbn; destruct Hq as [-> | ->]; unfold Rdiv; ring.
Qed.

Lemma force_between_neutral (ps : list (Particle R)) i j :
  (exists p, ps !! i = Some p /\ m_charge p = 0%R)
  \/ (exists p, ps !! j = Some p /\ m_charge p = 0%R) ->
  force_between ps i j = None \/ force_between ps i j = Some (glm.splat 0%R).
Proof.
  intros H. unfold force_between.
  destruct (ps !! i) as [p_i|] eqn:Ei; [|now left].
  destruct (ps !! j) as [p_j|] eqn:Ej; [|now left].
  apply pair_force_neutral.
  destruct H as [(p & [= <-] & Hp)|(p & [= <-] & Hp)]; auto.
Qed.

Lemma net_force_neutral (ps : list (Particle R)) k p :
  ps !! k = Some p -> m_charge p = 0%R -> net_force ps k = glm.splat 0%R.
Proof.
  intros Ek Hq. unfold net_force.
  assert (H1 : forall l acc,
             foldl (fun acc i => minus_force acc (force_between ps i k)) acc l = acc).
  { induction l as [|i l IH]; intros acc; [reflexivity|]. cbn [foldl].
    destruct (force_between_neutral ps i k) as [-> | ->]; [right; eauto| |].
    - apply IH.
    - cbn [minus_force]. rewrite IH. apply vec3_eq; cbn; ring. }
  assert (H2 : forall l acc,
             foldl (fun acc j => plus_force acc (force_between ps k j)) acc l = acc).
  { induction l as [|j l IH]; intros acc; [reflexivity|]. cbn [foldl].
    destruct (force_between_neutral ps k j) as [-> | ->]; [left; eauto| |].
    - apply IH.
    - cbn [plus_force]. rewrite IH. apply vec3_eq; cbn; ring. }
  rewrite H2, H1. apply vec3_eq; cbn; change (IZR (0 * 10 ^ 0)) with 0%R; reflexivity.
Qed.
End ExactForces.

(** X20.  In exact arithmetic the forces do not depend on where the
    origin is: moving every particle by the same vector leaves every
    force of [calculateForces] as it was. *)
Theorem calculateForces_translation (w w' : World R) ptrs ptrs' ps (t : vec3 R) :
  particles_at w ptrs = Some ps ->
  particles_at w' ptrs' = Some (translated t <$> ps) ->
  fst <$> CoulombSolver.calculateForces (Some <$> ptrs') w'
  = fst <$> CoulombSolver.calculateForces (Some <$> ptrs) w
  /\ is_Some (CoulombSolver.calculateForces (Some <$> ptrs) w).
Proof.
  intros Hps Hps'.
  rewrite (calculateForces_pure w ptrs ps Hps).
  rewrite (calculateForces_pure w' ptrs' _ Hps').
  cbn [fmap option_fmap option_map fst]. split; [|eauto].
  now rewrite solve_translated.
Qed.

Lemma calculateForces_translation_witness :
  fst <$> CoulombSolver.calculateForces (Some <$> [1%positive; 2%positive; 3%positive])
            (translated_protons_world (mk_vec3 2 3 4)%R)
  = fst <$> CoulombSolver.calculateForces (Some <$> [1%positive; 2%positive; 3%positive])
              (three_protons_world (F := R))
  /\ is_Some (CoulombSolver.calculateForces (Some <$> [1%positive; 2%positive; 3%positive])
                (three_protons_world (F := R))).
Proof.
  apply (calculateForces_translation three_protons_world
           (translated_protons_world (mk_vec3 2 3 4)%R)
           [1%positive; 2%positive; 3%positive] [1%positive; 2%positive; 3%positive]
           three_protons (mk_vec3 2 3 4)%R).
  - reflexivity.
  - reflexivity.
Defined.

(** X21.  In exact arithmetic a particle without charge feels no force:
    its entry in the result of [calculateForces] is the zero vector,
    wherever the other particles are. *)
Theorem calculateForces_neutral (w : World R) ptrs ps k p :
  particles_at w ptrs = Some ps ->
  ps !! k = Some p ->
  m_charge p = 0%R ->
  exists forces,
    CoulombSolver.calculateForces (Some <$> ptrs) w = Some (forces, w)
    /\ forces !! k = Some (glm.splat 0%R).
Proof.
  intros Hps Ek Hq. exists (solve ps).
  split; [now apply calculateForces_pure|].
  rewrite solve_lookup by (eapply lookup_lt_Some; eassumption).
  f_equal. now apply (net_force_neutral ps k p).
Qed.

Lemma calculateForces_neutral_witness :
  exists forces,
    CoulombSolver.calculateForces (Some <$> [1%positive; 2%positive; 3%positive])
      (proton_neutron_proton_world (F := R)) = Some (forces, proton_neutron_proton_world)
    /\ forces !! 1 = Some (glm.splat 0%R).
Proof.
  apply (calculateForces_neutral proton_neutron_proton_world
           [1%positive; 2%positive; 3%positive]
           [base (proton_at 0); base (neutron_at 1); base (proton_at 5)] 1
           (base (neutron_at 1))).
  - reflexivity.
  - reflexivity.
  - cbn [m_charge base neutron_at]. exact_literals. reflexivity.
Defined.

(** ** [ConfigManager::trim] *)

Lemma append_cons (c : ascii) (s t : string) :
  (String c s ++ t)%string = String c (s ++ t)%string.
Proof. reflexivity. Qed.

Lemma append_nil (t : string) : (EmptyString ++ t)%string = t.
Proof. reflexivity. Qed.

Lemma find_first_not_of_None (s : string) :
  Str.find_first_not_of " " s = None -> strip_left s = EmptyString.
Proof.
  induction s as [|a s IH]; [reflexivity|]. cbn [Str.find_first_not_of strip_left].
  destruct (Ascii.eqb a " "); [|discriminate].
  destruct (Str.find_first_not_of " " s); [discriminate|]. intros _. now apply IH.
Qed.

Lemma find_first_not_of_Some (s : string) i :
  Str.find_first_not_of " " s = Some i ->
  s = (spaces i ++ strip_left s)%string
  /\ (forall len, substring i len s = substring 0 len (strip_left s))
  /\ first_char (strip_left s) <> Some " "%char
  /\ strip_left s <> EmptyString.
Proof.
  revert i. induction s as [|a s IH]; intros i; [discriminate|].
  cbn [Str.find_first_not_of strip_left]. destruct (Ascii.eqb_spec a " ") as [->|Ha].
  - destruct (Str.find_first_not_of " " s) as [j|]; [|discriminate].
    intros [= <-]. destruct (IH j eq_refl) as (E & Hsub & Hfirst & Hne).
    split; [cbn [spaces]; rewrite append_cons; f_equal; exact E|]. split; [|split; assumption].
    intros len. cbn [substring]. rewrite <- Hsub. now destruct len.
  - intros [= <-]. split; [reflexivity|]. split; [reflexivity|].
    split; [cbn; congruence|discriminate].
Qed.

Lemma find_last_not_of_strip_left (s : string) i :
  Str.find_first_not_of " " s = Some i ->
  exists l, Str.find_last_not_of " " (strip_left s) = Some l
            /\ Str.find_last_not_of " " s = Some (i + l).
Proof.
  revert i. induction s as [|a s IH]; intros i; [discriminate|].
  cbn [Str.find_first_not_of strip_left]. destruct (Ascii.eqb_spec a " ") as [->|Ha].
  - destruct (Str.find_first_not_of " " s) as [j|]; [|discriminate].
    intros [= <-]. destruct (IH j eq_refl) as (l & El & Es).
    exists l. split; [exact El|]. cbn [Str.find_last_not_of]. now rewrite Es.
  - intros [= <-]. cbn [Str.find_last_not_of].
    destruct (Str.find_last_not_of " " s) as [j|]; [eauto|].
    destruct (Ascii.eqb_spec a " "); [contradiction|eauto].
Qed.

Lemma strip_right_empty (t : string) :
  strip_right t = EmptyString <-> Str.find_last_not_of " " t = None.
Proof.
  induction t as [|a t IH]; [split; reflexivity|].
  cbn [strip_right Str.find_last_not_of].
  destruct (strip_right t) as [|c r]; destruct (Str.find_last_not_of " " t) as [j|].
  - destruct IH as [IH _]. now specialize (IH eq_refl).
  - destruct (Ascii.eqb a " "); split; auto; discriminate.
  - split; discriminate.
  - destruct IH as [_ IH]. now specialize (IH eq_refl).
Qed.

Lemma find_last_not_of_Some (t : string) l :
  Str.find_last_not_of " " t = Some l -> substring 0 (l + 1) t = strip_right t.
Proof.
  revert l. induction t as [|a t IH]; intros l; [discriminate|].
  cbn [Str.find_last_not_of strip_right].
  destruct (Str.find_last_not_of " " t) as [j|] eqn:Ej.
  - intros [= <-]. cbn [Nat.add substring]. rewrite (IH j eq_refl).
    destruct (strip_right t) eqn:Er; [|reflexivity].
    apply strip_right_empty in Er. congruence.
  - destruct (Ascii.eqb a " "); [discriminate|]. intros [= <-].
    cbn [Nat.add substring]. rewrite (proj2 (strip_right_empty t) Ej).
    now destruct t.
Qed.

(** [trim] drops the leading blanks, then the trailing blanks. *)
Lemma trim_strip (s : string) : ConfigManager.trim s = strip_right (strip_left s).
Proof.
  unfold ConfigManager.trim.
  destruct (Str.find_first_not_of " " s) as [i|] eqn:Ei.
  - destruct (find_last_not_of_strip_left s i Ei) as (l & El & Es).
    destruct (find_first_not_of_Some s i Ei) as (_ & Hsub & _).
    rewrite Es. unfold Str.substr. rewrite Hsub.
    replace (i + l - i + 1) with (l + 1) by lia. now apply find_last_not_of_Some.
  - now rewrite (find_first_not_of_None s Ei).
Qed.

Lemma strip_left_spaces (s : string) :
  exists n, s = (spaces n ++ strip_left s)%string.
Proof.
  induction s as [|a s [n IH]]; [now exists 0|]. cbn [strip_left].
  destruct (Ascii.eqb_spec a " ") as [->|Ha]; [|now exists 0].
  exists (S n). cbn [spaces]. rewrite append_cons. f_equal. exact IH.
Qed.

Lemma strip_right_spaces (t : string) :
  exists m, t = (strip_right t ++ spaces m)%string.
Proof.
  induction t as [|a t [m IH]]; [now exists 0|]. cbn [strip_right].
  destruct (strip_right t) as [|c r] eqn:Er.
  - destruct (Ascii.eqb_spec a " ") as [->|Ha].
    + exists (S m). rewrite append_nil in *. cbn [spaces]. f_equal. exact IH.
    + exists m. rewrite append_cons, append_nil in *. f_equal. exact IH.
  - exists m. rewrite !append_cons in *. f_equal. exact IH.
Qed.

Lemma strip_left_first (s : string) : first_char (strip_left s) <> Some " "%char.
Proof.
  induction s as [|a s IH]; [discriminate|]. cbn [strip_left].
  destruct (Ascii.eqb_spec a " ") as [->|Ha]; [exact IH|cbn; congruence].
Qed.

Lemma strip_right_last (t : string) : last_char (strip_right t) <> Some " "%char.
Proof.
  induction t as [|a t IH]; [discriminate|]. cbn [strip_right].
  destruct (strip_right t) as [|c r] eqn:Er.
  - destruct (Ascii.eqb_spec a " ") as [->|Ha]; [discriminate|cbn; congruence].
  - exact IH.
Qed.

Lemma strip_right_first (t : string) :
  first_char t <> Some " "%char -> first_char (strip_right t) <> Some " "%char.
Proof.
  destruct t as [|a t]; [discriminate|]. cbn [strip_right first_char]. intros Ha.
  destruct (strip_right t); [|exact Ha].
  destruct (Ascii.eqb a " "); [discriminate|exact Ha].
Qed.

Lemma strip_left_id (s : string) : first_char s <> Some " "%char -> strip_left s = s.
Proof.
  destruct s as [|a s]; [reflexivity|]. cbn. intros Ha.
  destruct (Ascii.eqb_spec a " ") as [->|]; [congruence|reflexivity].
Qed.

Lemma strip_right_id (t : string) : last_char t <> Some " "%char -> strip_right t = t.
Proof.
  induction t as [|a t IH]; [reflexivity|]. cbn [last_char strip_right].
  destruct t as [|b t].
  - cbn. intros Ha. destruct (Ascii.eqb_spec a " ") as [->|]; [congruence|reflexivity].
  - intros Hl. rewrite (IH Hl). reflexivity.
Qed.

Lemma trim_id (s : string) :
  first_char s <> Some " "%char -> last_char s <> Some " "%char -> ConfigManager.trim s = s.
Proof.
  intros Hf Hl. now rewrite trim_strip, (strip_left_id s Hf), (strip_right_id s Hl).
Qed.

Lemma trim_strips_ends (s : string) :
  first_char (ConfigManager.trim s) <> Some " "%char
  /\ last_char (ConfigManager.trim s) <> Some " "%char.
Proof.
  rewrite trim_strip. split.
  - apply strip_right_first, strip_left_first.
  - apply strip_right_last.
Qed.

(** X22.  [trim] removes the blanks at both ends and nothing else: the
    string is its trimmed part between two runs of blanks, the trimmed
    part neither starts nor ends with a blank, and trimming it again
    changes nothing.  Tabs, carriage returns and inner blanks stay. *)
Theorem trim_strips (s : string) :
  (exists n m, s = (spaces n ++ ConfigManager.trim s ++ spaces m)%string)
  /\ first_char (ConfigManager.trim s) <> Some " "%char
  /\ last_char (ConfigManager.trim s) <> Some " "%char
  /\ ConfigManager.trim (ConfigManager.trim s) = ConfigManager.trim s.
Proof.
  pose proof (strip_right_first _ (strip_left_first s)) as Hf.
  pose proof (strip_right_last (strip_left s)) as Hl.
  rewrite !trim_strip. split; [|split; [exact Hf|split; [exact Hl|]]].
  - destruct (strip_left_spaces s) as [n En].
    destruct (strip_right_spaces (strip_left s)) as [m Em].
    exists n, m. now rewrite <- Em.
  - rewrite <- !trim_strip. apply trim_id; rewrite trim_strip; assumption.
Qed.

(** ** The getters and setters of [ConfigManager] *)

(** X23.  A boolean that [setBool] stores is what [getBool] returns for
    the key, whatever the default, and nothing is written; the other
    keys read as before, and a key that is not stored reads as the
    default. *)
Theorem setBool_getBool {F : Type} (this : ConfigManager.t) (key : string) (b d : bool)
    (w : World F) :
  ConfigManager.getBool (ConfigManager.setBool this key b) key d w = Some (b, w)
  /\ (forall other, other <> key ->
        ConfigManager.getBool (ConfigManager.setBool this key b) other d w
        = ConfigManager.getBool this other d w)
  /\ (this !! key = None -> ConfigManager.getBool this key d w = Some (d, w)).
Proof.
  unfold ConfigManager.getBool, ConfigManager.setBool. split; [|split].
  - rewrite lookup_insert_eq. now destruct b.
  - intros other Hne. now rewrite lookup_insert_ne by congruence.
  - now intros ->.
Qed.

(** *** Decimal digits *)

Lemma digit_cases (d : Z) :
  (0 <= d < 10)%Z ->
  (d = 0 \/ d = 1 \/ d = 2 \/ d = 3 \/ d = 4 \/ d = 5 \/ d = 6 \/ d = 7 \/ d = 8 \/ d = 9)%Z.
Proof. lia. Qed.

Lemma digit_value (d : Z) :
  (0 <= d < 10)%Z ->
  Str.isdigit (Str.digit d) = true
  /\ (Z.of_nat (nat_of_ascii (Str.digit d)) - 48 = d)%Z
  /\ Str.isspace (Str.digit d) = false
  /\ Str.digit d <> "-"%char /\ Str.digit d <> "+"%char.
Proof.
  intros Hd.
  destruct (digit_cases d Hd) as [->|[->|[->|[->|[->|[->|[->|[->|[->| ->]]]]]]]]];
    repeat split; try reflexivity; discriminate.
Qed.

Lemma digits_S (fuel : nat) (n : Z) (rest : string) :
  Str.digits (S fuel) n rest
  = if (n <? 10)%Z then String (Str.digit (n mod 10)) rest
    else Str.digits fuel (n / 10) (String (Str.digit (n mod 10)) rest).
Proof. reflexivity. Qed.

Lemma read_digits_digits (fuel : nat) (n : Z) (rest : string) (seen : bool) :
  (0 <= n < 10 ^ Z.of_nat (S fuel))%Z ->
  Str.read_digits (Str.digits (S fuel) n rest) 0 seen = Str.read_digits rest n true.
Proof.
  revert n rest seen. induction fuel as [|fuel IH]; intros n rest seen Hn.
  - rewrite digits_S. change (10 ^ Z.of_nat 1)%Z with 10%Z in Hn.
    destruct (Z.ltb_spec n 10) as [_|?]; [|lia].
    rewrite Z.mod_small by lia. cbn [Str.read_digits].
    destruct (digit_value n Hn) as (-> & -> & _). reflexivity.
  - rewrite digits_S.
    assert (Hmod : (0 <= n mod 10 < 10)%Z) by (apply Z.mod_pos_bound; lia).
    destruct (Z.ltb_spec n 10) as [Hlt|Hge].
    + rewrite Z.mod_small by lia. cbn [Str.read_digits].
      destruct (digit_value n ltac:(lia)) as (-> & -> & _). reflexivity.
    + rewrite IH.
      * cbn [Str.read_digits]. destruct (digit_value _ Hmod) as (-> & -> & _).
        f_equal. pose proof (Z.div_mod n 10 ltac:(lia)). lia.
      * split; [apply Z.div_pos; lia|].
        apply Z.div_lt_upper_bound; [lia|].
        replace (Z.of_nat (S (S fuel))) with (Z.succ (Z.of_nat (S fuel))) in Hn by lia.
        rewrite Z.pow_succ_r in Hn by lia. lia.
Qed.

Lemma digits_head (fuel : nat) (n : Z) (rest : string) :
  (0 <= n)%Z ->
  exists d s, (0 <= d < 10)%Z /\ Str.digits (S fuel) n rest = String (Str.digit d) s.
Proof.
  revert n rest. induction fuel as [|fuel IH]; intros n rest Hn.
  - rewrite digits_S. exists (n mod 10)%Z.
    destruct (n <? 10)%Z; eexists; (split; [apply Z.mod_pos_bound; lia|reflexivity]).
  - rewrite digits_S.
    destruct (n <? 10)%Z.
    + exists (n mod 10)%Z. eexists. split; [apply Z.mod_pos_bound; lia|reflexivity].
    + apply IH. apply Z.div_pos; lia.
Qed.

Lemma stoi_digits (n : Z) :
  (0 <= n < 10 ^ 10)%Z ->
  Str.read_digits (Str.skip_space (Str.digits 10 n EmptyString)) 0 false = Some n
  /\ Str.skip_space (Str.digits 10 n EmptyString) = Str.digits 10 n EmptyString
  /\ exists d s, (0 <= d < 10)%Z /\ Str.digits 10 n EmptyString = String (Str.digit d) s.
Proof.
  intros Hn. destruct (digits_head 9 n EmptyString ltac:(lia)) as (d & s & Hd & E).
  assert (Hskip : Str.skip_space (Str.digits 10 n EmptyString) = Str.digits 10 n EmptyString).
  { rewrite E. cbn [Str.skip_space]. now destruct (digit_value d Hd) as (_ & _ & -> & _). }
  split; [|split; [exact Hskip|eauto]].
  rewrite Hskip. now rewrite (read_digits_digits 9 n EmptyString false Hn).
Qed.

Lemma stoi_to_string (n : int) :
  (INT_MIN <= n <= INT_MAX)%Z -> Str.stoi (Str.to_string n) = Some n.
Proof.
  unfold INT_MIN, INT_MAX. intros Hn. unfold Str.to_string, Str.stoi.
  destruct (Z.ltb_spec n 0) as [Hneg|Hpos].
  - change (Str.skip_space (String "-" ?s)) with (String "-" s).
    cbv iota beta.
    destruct (stoi_digits (- n) ltac:(lia)) as (_ & _ & d & s & Hd & E).
    rewrite (read_digits_digits 9 (- n) EmptyString false ltac:(lia)).
    cbn [Str.read_digits]. rewrite Z.opp_involutive.
    destruct (Z.leb_spec INT_MIN n), (Z.leb_spec n INT_MAX); unfold INT_MIN, INT_MAX in *;
      try lia. reflexivity.
  - destruct (stoi_digits n ltac:(lia)) as (Hread & Hskip & d & s & Hd & E).
    rewrite Hskip in *. rewrite E in *.
    destruct (digit_value d Hd) as (_ & _ & _ & Hm & Hp).
    assert (Hsign : match String (Str.digit d) s with
                    | String "-" s' => (true, s')
                    | String "+" s' => (false, s')
                    | _ => (false, String (Str.digit d) s)
                    end = (false, String (Str.digit d) s)).
    { destruct (digit_cases d Hd) as [->|[->|[->|[->|[->|[->|[->|[->|[->| ->]]]]]]]]];
        reflexivity. }
    rewrite Hsign, Hread.
    destruct (Z.leb_spec INT_MIN n), (Z.leb_spec n INT_MAX); unfold INT_MIN, INT_MAX in *;
      try lia. reflexivity.
Qed.

(** X24.  An [int] that [setInt] stores is what [getInt] returns for the
    key: [std::stoi] reads back the digits [std::to_string] wrote, for
    every [int] from INT_MIN to INT_MAX, and no warning is written. *)
Theorem setInt_getInt {F : Type} (this : ConfigManager.t) (key : string) (n d : int)
    (w : World F) :
  (INT_MIN <= n <= INT_MAX)%Z ->
  ConfigManager.getInt (ConfigManager.setInt this key n) key d w = Some (n, w).
Proof.
  intros Hn. unfold ConfigManager.getInt, ConfigManager.setInt.
  rewrite lookup_insert_eq. now rewrite (stoi_to_string n Hn).
Qed.

Lemma setInt_getInt_witness :
  ConfigManager.getInt (ConfigManager.setInt ∅ "window_width" (-2147483648)) "window_width"
    1200 (empty_world (F := spec_float))
  = Some ((-2147483648)%Z, empty_world).
Proof.
  apply (setInt_getInt ∅ "window_width" (-2147483648) 1200 (empty_world (F := spec_float))).
  unfold INT_MIN, INT_MAX. lia.
Defined.

(** ** Saving and loading a configuration *)

Lemma string_append_assoc (a b c : string) :
  ((a ++ b) ++ c)%string = (a ++ (b ++ c))%string.
Proof.
  induction a as [|x a IH]; [reflexivity|]. rewrite !append_cons. now rewrite IH.
Qed.

Lemma getlines_line (l rest : string) :
  has_char "010" l = false ->
  Str.getlines (l ++ String "010" rest) = l :: Str.getlines rest.
Proof.
  induction l as [|c l IH]; intros Hl.
  - reflexivity.
  - cbn [has_char] in Hl. apply orb_false_iff in Hl as [Hc Hl].
    rewrite append_cons. cbn [Str.getlines]. rewrite Hc, (IH Hl). reflexivity.
Qed.

Lemma has_char_append (c : ascii) (a b : string) :
  has_char c (a ++ b) = has_char c a || has_char c b.
Proof.
  induction a as [|x a IH]; [reflexivity|]. rewrite append_cons. cbn [has_char].
  now rewrite IH, orb_assoc.
Qed.

Lemma getlines_entries (pairs : list (string * string)) :
  Forall (fun p => has_char "010" p.1 = false /\ has_char "010" p.2 = false) pairs ->
  Str.getlines (foldr (fun pair rest => pair.1 ++ String "=" (pair.2 ++ String "010" rest))
                  EmptyString pairs)%string
  = entry_line <$> pairs.
Proof.
  induction 1 as [|[k v] pairs [Hk Hv] _ IH]; [reflexivity|].
  cbn [foldr fst snd fmap list_fmap].
  change (k ++ String "=" (v ++ String "010" ?r))%string
    with (k ++ ((String "=" v) ++ String "010" r))%string.
  rewrite <- string_append_assoc, getlines_line, IH; [reflexivity|].
  rewrite has_char_append. cbn [has_char fst snd] in *. now rewrite Hk, Hv.
Qed.

Lemma getlines_saved (pairs : list (string * string)) :
  Forall (fun p => has_char "010" p.1 = false /\ has_char "010" p.2 = false) pairs ->
  Str.getlines (ConfigManager.saved pairs)
  = "# Sandbox Simulation Configuration File"%string
    :: "# Generated automatically"%string :: EmptyString :: (entry_line <$> pairs).
Proof.
  intros H. unfold ConfigManager.saved.
  rewrite getlines_line by reflexivity. rewrite getlines_line by reflexivity.
  change (String "010" ?r) with (EmptyString ++ String "010" r)%string at 1.
  rewrite getlines_line by reflexivity. now rewrite getlines_entries.
Qed.

Lemma first_char_append (a b : string) :
  a <> EmptyString -> first_char (a ++ b) = first_char a.
Proof. destruct a; [congruence|reflexivity]. Qed.

Lemma last_char_append (a : string) (c : ascii) (b : string) :
  last_char (a ++ String c b) = last_char (String c b).
Proof.
  induction a as [|x a IH]; [reflexivity|]. rewrite append_cons.
  cbn [last_char]. destruct (a ++ String c b)%string eqn:E; [|exact IH].
  destruct a; discriminate.
Qed.

Lemma find_append (c : ascii) (a b : string) :
  has_char c a = false -> Str.find c (a ++ String c b) = Some (String.length a).
Proof.
  induction a as [|x a IH]; intros Ha.
  - rewrite append_nil. cbn [Str.find String.length]. now rewrite Ascii.eqb_refl.
  - cbn [has_char] in Ha. apply orb_false_iff in Ha as [Hx Ha].
    rewrite append_cons. cbn [Str.find String.length]. now rewrite Hx, (IH Ha).
Qed.

Lemma substring_prefix (a b : string) : substring 0 (String.length a) (a ++ b) = a.
Proof.
  induction a as [|x a IH]; [now destruct b|].
  rewrite append_cons. cbn [String.length substring]. now rewrite IH.
Qed.

Lemma substring_all (n : nat) (s : string) : String.length s <= n -> substring 0 n s = s.
Proof.
  revert n. induction s as [|x s IH]; intros n Hn; [now destruct n|].
  cbn [String.length] in Hn. destruct n as [|n]; [lia|].
  cbn [substring]. rewrite IH by lia. reflexivity.
Qed.

Lemma substring_skip (a : string) (c : ascii) (b : string) (n : nat) :
  substring (String.length a + 1) n (a ++ String c b) = substring 0 n b.
Proof.
  induction a as [|x a IH].
  - cbn. now destruct n.
  - rewrite append_cons. cbn [String.length Nat.add substring]. exact IH.
Qed.

Lemma length_append (a b : string) :
  String.length (a ++ b) = String.length a + String.length b.
Proof.
  induction a as [|x a IH]; [reflexivity|]. rewrite append_cons. cbn [String.length].
  now rewrite IH.
Qed.

Lemma blank_end_false (s : string) :
  blank_end s = false ->
  first_char s <> Some " "%char /\ last_char s <> Some " "%char.
Proof.
  unfold blank_end. intros [Hf Hl]%orb_false_iff. split.
  - destruct (first_char s) as [c|]; [|discriminate].
    intros [= ->]. discriminate.
  - destruct (last_char s) as [c|]; [|discriminate].
    intros [= ->]. discriminate.
Qed.

(** A line that [saveToFile] wrote for a plain key and a plain value is
    read back as this key and this value. *)
Lemma load_line_entry (this : gmap string string) (k v : string) :
  plain_key k = true -> plain_value v = true ->
  ConfigManager.load_line this (entry_line (k, v)) = <[k := v]> this.
Proof.
  unfold plain_key, plain_value, entry_line. cbn [fst snd].
  intros (((Hhead & Hkb%negb_true_iff)%andb_true_iff & Hke%negb_true_iff)%andb_true_iff
          & Hkn%negb_true_iff)%andb_true_iff
         (Hvb%negb_true_iff & Hvn%negb_true_iff)%andb_true_iff.
  destruct (blank_end_false k Hkb) as [Hkf Hkl].
  destruct (blank_end_false v Hvb) as [Hvf Hvl].
  destruct k as [|c k']; [discriminate|].
  apply andb_true_iff in Hhead as [Hc1%negb_true_iff Hc2%negb_true_iff].
  unfold ConfigManager.load_line.
  assert (Hline : ConfigManager.trim (String c k' ++ String "=" v) = (String c k' ++ String "=" v)%string).
  { apply trim_id.
    - rewrite first_char_append by discriminate. exact Hkf.
    - rewrite last_char_append. destruct v as [|x v']; [discriminate|exact Hvl]. }
  rewrite Hline. rewrite append_cons at 1. rewrite Hc1, Hc2. cbn [orb].
  rewrite (find_append "=" (String c k') v Hke).
  unfold Str.substr, Str.substr_from.
  rewrite substring_prefix, substring_skip.
  rewrite (substring_all _ v) by (rewrite length_append; cbn [String.length]; lia).
  rewrite (trim_id (String c k') Hkf Hkl), (trim_id v Hvf Hvl). reflexivity.
Qed.

Lemma foldl_load_entries (pairs : list (string * string)) (this : gmap string string) :
  Forall (fun p => plain_key p.1 && plain_value p.2 = true) pairs ->
  foldl ConfigManager.load_line this (entry_line <$> pairs)
  = foldl (fun m p => <[p.1 := p.2]> m) this pairs.
Proof.
  intros H. revert this. induction H as [|[k v] pairs Hp _ IH]; intros this; [reflexivity|].
  cbn [fmap list_fmap foldl fst snd] in *. apply andb_true_iff in Hp as [Hk Hv].
  rewrite (load_line_entry this k v Hk Hv). apply IH.
Qed.

Lemma foldl_insert_lookup (pairs : list (string * string)) (m : gmap string string) :
  NoDup pairs.*1 ->
  (forall k v, (k, v) ∈ pairs -> foldl (fun m p => <[p.1 := p.2]> m) m pairs !! k = Some v)
  /\ (forall k, k ∉ pairs.*1 -> foldl (fun m p => <[p.1 := p.2]> m) m pairs !! k = m !! k).
Proof.
  revert m. induction pairs as [|[k0 v0] pairs IH]; intros m Hnd.
  - split; [intros k v H; now apply elem_of_nil in H|reflexivity].
  - cbn [fmap list_fmap fst] in Hnd. apply NoDup_cons in Hnd as [Hk0 Hnd].
    destruct (IH (<[k0 := v0]> m) Hnd) as [IH1 IH2]. cbn [foldl fst snd]. split.
    + intros k v [[= -> ->]|Hin]%elem_of_cons; [|now apply IH1].
      rewrite IH2 by exact Hk0. apply lookup_insert_eq.
    + intros k Hk. cbn [fmap list_fmap fst] in Hk. apply not_elem_of_cons in Hk as [Hne Hk].
      rewrite IH2 by exact Hk. now apply lookup_insert_ne.
Qed.

Lemma foldl_insert_map (pairs : list (string * string)) (config : gmap string string) :
  pairs ≡ₚ map_to_list config ->
  foldl (fun m p => <[p.1 := p.2]> m) ∅ pairs = config.
Proof.
  intros Hp.
  assert (Hnd : NoDup pairs.*1) by (rewrite Hp; apply NoDup_fst_map_to_list).
  destruct (foldl_insert_lookup pairs ∅ Hnd) as [H1 H2].
  apply map_eq. intros k. destruct (config !! k) as [v|] eqn:Ek.
  - apply H1. rewrite Hp. now apply elem_of_map_to_list.
  - rewrite H2; [apply lookup_empty|].
    intros ([k' v] & -> & Hin)%list_elem_of_fmap. rewrite Hp in Hin.
    apply elem_of_map_to_list in Hin. cbn in Ek. congruence.
Qed.

(** The configuration read from what [saveToFile] writes. *)
Lemma load_saved (pairs : list (string * string)) (config : gmap string string) :
  pairs ≡ₚ map_to_list config -> storable config ->
  foldl ConfigManager.load_line ∅ (Str.getlines (ConfigManager.saved pairs)) = config.
Proof.
  intros Hp Hs.
  assert (Hall : Forall (fun p => plain_key p.1 && plain_value p.2 = true) pairs).
  { apply Forall_forall. intros [k v] Hin. rewrite Hp in Hin.
    apply elem_of_map_to_list in Hin. exact (Hs k v Hin). }
  rewrite getlines_saved.
  - cbn [foldl]. change (ConfigManager.load_line (ConfigManager.load_line
                           (ConfigManager.load_line ∅ _) _) EmptyString)
      with (∅ : gmap string string).
    rewrite (foldl_load_entries pairs ∅ Hall). now apply foldl_insert_map.
  - eapply Forall_impl; [exact Hall|]. intros [k v]. cbn [fst snd].
    unfold plain_key, plain_value.
    intros [Hk Hv]%andb_true_iff.
    apply andb_true_iff in Hk as [_ Hk%negb_true_iff].
    apply andb_true_iff in Hv as [_ Hv%negb_true_iff]. now split.
Qed.

(** X25.  A configuration saved to a file and loaded from it again is
    the same configuration, in whatever order the container gives its
    pairs, when the file can be written, every key is not empty, holds
    no [=] and no newline, has no blank at its ends and does not start
    with [#] or [;], and every value holds no newline and has no blank
    at its ends.  Both calls return [true]; what was configured before
    the load does not matter. *)
Theorem save_then_load {F : Type} (iteration : gmap string string -> list (string * string))
    (can_write : string -> bool) (files : gmap string string)
    (this before : gmap string string) (filename : string) (w : World F) :
  iteration this ≡ₚ map_to_list this ->
  can_write filename = true ->
  storable this ->
  exists files' w1 w2,
    ConfigManager.saveToFile iteration can_write files this filename w
    = Some ((true, files'), w1)
    /\ ConfigManager.loadFromFile files' before filename w1 = Some ((true, this), w2)
    /\ (forall other, other <> filename -> files' !! other = files !! other)
    /\ particles w2 = particles w /\ atoms w2 = atoms w /\ cerr w2 = cerr w.
Proof.
  intros Hiter Hwrite Hplain. unfold ConfigManager.saveToFile, ConfigManager.loadFromFile.
  rewrite Hwrite. do 3 eexists.
  split; [reflexivity|]. rewrite lookup_insert_eq.
  rewrite (load_saved _ this Hiter Hplain).
  split; [reflexivity|].
  split; [intros other Hne; now apply lookup_insert_ne|].
  repeat split.
Qed.

Lemma window_config_storable : storable window_config.
Proof.
  unfold storable, window_config.
  apply map_Forall_insert_2; [reflexivity|].
  apply map_Forall_insert_2; [reflexivity|]. apply map_Forall_empty.
Qed.

Lemma save_then_load_witness :
  exists files' w1 w2,
    ConfigManager.saveToFile map_to_list (fun _ => true) ∅ window_config "config.ini"
      (empty_world (F := spec_float))
    = Some ((true, files'), w1)
    /\ ConfigManager.loadFromFile files' ∅ "config.ini" w1 = Some ((true, window_config), w2)
    /\ (forall other, other <> "config.ini"%string ->
          files' !! other = (∅ : gmap string string) !! other)
    /\ particles w2 = particles (empty_world (F := spec_float))
    /\ atoms w2 = atoms (empty_world (F := spec_float))
    /\ cerr w2 = cerr (empty_world (F := spec_float)).
Proof.
  apply (save_then_load map_to_list (fun _ => true) ∅ window_config ∅ "config.ini"
           (empty_world (F := spec_float))).
  - reflexivity.
  - reflexivity.
  - exact window_config_storable.
Defined.

(** ** What [loadFromFile] can produce *)

Lemma getlines_no_newline (content : string) :
  Forall (fun l => has_char "010" l = false) (Str.getlines content).
Proof.
  induction content as [|c rest IH]; [constructor|]. cbn [Str.getlines].
  destruct (Ascii.eqb c "010") eqn:Ec; [now constructor|].
  destruct (Str.getlines rest) as [|line lines].
  - constructor; [|constructor]. cbn [has_char]. now rewrite Ec.
  - apply Forall_cons in IH as [Hl Hls]. constructor; [|exact Hls].
    cbn [has_char]. now rewrite Ec, Hl.
Qed.

Lemma has_char_strip_left (c : ascii) (s : string) :
  has_char c s = false -> has_char c (strip_left s) = false.
Proof.
  induction s as [|a s IH]; [reflexivity|]. cbn [strip_left].
  destruct (Ascii.eqb a " "); [|auto]. cbn [has_char].
  intros [_ H]%orb_false_iff. now apply IH.
Qed.

Lemma has_char_strip_right (c : ascii) (s : string) :
  has_char c s = false -> has_char c (strip_right s) = false.
Proof.
  induction s as [|a s IH]; [reflexivity|]. cbn [strip_right has_char].
  intros [Ha Hs]%orb_false_iff. specialize (IH Hs).
  destruct (strip_right s) as [|b r].
  - destruct (Ascii.eqb a " "); [reflexivity|]. cbn [has_char]. now rewrite Ha.
  - cbn [has_char] in *. now rewrite Ha, IH.
Qed.

Lemma has_char_trim (c : ascii) (s : string) :
  has_char c s = false -> has_char c (ConfigManager.trim s) = false.
Proof.
  intros H. rewrite trim_strip. now apply has_char_strip_right, has_char_strip_left.
Qed.

Lemma has_char_substring (c : ascii) (s : string) (i n : nat) :
  has_char c s = false -> has_char c (substring i n s) = false.
Proof.
  revert i n. induction s as [|a s IH]; intros i n H.
  - now destruct i, n.
  - cbn [has_char] in H. apply orb_false_iff in H as [Ha Hs].
    destruct i as [|i]; [destruct n as [|n]|]; cbn [substring]; [reflexivity| |now apply IH].
    cbn [has_char]. now rewrite Ha, IH.
Qed.

(** What stands before the first occurrence of a character does not
    hold the character. *)
Lemma find_prefix (c : ascii) (s : string) (pos : nat) :
  Str.find c s = Some pos -> has_char c (substring 0 pos s) = false.
Proof.
  revert pos. induction s as [|a s IH]; intros pos; [discriminate|].
  cbn [Str.find]. destruct (Ascii.eqb a c) eqn:Ea.
  - intros [= <-]. reflexivity.
  - destruct (Str.find c s) as [j|]; [|discriminate]. intros [= <-].
    cbn [substring has_char]. now rewrite Ea, IH.
Qed.

Lemma blank_end_trim (s : string) : blank_end (ConfigManager.trim s) = false.
Proof.
  destruct (trim_strips_ends s) as [Hf Hl]. unfold blank_end.
  apply orb_false_iff. split.
  - destruct (first_char _) as [c|]; [|reflexivity].
    destruct (Ascii.eqb_spec c " ") as [->|]; [congruence|reflexivity].
  - destruct (last_char _) as [c|]; [|reflexivity].
    destruct (Ascii.eqb_spec c " ") as [->|]; [congruence|reflexivity].
Qed.

(** The key read from a trimmed line starts as the line does. *)
Lemma trim_prefix_head (c : ascii) (rest : string) (pos : nat) :
  c <> " "%char ->
  ConfigManager.trim (substring 0 pos (String c rest)) = EmptyString
  \/ exists r, ConfigManager.trim (substring 0 pos (String c rest)) = String c r.
Proof.
  intros Hc. destruct pos as [|pos]; [now left|]. right.
  cbn [substring]. rewrite trim_strip. cbn [strip_left].
  destruct (Ascii.eqb_spec c " ") as [|_]; [contradiction|].
  cbn [strip_right]. destruct (strip_right _) as [|b r]; [|eauto].
  destruct (Ascii.eqb_spec c " ") as [|_]; [contradiction|eauto].
Qed.

Lemma load_line_storable (this : gmap string string) (line : string) :
  storable this -> has_char "010" line = false ->
  storable (ConfigManager.load_line this line).
Proof.
  intros Hs Hn. unfold ConfigManager.load_line.
  pose proof (has_char_trim "010" line Hn) as Hn'.
  destruct (trim_strips_ends line) as [Hf _].
  destruct (ConfigManager.trim line) as [|c rest] eqn:El; [exact Hs|].
  destruct (Ascii.eqb c "#") eqn:Ec1; [exact Hs|].
  destruct (Ascii.eqb c ";") eqn:Ec2; [exact Hs|]. cbn [orb].
  destruct (Str.find "=" (String c rest)) as [pos|] eqn:Epos; [|exact Hs].
  unfold Str.substr, Str.substr_from.
  destruct (ConfigManager.trim (substring 0 pos (String c rest))) as [|k0 k'] eqn:Ek;
    [exact Hs|].
  apply map_Forall_insert_2; [|exact Hs].
  apply andb_true_iff. split.
  - unfold plain_key. rewrite <- Ek.
    rewrite blank_end_trim.
    rewrite (has_char_trim "=" _ (find_prefix _ _ _ Epos)).
    rewrite (has_char_trim "010" _ (has_char_substring _ _ 0 pos Hn')).
    cbn [negb]. rewrite !andb_true_r.
    destruct (trim_prefix_head c rest pos) as [E|[r E]].
    + intros ->. now apply Hf.
    + rewrite Ek in E. discriminate.
    + rewrite Ek in E. injection E as -> _. now rewrite Ec1, Ec2.
  - unfold plain_value. rewrite blank_end_trim.
    now rewrite (has_char_trim "010" _ (has_char_substring _ _ _ _ Hn')).
Qed.

(** X26.  Whatever the file holds, the configuration [loadFromFile]
    reads from it is one that a file can hold: every key is not empty,
    holds no [=] and no newline, has no blank at its ends and starts
    with neither [#] nor [;], and every value holds no newline and has
    no blank at its ends.  A file that cannot be opened leaves the
    configuration as it was, and [false] is returned. *)
Theorem loadFromFile_storable {F : Type} (files : gmap string string)
    (this : gmap string string) (filename : string) (w : World F) :
  match files !! filename with
  | Some content =>
      exists loaded w',
        ConfigManager.loadFromFile files this filename w = Some ((true, loaded), w')
        /\ storable loaded
        /\ cerr w' = cerr w
  | None =>
      exists w',
        ConfigManager.loadFromFile files this filename w = Some ((false, this), w')
        /\ cout w' = cout w
  end.
Proof.
  unfold ConfigManager.loadFromFile. destruct (files !! filename) as [content|].
  - do 2 eexists. split; [reflexivity|]. split; [|reflexivity].
    pose proof (getlines_no_newline content) as Hlines.
    assert (H : forall lines m, Forall (fun l => has_char "010" l = false) lines ->
                  storable m -> storable (foldl ConfigManager.load_line m lines)).
    { induction lines as [|l lines IH]; intros m Hl Hm; [exact Hm|].
      apply Forall_cons in Hl as [Hl Hls]. cbn [foldl].
      apply IH; [exact Hls|]. now apply load_line_storable. }
    apply H; [exact Hlines|]. apply map_Forall_empty.
  - eexists. split; reflexivity.
Qed.

(** ** The binding energy of [MathUtils] *)

Lemma std_max_zero (x : spec_float) :
  let r := MathUtils.std_max (flit (F := spec_float) 0 0) x in
  r <> S754_nan /\ sign_bit r = false
  /\ (r = S754_zero false \/ (r = x /\ SFltb (S754_zero false) x = true)).
Proof.
  cbv zeta. unfold MathUtils.std_max. cbn [fltb binary32].
  change (flit (F := spec_float) 0 0) with (S754_zero false).
  destruct (SFltb (S754_zero false) x) eqn:Hlt.
  - destruct x as [s|s| |s m e]; try discriminate; destruct s; try discriminate;
      (split; [discriminate|]); (split; [reflexivity|]); right; now split.
  - split; [discriminate|]. split; [reflexivity|]. now left.
Qed.

(** X27.  Whatever [std::pow] returns, [calculateBindingEnergy] never
    returns NaN, a negative number or -0: the result is +0, or the
    positive energy of the mass formula; the terms that overflow or are
    NaN give +0.  For A <= 0, Z < 0 or Z > A the result is +0. *)
Theorem calculateBindingEnergy_nonnegative
    (std_pow : spec_float -> spec_float -> spec_float) (A Z : int) :
  let r := MathUtils.calculateBindingEnergy std_pow A Z in
  r <> S754_nan
  /\ sign_bit r = false
  /\ (r = S754_zero false \/ SFltb (S754_zero false) r = true)
  /\ ((A <= 0 \/ Z < 0 \/ A < Z)%Z -> r = S754_zero false).
Proof.
  cbv zeta. unfold MathUtils.calculateBindingEnergy.
  destruct ((A <=? 0) || (Z <? 0) || (A <? Z))%Z eqn:Hguard.
  - change (flit (F := spec_float) 0 0) with (S754_zero false).
    split; [discriminate|]. split; [reflexivity|]. split; [now left|reflexivity].
  - cbv zeta.
    match goal with
    | |- context [MathUtils.std_max _ ?be] =>
        destruct (std_max_zero be) as (Hnan & Hsign & Hval); set (r := MathUtils.std_max _ be) in *
    end.
    split; [exact Hnan|]. split; [exact Hsign|]. split.
    + destruct Hval as [E|[E Hlt]]; [now left|right]. now rewrite E.
    + intros Hbad. exfalso.
      apply orb_false_iff in Hguard as [Hg Hg3]. apply orb_false_iff in Hg as [Hg1 Hg2].
      apply Z.leb_gt in Hg1. apply Z.ltb_ge in Hg2. apply Z.ltb_ge in Hg3. lia.
Qed.
